(** * Mini-JSON-Parser: the value model, the recursive-descent parser and the
    pretty printer of [src/main.cpp], embedded in Rocq.

    - [std::string] is [string]; the parser indexes its input as a sequence
      of [char], modelled as [list ascii] with lookup [input !! pos];
    - [double] is IEEE-754 binary64, modelled by the Standard Library's
      [spec_float] with [prec = 53] and [emax = 1024]; [std::stod] and
      [std::cout << double] are the platform's, modelled after glibc and
      libstdc++: correctly rounded conversions, round to nearest even;
    - [JSONObject = std::unordered_map<std::string, JSONValue>] is
      [gmap string JSONValue]; its iteration order, which C++ leaves
      unspecified, is a parameter of the printer;
    - the member [pos] of [JSONParser] is threaded through a small state and
      exception monad; a thrown exception records the cursor it was thrown at;
    - the recursion of [parseValue] takes a budget, and every [while] loop a
      bound on its rounds; both are proved never to run out. *)

From Stdlib Require Import ZArith Ascii String List Lia.
From Stdlib Require Import Floats.SpecFloat.
From stdpp Require Import gmap strings list fin_maps.

#[local] Set Warnings "-register-all".
#[local] Open Scope char_scope.

(** ** Characters *)

Definition NUL : ascii := "000".
Definition dquote : ascii := "034".
Definition bslash : ascii := "092".
Definition newline : ascii := "010".

(** A [std::string] literal seen as its characters. *)
Definition chars (s : string) : list ascii := list_ascii_of_string s.

(** [std::isspace] and [std::isdigit] in the default "C" locale. *)
Definition isspace (c : ascii) : bool :=
  let n := nat_of_ascii c in
  (n =? 32)%nat || ((9 <=? n)%nat && (n <=? 13)%nat).

Definition isdigit (c : ascii) : bool :=
  let n := nat_of_ascii c in
  (48 <=? n)%nat && (n <=? 57)%nat.

Definition eqc (a b : ascii) : bool := Ascii.eqb a b.

(** ** Exceptions and the cursor monad *)

Inductive exn :=
  | runtime_error (what : string)
  | invalid_argument (what : string)
  | out_of_range (what : string).

(** The result of running a member function of [JSONParser] from a cursor:
    a value and the new cursor, an exception and the cursor it was thrown at,
    or exhaustion of the recursion budget of the embedding. *)
Inductive outcome (A : Type) : Type :=
  | Ok (a : A) (pos : nat)
  | Throw (e : exn) (pos : nat)
  | OutOfFuel.
Arguments Ok {A} a pos.
Arguments Throw {A} e pos.
Arguments OutOfFuel {A}.

Definition M (A : Type) : Type := nat -> outcome A.

Definition ret {A} (a : A) : M A := fun pos => Ok a pos.
Definition throw {A} (e : exn) : M A := fun pos => Throw e pos.
Definition out_of_fuel {A} : M A := fun _ => OutOfFuel.
Definition bind {A B} (m : M A) (k : A -> M B) : M B :=
  fun pos =>
    match m pos with
    | Ok a pos' => k a pos'
    | Throw e pos' => Throw e pos'
    | OutOfFuel => OutOfFuel
    end.
Definition getpos : M nat := fun pos => Ok pos pos.
Definition advance (n : nat) : M unit := fun pos => Ok tt (pos + n).
Definition lift {A} (r : exn + A) : M A :=
  match r with inl e => throw e | inr a => ret a end.

Notation "x <- m ;; k" := (bind m (fun x => k))
  (at level 100, m at next level, right associativity).
Notation "m >> k" := (bind m (fun _ => k))
  (at level 100, right associativity).

(** ** The platform's [double] *)

Definition double : Type := spec_float.

Section Decimal.
#[local] Open Scope Z_scope.

Definition digit_val (c : ascii) : Z := Z.of_nat (nat_of_ascii c) - 48.

Definition digits_val (ds : list ascii) : Z :=
  fold_left (fun a c => 10 * a + digit_val c) ds 0.

Fixpoint take_digits (l : list ascii) : list ascii :=
  match l with
  | c :: l' => if isdigit c then c :: take_digits l' else []
  | [] => []
  end.

Fixpoint drop_digits (l : list ascii) : list ascii :=
  match l with
  | c :: l' => if isdigit c then drop_digits l' else l
  | [] => []
  end.

(** Does the binary64 [d] denote exactly [N / 10^n]? *)
Definition exactly (d : double) (N : Z) (n : Z) : bool :=
  match d with
  | S754_finite _ m e =>
      if 0 <=? e then N =? Z.pos m * 2 ^ e * 10 ^ n
      else N * 2 ^ (- e) =? Z.pos m * 10 ^ n
  | _ => false
  end.

(** [N / 10^n] rounded to nearest-even in a binary format. *)
Definition round_decimal (emax : Z) (neg : bool) (N n : Z) : double :=
  let '(q, e, l) := SFdiv_core_binary 53 emax N 0 (10 ^ n) 0 in
  binary_round_aux 53 emax neg q e l.

(** Below the least normal binary64 once rounded to 53 bits with an
    exponent range wide enough not to matter. *)
Definition tiny (neg : bool) (N n : Z) : bool :=
  match round_decimal 2048 neg N n with
  | S754_finite _ m e => Z.pos (digits2_pos m) + e <=? -1022
  | _ => true
  end.

(** [strtod] of a decimal with digits [N] and [n] fractional digits:
    correctly rounded; [ERANGE], which [std::stod] turns into
    [std::out_of_range], on overflow and on inexact tiny results. *)
Definition decimal_to_double (neg : bool) (N n : Z) : exn + double :=
  if N =? 0 then inr (S754_zero neg)
  else
    let d := round_decimal 1024 neg N n in
    match d with
    | S754_infinity _ => inl (out_of_range "stod")
    | _ =>
        if tiny neg N n && negb (exactly d N n)
        then inl (out_of_range "stod")
        else inr d
    end.

(** [std::stod] on the alphabet [parseNumber] can capture (sign, digits,
    one point): the longest prefix [-? digit* (. digit* )?] is converted;
    with no digit at all no conversion is possible and
    [std::invalid_argument] is thrown. Leading blanks, [+], exponents,
    hexadecimal forms, [inf] and [nan] need characters the scanner never
    captures. *)
Definition stod (s : list ascii) : exn + double :=
  let '(neg, s1) :=
    match s with
    | c :: s' => if eqc c "-" then (true, s') else (false, s)
    | [] => (false, s)
    end in
  let ip := take_digits s1 in
  let fp :=
    match drop_digits s1 with
    | c :: s3 => if eqc c "." then take_digits s3 else []
    | [] => []
    end in
  match ip ++ fp with
  | [] => inl (invalid_argument "stod")
  | ds => decimal_to_double neg (digits_val ds) (Z.of_nat (length fp))
  end.

(** *** [std::cout << double]: [printf("%g")] with precision 6 *)

Definition div_half_even (a b : Z) : Z :=
  let q := a / b in
  match 2 * (a mod b) ?= b with
  | Lt => q
  | Gt => q + 1
  | Eq => if Z.even q then q else q + 1
  end.

(** [10^X <= num / den] *)
Definition pow10_le (num den X : Z) : bool :=
  if 0 <=? X then 10 ^ X * den <=? num else den <=? num * 10 ^ (- X).

(** The decimal exponent of [num / den > 0]. *)
Definition dec_exponent (num den : Z) : Z :=
  let est := (Z.log2 num - Z.log2 den) * 30103 / 100000 in
  let cands := map (fun k => est + 3 - Z.of_nat k) (seq 0 7) in
  match List.find (pow10_le num den) cands with
  | Some X => X
  | None => est - 3
  end.

(** [num / den / 10^(X-5)] rounded to an integer. *)
Definition six_digits (num den X : Z) : Z :=
  if 5 <=? X then div_half_even num (den * 10 ^ (X - 5))
  else div_half_even (num * 10 ^ (5 - X)) den.

Definition digit_char (d : Z) : ascii := ascii_of_nat (Z.to_nat (48 + d)).

Fixpoint dec_digits (k : nat) (D : Z) : list ascii :=
  match k with
  | O => []
  | S k' => dec_digits k' (D / 10) ++ [digit_char (D mod 10)]
  end.

Fixpoint drop_zeros (l : list ascii) : list ascii :=
  match l with
  | c :: l' => if eqc c "0" then drop_zeros l' else l
  | [] => []
  end.

(** Trailing zeros of a fraction are removed. *)
Definition strip_zeros (l : list ascii) : list ascii :=
  rev (drop_zeros (rev l)).

Definition with_point (ip fp : list ascii) : list ascii :=
  match fp with
  | [] => ip
  | _ => ip ++ "." :: fp
  end.

Definition exponent_field (X : Z) : list ascii :=
  let a := Z.abs X in
  "e" :: (if X <? 0 then "-" else "+") ::
    (if a <? 100 then dec_digits 2 a else dec_digits 3 a).

Definition format_finite (neg : bool) (m : positive) (e : Z) : list ascii :=
  let num := if 0 <=? e then Z.pos m * 2 ^ e else Z.pos m in
  let den := if 0 <=? e then 1 else 2 ^ (- e) in
  let X0 := dec_exponent num den in
  let D0 := six_digits num den X0 in
  let '(D, X) := if D0 =? 1000000 then (100000, X0 + 1) else (D0, X0) in
  let ds := dec_digits 6 D in
  let body :=
    if (X <? -4) || (6 <=? X) then
      with_point (take 1 ds) (strip_zeros (drop 1 ds)) ++ exponent_field X
    else if 0 <=? X then
      with_point (take (Z.to_nat (X + 1)) ds)
                 (strip_zeros (drop (Z.to_nat (X + 1)) ds))
    else
      with_point ["0"%char]
                 (strip_zeros (replicate (Z.to_nat (- X - 1)) "0"%char ++ ds))
  in
  (if neg then ["-"%char] else []) ++ body.

Definition format_double (d : double) : list ascii :=
  match d with
  | S754_zero s => (if s then ["-"%char] else []) ++ ["0"%char]
  | S754_infinity s => (if s then ["-"%char] else []) ++ chars "inf"
  | S754_nan => chars "nan"
  | S754_finite s m e => format_finite s m e
  end.
End Decimal.


(** ** The value model *)

Inductive JSONValue :=
  | JNull
  | JBool (b : bool)
  | JNumber (d : double)
  | JString (s : string)
  | JArray (a : list JSONValue)
  | JObject (o : gmap string JSONValue).

(** ** The parser *)

Definition msg_trailing : string := "Unexpected trailing characters".
Definition msg_invalid_value : string := "Invalid JSON value".
Definition msg_expected_quote : string :=
  "Expected '" +:+ String dquote "'".
Definition msg_invalid_escape : string := "Invalid escape sequence".
Definition msg_expected_lbracket : string := "Expected '['".
Definition msg_comma_array : string := "Expected ',' in array".
Definition msg_expected_lbrace : string := "Expected '{'".
Definition msg_colon : string := "Expected ':' after key".
Definition msg_comma_object : string := "Expected ',' in object".

Module JSONParser.
Section Parser.
Variable input : list ascii.

Definition size : nat := length input.

(** [while (pos < input.size() && p(input[pos])) pos++], at most [n]
    rounds; [n] is the number of characters left when the loop is entered. *)
Fixpoint scan (p : ascii -> bool) (n : nat) (pos : nat) : nat :=
  match n with
  | O => pos
  | S n' =>
      match input !! pos with
      | Some c => if p c then scan p n' (S pos) else pos
      | None => pos
      end
  end.

Definition skipWhitespace : M unit :=
  fun pos => Ok tt (scan isspace (size - pos) pos).

(** [while (std::isdigit(peek())) pos++]: [peek] answers NUL, not a digit,
    at the end of the input. *)
Definition skipDigits : M unit :=
  fun pos => Ok tt (scan isdigit (size - pos) pos).

Definition peek : M ascii :=
  fun pos => Ok (default NUL (input !! pos)) pos.

Definition get : M ascii :=
  fun pos =>
    match input !! pos with
    | Some c => Ok c (S pos)
    | None => Ok NUL pos
    end.

(** [input.compare(pos, len, lit) == 0]; [std::out_of_range] when the
    cursor is past the end. *)
Definition compare (len : nat) (lit : string) : M bool :=
  fun pos =>
    if (size <? pos)%nat then Throw (out_of_range "basic_string::compare") pos
    else Ok (bool_decide (take len (drop pos input) = chars lit)) pos.

(** [input.substr(start, len)] *)
Definition substr (start len : nat) : M (list ascii) :=
  fun pos =>
    if (size <? start)%nat then Throw (out_of_range "basic_string::substr") pos
    else Ok (take len (drop start input)) pos.

(** The body of [while (pos < input.size())] in [parseString]; [n] bounds
    the rounds by the characters left. *)
Fixpoint parseString_loop (n : nat) (result : list ascii) : M (list ascii) :=
  fun pos =>
    if (pos <? size)%nat then
      match n with
      | O => OutOfFuel
      | S n' =>
          (c <- get ;;
           if eqc c dquote then ret result
           else if eqc c bslash then
             next <- get ;;
             if eqc next dquote || eqc next bslash || eqc next "/" then
               parseString_loop n' (result ++ [next])
             else if eqc next "n" then
               parseString_loop n' (result ++ [newline])
             else throw (runtime_error msg_invalid_escape)
           else parseString_loop n' (result ++ [c])) pos
      end
    else Ok result pos.

Definition parseString : M string :=
  c <- get ;;
  if negb (eqc c dquote) then throw (runtime_error msg_expected_quote)
  else
    result <- (fun pos => parseString_loop (size - pos) [] pos) ;;
    ret (string_of_list_ascii result).

Definition parseNumber : M double :=
  start <- getpos ;;
  c <- peek ;;
  (if eqc c "-" then advance 1 else ret tt) >>
  skipDigits >>
  c <- peek ;;
  (if eqc c "." then advance 1 >> skipDigits else ret tt) >>
  pos <- getpos ;;
  tok <- substr start (pos - start) ;;
  lift (stod tok).

Section Containers.
(** The recursive call [parseValue()]. *)
Variable parseValue : M JSONValue.

(** [while (true)] in [parseArray]; every round consumes a character, so
    [n] bounds the rounds by the characters left. *)
Fixpoint parseArray_loop (n : nat) (arr : list JSONValue)
  : M (list JSONValue) :=
  match n with
  | O => out_of_fuel
  | S n' =>
      v <- parseValue ;;
      let arr := arr ++ [v] in
      skipWhitespace >>
      c <- peek ;;
      if eqc c "]" then get >> ret arr
      else
        c <- get ;;
        if negb (eqc c ",") then throw (runtime_error msg_comma_array)
        else parseArray_loop n' arr
  end.

Definition parseArray : M (list JSONValue) :=
  c <- get ;;
  if negb (eqc c "[") then throw (runtime_error msg_expected_lbracket)
  else
    skipWhitespace >>
    c <- peek ;;
    if eqc c "]" then get >> ret []
    else fun pos => parseArray_loop (S (size - pos)) [] pos.

(** [while (true)] in [parseObject]; [obj[key] = parseValue()] inserts or
    overwrites. *)
Fixpoint parseObject_loop (n : nat) (obj : gmap string JSONValue)
  : M (gmap string JSONValue) :=
  match n with
  | O => out_of_fuel
  | S n' =>
      skipWhitespace >>
      key <- parseString ;;
      skipWhitespace >>
      c <- get ;;
      if negb (eqc c ":") then throw (runtime_error msg_colon)
      else
        skipWhitespace >>
        v <- parseValue ;;
        let obj := <[key := v]> obj in
        skipWhitespace >>
        c <- peek ;;
        if eqc c "}" then get >> ret obj
        else
          c <- get ;;
          if negb (eqc c ",") then throw (runtime_error msg_comma_object)
          else parseObject_loop n' obj
  end.

Definition parseObject : M (gmap string JSONValue) :=
  c <- get ;;
  if negb (eqc c "{") then throw (runtime_error msg_expected_lbrace)
  else
    skipWhitespace >>
    c <- peek ;;
    if eqc c "}" then get >> ret ∅
    else fun pos => parseObject_loop (S (size - pos)) ∅ pos.
End Containers.

(** [fuel] bounds the nesting of [parseValue] calls. *)
Fixpoint parseValue (fuel : nat) : M JSONValue :=
  match fuel with
  | O => out_of_fuel
  | S fuel' =>
      skipWhitespace >>
      c <- peek ;;
      if eqc c dquote then s <- parseString ;; ret (JString s)
      else if eqc c "{" then
        o <- parseObject (parseValue fuel') ;; ret (JObject o)
      else if eqc c "[" then
        a <- parseArray (parseValue fuel') ;; ret (JArray a)
      else if isdigit c || eqc c "-" then
        d <- parseNumber ;; ret (JNumber d)
      else
        t <- compare 4 "true" ;;
        if t then advance 4 >> ret (JBool true)
        else
          f <- compare 5 "false" ;;
          if f then advance 5 >> ret (JBool false)
          else
            n <- compare 4 "null" ;;
            if n then advance 4 >> ret JNull
            else throw (runtime_error msg_invalid_value)
  end.

(** [JSONParser::parse], run from the constructor's [pos(0)]. Nesting
    cannot be deeper than the input is long. *)
Definition parse : outcome JSONValue :=
  (skipWhitespace >>
   val <- parseValue (S size) ;;
   skipWhitespace >>
   pos <- getpos ;;
   if negb (pos =? size)%nat then throw (runtime_error msg_trailing)
   else ret val) 0%nat.
End Parser.
End JSONParser.

(** What the caller of [JSONParser(text).parse()] observes. *)
Inductive result :=
  | Returned (v : JSONValue)
  | Raised (e : exn)
  | Diverged.

Definition observe (o : outcome JSONValue) : result :=
  match o with
  | Ok v _ => Returned v
  | Throw e _ => Raised e
  | OutOfFuel => Diverged
  end.

Definition parse_text (text : string) : result :=
  observe (JSONParser.parse (chars text)).

(** ** The pretty printer *)

Definition spaces (n : nat) : list ascii := replicate n " ".

(** The loop bodies of [printJSON] share their shape: indentation, the
    entry, a comma unless [count] is [size - 1], a newline. *)
Fixpoint print_entries (indent size count : nat) (entries : list (list ascii))
  : list ascii :=
  match entries with
  | [] => []
  | e :: rest =>
      spaces (indent + 2) ++ e ++
      (if (count =? size - 1)%nat then [] else [","]) ++ [newline] ++
      print_entries indent size (S count) rest
  end.

Section Printer.
(** The order in which [for (const auto& [key, value] : arg)] visits the
    keys of an [unordered_map]. *)
Variable iteration_order : gmap string JSONValue -> list string.

Fixpoint printJSON (val : JSONValue) (indent : nat) : list ascii :=
  match val with
  | JNull => chars "null"
  | JBool arg => if arg then chars "true" else chars "false"
  | JNumber arg => format_double arg
  | JString arg => [dquote] ++ chars arg ++ [dquote]
  | JArray arg =>
      ["["; newline] ++
      print_entries indent (length arg) 0
        (map (fun x => printJSON x (indent + 2)) arg) ++
      spaces indent ++ ["]"]
  | JObject arg =>
      let printed := (fun x => printJSON x (indent + 2)) <$> arg in
      ["{"; newline] ++
      print_entries indent (size arg) 0
        (omap (fun key =>
                 (fun p => [dquote] ++ chars key ++ [dquote; ":"; " "] ++ p)
                   <$> printed !! key)
              (iteration_order arg)) ++
      spaces indent ++ ["}"]
  end.

(** The text [printJSON(root)] writes to [std::cout]. *)
Definition render (v : JSONValue) : string :=
  string_of_list_ascii (printJSON v 0).
End Printer.

Definition keys_of (o : gmap string JSONValue) : list string :=
  (map_to_list o).*1.

(** * The vocabulary of the claims *)

(** A run of characters satisfying [p], ended by the input or by a
    character that does not, is what the loop consumes. *)
Definition stops (p : ascii -> bool) (rest : list ascii) : Prop :=
  match rest with
  | [] => True
  | c :: _ => p c = false
  end.

Definition syntax_messages : list string :=
  [msg_trailing; msg_invalid_value; msg_expected_quote; msg_invalid_escape;
   msg_expected_lbracket; msg_comma_array; msg_expected_lbrace; msg_colon;
   msg_comma_object].

(** The parser's own failure: a [std::runtime_error] with a fixed message. *)
Definition syntax_error (e : exn) : Prop :=
  exists m, m ∈ syntax_messages /\ e = runtime_error m.

(** What [std::stod] throws. *)
Definition stod_error (e : exn) : Prop :=
  e = invalid_argument "stod" \/ e = out_of_range "stod".

(** [sound sz lo strict o]: the run [o], started at cursor [lo] on an input of
    length [sz], ended; its cursor moved forward ([strict]: by at least one
    character on success) and stayed within the input; an exception is a
    syntax error or comes from [std::stod]. *)
Definition sound {A} (sz lo : nat) (strict : bool) (o : outcome A) : Prop :=
  match o with
  | Ok _ p => (if strict then lo < p else lo <= p) /\ p <= sz
  | Throw e p => (lo <= p /\ p <= sz) /\ (syntax_error e \/ stod_error e)
  | OutOfFuel => False
  end.

(** The escape table of the grammar: the character after a backslash and the
    character it stands for. *)
Definition escape_table : list (ascii * ascii) :=
  [(dquote, dquote); (bslash, bslash); ("/", "/"); ("n", newline)].

Definition escape (c : ascii) : option ascii :=
  snd <$> List.find (fun e => eqc c (fst e)) escape_table.

(** The characters a string body stands for, when it holds no closing quote
    and every backslash is followed by an entry of the table. *)
Fixpoint decode_body (body : list ascii) : option (list ascii) :=
  match body with
  | [] => Some []
  | c :: rest =>
      if eqc c dquote then None
      else if eqc c bslash then
        match rest with
        | [] => None
        | x :: rest' =>
            match escape x with
            | Some y => cons y <$> decode_body rest'
            | None => None
            end
        end
      else cons c <$> decode_body rest
  end.

(** The body reaches a backslash that no entry of the table follows. *)
Definition bad_escape (tail : list ascii) : Prop :=
  tail = [bslash] \/ exists c rest, tail = bslash :: c :: rest /\ escape c = None.

(** The nesting depth of a value: the recursion budget [parseValue] needs. *)
Fixpoint depth (v : JSONValue) : nat :=
  match v with
  | JArray a => S (foldr (fun x n => depth x `max` n) 0 a)
  | JObject o => S (map_fold (fun _ x n => depth x `max` n) 0 o)
  | _ => 0
  end.

(** What [parseNumber] scans: a sign, digits, and a point with digits, each
    part possibly empty. *)
Record numtok := {
  nt_neg : bool;
  nt_int : list ascii;
  nt_frac : option (list ascii)
}.

Definition token (t : numtok) : list ascii :=
  (if nt_neg t then ["-"] else []) ++ nt_int t ++
  match nt_frac t with Some fp => "." :: fp | None => [] end.

Definition all_digits (l : list ascii) : Prop :=
  Forall (fun c => isdigit c = true) l.

(** The token is made of digits and is one [parseValue] hands to
    [parseNumber]: it starts with a digit or with the sign. *)
Definition wf_token (t : numtok) : Prop :=
  all_digits (nt_int t) /\
  (forall fp, nt_frac t = Some fp -> all_digits fp) /\
  (nt_neg t = true \/ nt_int t <> []).

(** The character after the token does not continue it. *)
Definition ends_token (t : numtok) (rest : list ascii) : Prop :=
  stops isdigit rest /\
  (nt_frac t = None -> stops (fun c => eqc c ".") rest).

Definition all_space (ws : list ascii) : Prop :=
  Forall (fun c => isspace c = true) ws.

(** The text after a value does not continue a number token. *)
Definition delimited (rest : list ascii) : Prop :=
  stops isdigit rest /\ stops (fun c => eqc c ".") rest.

(** A value text starts with a character that is not whitespace. *)
Definition value_head (text : list ascii) : Prop :=
  exists c t, text = c :: t /\ isspace c = false.

(** An array element with the whitespace around it. *)
Record item := {
  i_lead : list ascii;
  i_text : list ascii;
  i_val : JSONValue;
  i_trail : list ascii
}.

(** The text of the elements, from the cursor of the loop to the closing
    bracket. *)
Fixpoint items_text (its : list item) : list ascii :=
  match its with
  | [] => []
  | it :: its' =>
      i_lead it ++ i_text it ++ i_trail it ++
      match its' with
      | [] => ["]"]
      | _ => "," :: items_text its'
      end
  end.

(** An object member with the whitespace around its parts. *)
Record member := {
  m_lead : list ascii;
  m_keytext : list ascii;
  m_key : list ascii;
  m_gap1 : list ascii;
  m_gap2 : list ascii;
  m_text : list ascii;
  m_val : JSONValue;
  m_trail : list ascii
}.

Definition member_text (m : member) : list ascii :=
  m_lead m ++ dquote :: m_keytext m ++ dquote :: m_gap1 m ++
  ":" :: m_gap2 m ++ m_text m ++ m_trail m.

Fixpoint members_text (ms : list member) : list ascii :=
  match ms with
  | [] => []
  | m :: ms' =>
      member_text m ++
      match ms' with
      | [] => ["}"]
      | _ => "," :: members_text ms'
      end
  end.

(** [obj[key] = value] for the members in the order of the text. *)
Definition insert_members (obj : gmap string JSONValue) (ms : list member)
  : gmap string JSONValue :=
  foldl (fun o m => <[string_of_list_ascii (m_key m) := m_val m]> o) obj ms.

(** The binary64 value [m * 2^e], for [m] and [e] in range. *)
Definition ldexp_Z (m e : Z) : double := binary_normalize 53 1024 m e false.

Definition plain_char (c : ascii) : bool :=
  negb (eqc c dquote) && negb (eqc c bslash).

(** A string the printer can write between quotes as it is. *)
Definition plain (s : string) : Prop :=
  Forall (fun c => plain_char c = true) (chars s).

(** A double whose default formatting is a decimal token that converts back
    to it. *)
Definition number_trips (d : double) : Prop :=
  exists t, wf_token t /\ format_double d = token t /\ stod (token t) = inr d.

Inductive printable : JSONValue -> Prop :=
  | printable_null : printable JNull
  | printable_bool b : printable (JBool b)
  | printable_number d : number_trips d -> printable (JNumber d)
  | printable_string s : plain s -> printable (JString s)
  | printable_array a : Forall printable a -> printable (JArray a)
  | printable_object o :
      map_Forall (fun k x => plain k /\ printable x) o ->
      printable (JObject o).

(** The members of an object, in the order the printer visits them. *)
Definition visited (order : gmap string JSONValue -> list string)
    (o : gmap string JSONValue) : list (string * JSONValue) :=
  omap (fun k => pair k <$> o !! k) (order o).

(** A member of an object text: whitespace where the grammar allows it, a
    key with valid escapes only, and a value in the printer's notation. *)
Definition source_member (order : gmap string JSONValue -> list string)
    (m : member) : Prop :=
  all_space (m_lead m) /\ decode_body (m_keytext m) = Some (m_key m) /\
  all_space (m_gap1 m) /\ all_space (m_gap2 m) /\ all_space (m_trail m) /\
  printable (m_val m) /\
  exists indent, m_text m = printJSON order (m_val m) indent.

(** [peek()] as a function of the cursor. *)
Definition peekc (input : list ascii) (pos : nat) : ascii :=
  default NUL (input !! pos).

(** [pv] reads the value [v] from the text [text], wherever the text
    stands in the input and whatever whitespace precedes it. *)
Definition reads (input : list ascii) (pv : M JSONValue)
    (text : list ascii) (v : JSONValue) : Prop :=
  forall pos ws rest,
    all_space ws -> delimited rest ->
    drop pos input = ws ++ text ++ rest ->
    pv pos = Ok v (pos + length ws + length text).

Definition item_ok (input : list ascii) (pv : M JSONValue) (it : item) : Prop :=
  all_space (i_lead it) /\ all_space (i_trail it) /\
  reads input pv (i_text it) (i_val it).

Definition member_ok (input : list ascii) (pv : M JSONValue) (m : member)
  : Prop :=
  all_space (m_lead m) /\ decode_body (m_keytext m) = Some (m_key m) /\
  all_space (m_gap1 m) /\ all_space (m_gap2 m) /\
  value_head (m_text m) /\ reads input pv (m_text m) (m_val m) /\
  all_space (m_trail m).

(** The elements of a printed array, as the loop of [parseArray] meets
    them: each on its own line, the last followed by the line of the
    closing bracket. *)
Fixpoint array_items (order : gmap string JSONValue -> list string)
    (indent : nat) (xs : list JSONValue) : list item :=
  match xs with
  | [] => []
  | x :: xs' =>
      {| i_lead := newline :: spaces (indent + 2);
         i_text := printJSON order x (indent + 2);
         i_val := x;
         i_trail := match xs' with [] => newline :: spaces indent | _ => [] end |}
      :: array_items order indent xs'
  end.

(** What the printer writes for one member before its value. *)
Definition key_text (key : string) (p : list ascii) : list ascii :=
  [dquote] ++ chars key ++ [dquote; ":"; " "]%char ++ p.

Fixpoint object_members (order : gmap string JSONValue -> list string)
    (indent : nat) (kvs : list (string * JSONValue))
  : list member :=
  match kvs with
  | [] => []
  | kv :: kvs' =>
      {| m_lead := newline :: spaces (indent + 2);
         m_keytext := chars kv.1;
         m_key := chars kv.1;
         m_gap1 := [];
         m_gap2 := [" "%char];
         m_text := printJSON order kv.2 (indent + 2);
         m_val := kv.2;
         m_trail := match kvs' with [] => newline :: spaces indent | _ => [] end |}
      :: object_members order indent kvs'
  end.

(** Sample values and texts. *)

Section Samples.
#[local] Open Scope string_scope.

Definition quoted (s : string) : string :=
  String dquote (s +:+ String dquote EmptyString).

(** Lines joined by newlines, with none after the last. *)
Fixpoint join_lines (ls : list string) : list ascii :=
  match ls with
  | [] => []
  | [l] => chars l
  | l :: ls' => chars l ++ newline :: join_lines ls'
  end.

Definition x_array : JSONValue :=
  JObject {["x" := JArray [JNumber (ldexp_Z 1 0); JNumber (ldexp_Z 2 0)]]}.

Definition number_token (neg : bool) (ip : string) : numtok :=
  {| nt_neg := neg; nt_int := chars ip; nt_frac := None |}.

Definition sample_tree : JSONValue :=
  JObject (<["name" := JString "SWSCODES"]>
           (<["x" := JArray [JNumber (ldexp_Z 1 0); JNumber (ldexp_Z (-25) (-1));
                             JArray []; JObject ∅]]>
           (<["ok" := JBool true]> {["none" := JNull]}))).

Definition compact_member (key : string) (v : JSONValue) : member :=
  {| m_lead := []; m_keytext := chars key; m_key := chars key;
     m_gap1 := []; m_gap2 := []; m_text := printJSON keys_of v 0;
     m_val := v; m_trail := [] |}.

End Samples.

(** * The vocabulary of further properties *)

Definition shift {A} (k : nat) (o : outcome A) : outcome A :=
  match o with
  | Ok a p => Ok a (k + p)
  | Throw e p => Throw e (k + p)
  | OutOfFuel => OutOfFuel
  end.

(** The run [o'] is the run [o] unless [o] ran out of budget. *)
Definition extends {A} (o o' : outcome A) : Prop :=
  o <> OutOfFuel -> o' = o.

(** The text at the cursor opens no value production: it is empty, or starts
    with a character that is neither whitespace nor the first character of a
    string, an object, an array or a number, and it does not start with one
    of the three keywords. *)
Definition opens_no_value (text : list ascii) : Prop :=
  stops isspace text /\
  stops (fun c => eqc c dquote || eqc c "{" || eqc c "[" || isdigit c || eqc c "-")
        text /\
  take 4 text <> chars "true" /\ take 5 text <> chars "false" /\
  take 4 text <> chars "null".

(** The keyword that stands for a value, for the values that have one. *)
Definition keyword (v : JSONValue) : option (list ascii) :=
  match v with
  | JNull => Some (chars "null")
  | JBool true => Some (chars "true")
  | JBool false => Some (chars "false")
  | _ => None
  end.

(** A grammar of texts the parser accepts, with the value each stands for:
    a keyword; a number token [std::stod] converts; a string closed by its
    quote, with any characters and valid escapes in between; an array or
    object with whitespace wherever the parser skips it. *)
Inductive value_text : list ascii -> JSONValue -> Prop :=
  | value_text_keyword v kw :
      keyword v = Some kw -> value_text kw v
  | value_text_number t d :
      wf_token t -> stod (token t) = inr d -> value_text (token t) (JNumber d)
  | value_text_string body s :
      decode_body body = Some s ->
      value_text (dquote :: body ++ [dquote]) (JString (string_of_list_ascii s))
  | value_text_empty_array ws :
      all_space ws -> value_text ("[" :: ws ++ ["]"]) (JArray [])
  | value_text_array its :
      its <> [] -> items_texts its ->
      value_text ("[" :: items_text its) (JArray (map i_val its))
  | value_text_empty_object ws :
      all_space ws -> value_text ("{" :: ws ++ ["}"]) (JObject ∅)
  | value_text_object ms :
      ms <> [] -> members_texts ms ->
      value_text ("{" :: members_text ms) (JObject (insert_members ∅ ms))
with items_texts : list item -> Prop :=
  | items_texts_nil : items_texts []
  | items_texts_cons it its :
      all_space (i_lead it) -> all_space (i_trail it) ->
      value_text (i_text it) (i_val it) ->
      items_texts its -> items_texts (it :: its)
with members_texts : list member -> Prop :=
  | members_texts_nil : members_texts []
  | members_texts_cons m ms :
      all_space (m_lead m) -> decode_body (m_keytext m) = Some (m_key m) ->
      all_space (m_gap1 m) -> all_space (m_gap2 m) ->
      value_text (m_text m) (m_val m) -> all_space (m_trail m) ->
      members_texts ms -> members_texts (m :: ms).

Scheme value_text_min := Minimality for value_text Sort Prop
  with items_texts_min := Minimality for items_texts Sort Prop
  with members_texts_min := Minimality for members_texts Sort Prop.
Combined Scheme value_text_mutind
  from value_text_min, items_texts_min, members_texts_min.

(** The text of elements each followed by its comma: what the loop of
    [parseArray] has consumed when it asks for the next element. *)
Fixpoint items_comma (its : list item) : list ascii :=
  match its with
  | [] => []
  | it :: its' =>
      i_lead it ++ i_text it ++ i_trail it ++ "," :: items_comma its'
  end.

(** The text of members each followed by its comma. *)
Fixpoint members_comma (ms : list member) : list ascii :=
  match ms with
  | [] => []
  | m :: ms' => member_text m ++ "," :: members_comma ms'
  end.

(** After whitespace the text goes on, if it does, with a character that is
    not [c]. *)
Definition next_is_not (c : ascii) (text : list ascii) : Prop :=
  exists ws rest,
    text = ws ++ rest /\ all_space ws /\
    stops (fun x => isspace x || eqc x c) rest.

(** A member written without whitespace before its value. *)
Definition plain_member (key : string) (text : list ascii) (v : JSONValue)
    (trail : list ascii) : member :=
  {| m_lead := []; m_keytext := chars key; m_key := chars key;
     m_gap1 := []; m_gap2 := []; m_text := text; m_val := v;
     m_trail := trail |}.

(** ** The driver *)

(** What a run of the program leaves behind: the text written to
    [std::cout], the text written to [std::cerr], and the exit status. *)
Record output := {
  std_out : list ascii;
  std_err : list ascii;
  status : nat
}.

(** [e.what()] *)
Definition what (e : exn) : string :=
  match e with
  | runtime_error w => w
  | invalid_argument w => w
  | out_of_range w => w
  end.

Section Driver.
#[local] Open Scope string_scope.

(** The raw string literal of [main]. *)
Definition jsonText : string :=
  string_of_list_ascii
    (join_lines
       [EmptyString;
        "    {";
        "        " +:+ quoted "name" +:+ ": " +:+ quoted "SWSCODES" +:+ ",";
        "        " +:+ quoted "age" +:+ ": 21,";
        "        " +:+ quoted "isDeveloper" +:+ ": true,";
        "        " +:+ quoted "skills" +:+ ": [" +:+ quoted "C++" +:+ ", " +:+
          quoted "Systems" +:+ ", " +:+ quoted "Networking" +:+ "],";
        "        " +:+ quoted "projects" +:+ ": null";
        "    }";
        "    "]).

(** The body of [main] for a document text: the [try] block prints the
    tree and [std::endl]; the handler of [std::exception], the base of the
    three exception classes, prints the message; [return 0] either way. *)
Definition run_document (order : gmap string JSONValue -> list string)
    (text : string) : option output :=
  match parse_text text with
  | Returned root =>
      Some {| std_out := printJSON order root 0 ++ [newline];
              std_err := [];
              status := 0 |}
  | Raised e =>
      Some {| std_out := [];
              std_err := chars "Parse error: " ++ chars (what e) ++ [newline];
              status := 0 |}
  | Diverged => None
  end.

Definition main (order : gmap string JSONValue -> list string) : option output :=
  run_document order jsonText.

(** The tree of the document of [main]. *)
Definition document : JSONValue :=
  JObject
    (<["name" := JString "SWSCODES"]>
     (<["age" := JNumber (ldexp_Z 21 0)]>
      (<["isDeveloper" := JBool true]>
       (<["skills" := JArray [JString "C++"; JString "Systems";
                              JString "Networking"]]>
        {["projects" := JNull]})))).
End Driver.

(** [k] more spaces after every newline of a text. *)
Fixpoint reindent (k : nat) (text : list ascii) : list ascii :=
  match text with
  | [] => []
  | c :: t =>
      if eqc c newline then newline :: spaces k ++ reindent k t
      else c :: reindent k t
  end.

Definition no_newline (l : list ascii) : Prop :=
  Forall (fun c => eqc c newline = false) l.

(** A tree whose strings and keys hold no newline. *)
Inductive newline_free : JSONValue -> Prop :=
  | newline_free_null : newline_free JNull
  | newline_free_bool b : newline_free (JBool b)
  | newline_free_number d : newline_free (JNumber d)
  | newline_free_string s : no_newline (chars s) -> newline_free (JString s)
  | newline_free_array a : Forall newline_free a -> newline_free (JArray a)
  | newline_free_object o :
      map_Forall (fun k x => no_newline (chars k) /\ newline_free x) o ->
      newline_free (JObject o).

(** The alternatives of the variant [JSONValue::ValueType]. *)
Inductive kind := KNull | KBool | KNumber | KString | KArray | KObject.

Definition kind_of (v : JSONValue) : kind :=
  match v with
  | JNull => KNull
  | JBool _ => KBool
  | JNumber _ => KNumber
  | JString _ => KString
  | JArray _ => KArray
  | JObject _ => KObject
  end.

(** The production [parseValue] chooses on the character at the cursor. *)
Definition kind_opened_by (c : ascii) : option kind :=
  if eqc c dquote then Some KString
  else if eqc c "{" then Some KObject
  else if eqc c "[" then Some KArray
  else if isdigit c || eqc c "-" then Some KNumber
  else if eqc c "t" || eqc c "f" then Some KBool
  else if eqc c "n" then Some KNull
  else None.

(** An opening quote and a body with valid escapes that the end of the
    input cuts short: the text [parseString] accepts without a closing
    quote. *)
Definition open_string (text : list ascii) (v : JSONValue) : Prop :=
  exists body s,
    text = dquote :: body /\ decode_body body = Some s /\
    v = JString (string_of_list_ascii s).

(** The run from cursor [pos] to cursor [p] read, after whitespace, a text of
    the value [v]: a text of the grammar, or a string cut short by the end of
    the input. *)
Definition parsed (input : list ascii) (pos p : nat) (v : JSONValue) : Prop :=
  exists ws t,
    drop pos input = ws ++ t ++ drop p input /\ all_space ws /\
    (value_text t v \/ (open_string t v /\ drop p input = [])).

(** A [double] that is a number: neither an infinity nor a NaN. *)
Definition finite (d : double) : bool :=
  match d with
  | S754_zero _ | S754_finite _ _ _ => true
  | S754_infinity _ | S754_nan => false
  end.

(** A tree whose [Number] leaves are all finite. *)
Inductive finite_numbers : JSONValue -> Prop :=
  | finite_numbers_null : finite_numbers JNull
  | finite_numbers_bool b : finite_numbers (JBool b)
  | finite_numbers_number d : finite d = true -> finite_numbers (JNumber d)
  | finite_numbers_string s : finite_numbers (JString s)
  | finite_numbers_array a : Forall finite_numbers a -> finite_numbers (JArray a)
  | finite_numbers_object o :
      map_Forall (fun _ x => finite_numbers x) o -> finite_numbers (JObject o).

(** Structural equality of two [double]s, bit for bit. *)
Definition double_eqb (a b : double) : bool :=
  match a, b with
  | S754_zero s, S754_zero s' => Bool.eqb s s'
  | S754_infinity s, S754_infinity s' => Bool.eqb s s'
  | S754_nan, S754_nan => true
  | S754_finite s m e, S754_finite s' m' e' =>
      Bool.eqb s s' && Pos.eqb m m' && Z.eqb e e'
  | _, _ => false
  end.

(** The [Number] [n] is printed as a sign and digits only, and the printed
    text converts back to it. *)
Definition integer_trips (n : Z) : bool :=
  let d := ldexp_Z n 0 in
  let s := format_double d in
  let ds := if (n <? 0)%Z then tail s else s in
  (if (n <? 0)%Z then match s with c :: _ => eqc c "-" | [] => false end
   else true)
  && forallb isdigit ds && negb (Nat.eqb (length ds) 0)
  && match stod s with inr d' => double_eqb d d' | inl _ => false end.

(** [f] holds of [k] and of [-k] for every [k] from 0 below [N]. *)
Definition holds_below (f : Z -> bool) (N : positive) : bool :=
  fst (Pos.iter (fun '(b, k) => (b && f k && f (- k)%Z, (k + 1)%Z))
                (true, 0%Z) N).

(** * Facts about the cursor primitives *)

Import JSONParser.

Section CursorFacts.
Variable input : list ascii.
Implicit Types (pos n : nat) (p : ascii -> bool).

Lemma drop_cons_lookup pos c rest :
  drop pos input = c :: rest ->
  input !! pos = Some c /\ drop (S pos) input = rest.
Proof.
  intros H. split.
  - rewrite <- (Nat.add_0_r pos), <- lookup_drop, H. reflexivity.
  - rewrite <- Nat.add_1_r, <- drop_drop, H. reflexivity.
Qed.

Lemma drop_nil_lookup pos : drop pos input = [] -> input !! pos = None.
Proof.
  intros H. rewrite <- (Nat.add_0_r pos), <- lookup_drop, H. reflexivity.
Qed.

Lemma drop_length_le pos l rest :
  drop pos input = l ++ rest -> length l + length rest = size input - pos.
Proof.
  intros H. unfold size. rewrite <- (length_drop input pos), H, length_app.
  reflexivity.
Qed.

Lemma scan_le p n pos : pos <= scan input p n pos.
Proof.
  revert pos. induction n as [|n IH]; intros pos; simpl; [lia|].
  destruct (input !! pos); [|lia].
  destruct (p a); [|lia]. specialize (IH (S pos)). lia.
Qed.

Lemma scan_bound p n pos : pos <= size input -> scan input p n pos <= size input.
Proof.
  revert pos. induction n as [|n IH]; intros pos Hpos; simpl; [lia|].
  destruct (input !! pos) eqn:E; [|lia].
  destruct (p a); [|lia]. apply IH.
  apply lookup_lt_Some in E. unfold size. lia.
Qed.

Lemma scan_stops p n pos i c :
  pos <= i -> input !! i = Some c -> p c = false -> scan input p n pos <= i.
Proof.
  revert pos. induction n as [|n IH]; intros pos Hle Hi Hc; simpl; [lia|].
  destruct (input !! pos) eqn:E; [|lia].
  destruct (p a) eqn:Ep; [|lia].
  apply IH; [|done..].
  destruct (decide (pos = i)) as [->|]; [congruence|lia].
Qed.

(** With the bound [size - pos] the loop stops where the [while] stops: every
    character passed satisfies [p], and the cursor is at the end of the input
    or at a character that does not. *)
Lemma scan_exit p pos :
  pos <= size input ->
  let q := scan input p (size input - pos) pos in
  (forall i, pos <= i < q -> exists c, input !! i = Some c /\ p c = true) /\
  (q = size input \/ exists c, input !! q = Some c /\ p c = false).
Proof.
  intros Hpos. cbv zeta.
  remember (size input - pos) as n eqn:Hn. revert pos Hpos Hn.
  induction n as [|n IH]; intros pos Hpos Hn; simpl.
  - split; [intros i Hi; lia|]. left. lia.
  - destruct (input !! pos) as [c|] eqn:Ec.
    + destruct (p c) eqn:Ep.
      * destruct (IH (S pos)) as [Hall Hend]; [lia..|].
        split; [|exact Hend]. intros i Hi.
        destruct (decide (i = pos)) as [->|]; [eauto|].
        apply Hall. lia.
      * split; [intros i Hi; lia|]. right. eauto.
    + apply lookup_ge_None in Ec. unfold size in *. lia.
Qed.
Lemma scan_app p run rest n pos :
  drop pos input = run ++ rest ->
  Forall (fun c => p c = true) run ->
  stops p rest ->
  length run <= n ->
  scan input p n pos = pos + length run.
Proof.
  revert n pos. induction run as [|c run IH]; intros n pos Hd Hall Hst Hn.
  - simpl in *. rewrite Nat.add_0_r. destruct n; [done|]. simpl.
    destruct rest as [|c rest].
    + by rewrite (drop_nil_lookup _ Hd).
    + destruct (drop_cons_lookup _ _ _ Hd) as [-> _]. simpl in Hst.
      by rewrite Hst.
  - destruct n; simpl in Hn; [lia|]. simpl.
    destruct (drop_cons_lookup _ _ _ Hd) as [-> Hd'].
    inversion Hall as [|? ? Hc Hall']; subst. rewrite Hc.
    rewrite (IH n (S pos)); [lia|done..|lia].
Qed.

Lemma skipWhitespace_app ws rest pos :
  drop pos input = ws ++ rest ->
  Forall (fun c => isspace c = true) ws ->
  stops isspace rest ->
  skipWhitespace input pos = Ok tt (pos + length ws).
Proof.
  intros Hd Hws Hst. unfold skipWhitespace. f_equal.
  apply (scan_app _ _ rest); [done..|].
  pose proof (drop_length_le _ _ _ Hd). lia.
Qed.

Lemma skipWhitespace_stay rest pos :
  drop pos input = rest -> stops isspace rest ->
  skipWhitespace input pos = Ok tt pos.
Proof.
  intros Hd Hst.
  rewrite (skipWhitespace_app [] rest pos); [|done..].
  simpl. by rewrite Nat.add_0_r.
Qed.

Lemma peek_cons pos c rest :
  drop pos input = c :: rest -> peek input pos = Ok c pos.
Proof.
  intros H. unfold peek. by destruct (drop_cons_lookup _ _ _ H) as [-> _].
Qed.

Lemma peek_nil pos : drop pos input = [] -> peek input pos = Ok NUL pos.
Proof. intros H. unfold peek. by rewrite (drop_nil_lookup _ H). Qed.

Lemma get_cons pos c rest :
  drop pos input = c :: rest -> get input pos = Ok c (S pos).
Proof.
  intros H. unfold get. by destruct (drop_cons_lookup _ _ _ H) as [-> _].
Qed.

Lemma drop_past pos l rest :
  drop pos input = l ++ rest -> drop (pos + length l) input = rest.
Proof.
  intros H. rewrite <- drop_drop, H. by rewrite drop_app_length.
Qed.

Lemma drop_S_cons pos c rest :
  drop pos input = c :: rest -> drop (S pos) input = rest.
Proof. intros H. by destruct (drop_cons_lookup _ _ _ H). Qed.

Lemma compare_at pos len lit :
  pos <= size input ->
  compare input len lit pos =
    Ok (bool_decide (take len (drop pos input) = chars lit)) pos.
Proof.
  intros H. unfold compare.
  destruct (size input <? pos)%nat eqn:E; [|done].
  apply Nat.ltb_lt in E. lia.
Qed.
End CursorFacts.

(** * Termination, cursor bounds and the exceptions that can escape *)

Ltac in_messages :=
  unfold syntax_messages;
  repeat first [apply list_elem_of_here | apply list_elem_of_further].

Lemma sound_weaken {A} sz lo lo' s s' (o : outcome A) :
  sound sz lo' s' o -> lo <= lo' -> (s = true -> s' = true \/ lo < lo') ->
  sound sz lo s o.
Proof.
  destruct o as [a p|e p|]; simpl; [|intuition lia|done].
  intros [H1 H2] Hle Hs. split; [|done].
  destruct s, s'; try lia; destruct (Hs eq_refl); try discriminate; lia.
Qed.

Lemma sound_bind {A B} sz lo s (m : M A) (k : A -> M B) pos :
  sound sz lo false (m pos) ->
  (forall a p, m pos = Ok a p -> sound sz p s (k a p)) ->
  sound sz lo s (bind m k pos).
Proof.
  intros Hm Hk. unfold bind. destruct (m pos) as [a p|e p|] eqn:E; simpl in *.
  - eapply sound_weaken; [apply Hk; reflexivity|lia|auto].
  - done.
  - done.
Qed.

Lemma syntax_error_intro m : m ∈ syntax_messages -> syntax_error (runtime_error m).
Proof. intros H. by exists m. Qed.

Lemma sound_throw {A} sz lo s m :
  lo <= sz -> m ∈ syntax_messages ->
  sound (A := A) sz lo s (throw (runtime_error m) lo).
Proof.
  intros Hlo Hm. simpl. split; [lia|]. left. by apply syntax_error_intro.
Qed.

Lemma stod_throws s e : stod s = inl e -> stod_error e.
Proof.
  unfold stod, stod_error, decimal_to_double.
  destruct (match s with [] => _ | _ => _ end) as [neg s1].
  destruct (take_digits s1 ++ _); [intros [= <-]; by left|].
  destruct (_ =? 0)%Z; [done|].
  destruct (round_decimal 1024 neg _ _); try (intros [= <-]; by right);
    destruct (_ && _); try done; intros [= <-]; by right.
Qed.

Section Soundness.
Variable input : list ascii.
#[local] Abbreviation sz := (size input).

Lemma lookup_size pos c : input !! pos = Some c -> pos < sz.
Proof. apply lookup_lt_Some. Qed.

Lemma get_spec pos :
  pos <= sz ->
  exists c p, get input pos = Ok c p /\ pos <= p <= sz /\
              (c <> NUL -> p = S pos).
Proof.
  intros H. unfold get. destruct (input !! pos) as [c|] eqn:E.
  - apply lookup_size in E. exists c, (S pos). split; [done|]. lia.
  - exists NUL, pos. split; [done|]. split; [lia|]. by intros [].
Qed.

Lemma eqc_true a b : eqc a b = true -> a = b.
Proof. apply Ascii.eqb_eq. Qed.

Lemma parseString_loop_sound n result pos :
  pos <= sz -> sz - pos <= n ->
  sound sz pos false (parseString_loop input n result pos).
Proof.
  revert result pos. induction n as [|n IH]; intros result pos Hpos Hn.
  - simpl. destruct (pos <? sz)%nat eqn:E; [apply Nat.ltb_lt in E; lia|].
    simpl. lia.
  - simpl. destruct (pos <? sz)%nat eqn:E; [|simpl; lia].
    apply Nat.ltb_lt in E.
    unfold get at 1. unfold bind at 1.
    destruct (input !! pos) as [c|] eqn:Ec;
      [|apply lookup_ge_None in Ec; unfold size in *; lia].
    destruct (eqc c dquote); [simpl; lia|].
    destruct (eqc c bslash).
    + apply (sound_weaken _ _ (S pos) _ false); [|lia|done].
      apply sound_bind.
      * destruct (get_spec (S pos)) as (c' & p & -> & Hp & _); [lia|].
        simpl. lia.
      * intros next p Hget.
        destruct (get_spec (S pos)) as (c' & p' & Hg & Hp' & _); [lia|].
        rewrite Hg in Hget. injection Hget as -> ->.
        destruct (_ || _); [apply IH; lia|].
        destruct (eqc next "n"); [apply IH; lia|].
        apply sound_throw; [lia|in_messages].
    + apply (sound_weaken _ _ (S pos) _ false); [|lia|done].
      apply IH; lia.
Qed.

Lemma parseString_sound pos :
  pos <= sz -> sound sz pos true (parseString input pos).
Proof.
  intros Hpos. unfold parseString, bind at 1.
  destruct (get_spec pos Hpos) as (c & p & -> & Hp & Hadv).
  destruct (eqc c dquote) eqn:Ec; simpl negb; cbv iota.
  - apply eqc_true in Ec. subst c.
    rewrite Hadv in * by done.
    apply (sound_weaken _ _ (S pos) _ false); [|lia|intros _; right; lia].
    apply sound_bind.
    + apply parseString_loop_sound; lia.
    + intros a q Hq.
      assert (sound sz (S pos) false (parseString_loop input (sz - S pos) [] (S pos)))
        as Hs by (apply parseString_loop_sound; lia).
      rewrite Hq in Hs. simpl in *. lia.
  - eapply sound_weaken; [apply (sound_throw _ p true); [lia|in_messages]|lia|auto].
Qed.

Lemma scan_step p n pos c :
  input !! pos = Some c -> p c = true ->
  scan input p (S n) pos = scan input p n (S pos).
Proof. intros H1 H2. simpl. by rewrite H1, H2. Qed.

End Soundness.

Section NumberSoundness.
Variable input : list ascii.
#[local] Abbreviation sz := (size input).

Lemma parseNumber_run pos :
  parseNumber input pos =
    let p0 := if eqc (peekc input pos) "-" then pos + 1 else pos in
    let p1 := scan input isdigit (sz - p0) p0 in
    let p2 := if eqc (peekc input p1) "."
              then scan input isdigit (sz - (p1 + 1)) (p1 + 1) else p1 in
    if (sz <? pos)%nat then Throw (out_of_range "basic_string::substr") p2
    else lift (stod (take (p2 - pos) (drop pos input))) p2.
Proof.
  unfold parseNumber, bind, getpos, peek, advance, skipDigits, substr, peekc, ret.
  destruct (eqc (default NUL (input !! pos)) "-"); cbv zeta;
  match goal with |- context [eqc (default NUL (input !! ?p)) "."] =>
    destruct (eqc (default NUL (input !! p)) ".") end;
  destruct (sz <? pos)%nat; reflexivity.
Qed.

Lemma peekc_neq pos c : peekc input pos = c -> c <> NUL -> input !! pos = Some c.
Proof.
  unfold peekc. destruct (input !! pos); simpl; [congruence|].
  intros <-. by intros [].
Qed.

Lemma parseNumber_sound pos c :
  input !! pos = Some c -> isdigit c || eqc c "-" = true ->
  sound sz pos true (parseNumber input pos).
Proof.
  intros Hc Hd. pose proof (lookup_size _ _ _ Hc) as Hlt.
  rewrite parseNumber_run. cbv zeta.
  set (p0 := if eqc (peekc input pos) "-" then pos + 1 else pos).
  set (p1 := scan input isdigit (sz - p0) p0).
  set (p2 := if eqc (peekc input p1) "." then _ else p1).
  assert (pos <= p0 <= sz) as Hp0.
  { subst p0. destruct (eqc (peekc input pos) "-"); lia. }
  assert (p0 <= p1 <= sz) as Hp1.
  { subst p1. split; [apply scan_le|apply scan_bound; lia]. }
  assert (pos < p1) as Hlt1.
  { subst p1 p0. unfold peekc. rewrite Hc. simpl default.
    destruct (eqc c "-").
    - pose proof (scan_le input isdigit (sz - (pos + 1)) (pos + 1)). lia.
    - rewrite orb_false_r in Hd.
      replace (sz - pos) with (S (sz - S pos)) by lia.
      rewrite (scan_step _ _ _ _ c) by done.
      pose proof (scan_le input isdigit (sz - S pos) (S pos)). lia. }
  assert (p1 <= p2 <= sz) as Hp2.
  { subst p2. destruct (eqc (peekc input p1) ".") eqn:E; [|lia].
    apply eqc_true in E. apply peekc_neq in E; [|done].
    apply lookup_size in E.
    split; [|apply scan_bound; lia].
    pose proof (scan_le input isdigit (sz - (p1 + 1)) (p1 + 1)). lia. }
  destruct (sz <? pos)%nat eqn:E; [apply Nat.ltb_lt in E; lia|].
  destruct (stod _) as [e|d] eqn:Es; simpl.
  - split; [lia|]. right. by eapply stod_throws.
  - lia.
Qed.
End NumberSoundness.
Lemma sound_seq {A B} sz lo lo' s1 s (m : M A) (k : A -> M B) pos :
  sound sz lo' s1 (m pos) -> lo <= lo' ->
  (forall a p, m pos = Ok a p -> (if s1 then lo' < p else lo' <= p) -> p <= sz ->
               sound sz lo s (k a p)) ->
  sound sz lo s (bind m k pos).
Proof.
  intros Hm Hle Hk. unfold bind. destruct (m pos) as [a p|e p|]; simpl in *.
  - apply Hk; tauto.
  - split; [lia|tauto].
  - done.
Qed.

Section PrimitiveSoundness.
Variable input : list ascii.
#[local] Abbreviation sz := (size input).

Lemma skipWhitespace_ok pos :
  pos <= sz -> sound sz pos false (skipWhitespace input pos).
Proof.
  intros H. simpl. split; [apply scan_le|by apply scan_bound].
Qed.

Lemma peek_ok pos : pos <= sz -> sound sz pos false (peek input pos).
Proof. intros H. simpl. lia. Qed.

Lemma get_ok pos : pos <= sz -> sound sz pos false (get input pos).
Proof.
  intros H. destruct (get_spec input pos H) as (c & p & -> & Hp & _).
  simpl. lia.
Qed.

Lemma peek_inv pos c p :
  peek input pos = Ok c p -> p = pos /\ (c <> NUL -> input !! pos = Some c).
Proof.
  unfold peek. intros [= <- <-]. split; [done|].
  destruct (input !! pos); simpl; [done|]. by intros [].
Qed.

Lemma get_inv pos c p :
  get input pos = Ok c p -> c <> NUL -> p = S pos /\ input !! pos = Some c.
Proof.
  unfold get. destruct (input !! pos); intros [= <- <-]; [done|].
  by intros [].
Qed.

Lemma compare_ok pos len lit :
  pos <= sz -> sound sz pos false (compare input len lit pos).
Proof. intros H. rewrite compare_at by done. simpl. lia. Qed.

Lemma compare_inv pos len lit p :
  compare input len lit pos = Ok true p ->
  len = length (chars lit) -> p = pos /\ pos + len <= sz.
Proof.
  unfold compare. destruct (_ <? _)%nat eqn:E; [done|].
  apply Nat.ltb_ge in E. intros [= Hb <-] Hlen. split; [done|].
  apply bool_decide_eq_true in Hb.
  apply (f_equal length) in Hb. rewrite length_take, length_drop in Hb.
  unfold size in *. lia.
Qed.
End PrimitiveSoundness.

Tactic Notation "sstep" constr(lem) "as"
    simple_intropattern(a) ident(p) ident(Heq) ident(Hlo) ident(Hhi) :=
  eapply sound_seq; [apply lem; lia|lia|];
  intros a p Heq Hlo Hhi; cbv iota in Hlo.

Section ContainerSoundness.
Variable input : list ascii.
#[local] Abbreviation sz := (size input).
Variable pv : M JSONValue.
Variable lo : nat.
Hypothesis pv_sound : forall p, lo < p -> p <= sz -> sound sz p true (pv p).

Lemma parseArray_loop_sound n arr pos :
  lo < pos -> pos <= sz -> sz - pos < n ->
  sound sz pos true (parseArray_loop input pv n arr pos).
Proof.
  revert arr pos. induction n as [|n IH]; intros arr pos Hlo Hpos Hn; [lia|].
  simpl.
  sstep pv_sound as v p1 Hv Hp1 Hp1'.
  sstep skipWhitespace_ok as ? p2 Hw Hp2 Hp2'.
  sstep peek_ok as c p3 Hc Hp3 Hp3'.
  apply peek_inv in Hc as [-> _].
  destruct (eqc c "]"); [sstep get_ok as c' p4 Hc' Hp4 Hp4'; simpl; lia|].
  sstep get_ok as c' p4 Hc' Hp4 Hp4'.
  destruct (eqc c' ",") eqn:E; simpl negb; cbv iota.
  - apply eqc_true in E. subst c'. apply get_inv in Hc' as [-> _]; [|done].
    eapply sound_weaken; [apply IH; lia|lia|auto].
  - eapply sound_weaken; [apply (sound_throw _ p4 true); [lia|in_messages]|lia|auto].
Qed.

Lemma parseArray_sound pos :
  lo <= pos -> pos <= sz -> sound sz pos true (parseArray input pv pos).
Proof.
  intros Hlo Hpos. unfold parseArray.
  sstep get_ok as c p1 Hc Hp1 Hp1'.
  destruct (eqc c "[") eqn:E; simpl negb; cbv iota.
  - apply eqc_true in E. subst c. apply get_inv in Hc as [-> _]; [|done].
    sstep skipWhitespace_ok as ? p2 Hw Hp2 Hp2'.
    sstep peek_ok as c p3 Hc Hp3 Hp3'.
    apply peek_inv in Hc as [-> _].
    destruct (eqc c "]").
    + sstep get_ok as c' p4 Hc' Hp4 Hp4'. simpl. lia.
    + eapply sound_weaken; [apply parseArray_loop_sound; lia|lia|auto].
  - eapply sound_weaken; [apply (sound_throw _ p1 true); [lia|in_messages]|lia|auto].
Qed.

Lemma parseObject_loop_sound n obj pos :
  lo < pos -> pos <= sz -> sz - pos < n ->
  sound sz pos true (parseObject_loop input pv n obj pos).
Proof.
  revert obj pos. induction n as [|n IH]; intros obj pos Hlo Hpos Hn; [lia|].
  simpl.
  sstep skipWhitespace_ok as ? p0 Hw0 Hp0 Hp0'.
  sstep parseString_sound as key p1 Hk Hp1 Hp1'.
  sstep skipWhitespace_ok as ? p2 Hw Hp2 Hp2'.
  sstep get_ok as c p3 Hc Hp3 Hp3'.
  destruct (eqc c ":") eqn:E; simpl negb; cbv iota.
  - sstep skipWhitespace_ok as ? p4 Hw4 Hp4 Hp4'.
    sstep pv_sound as v p5 Hv Hp5 Hp5'.
    sstep skipWhitespace_ok as ? p6 Hw6 Hp6 Hp6'.
    sstep peek_ok as c1 p7 Hc1 Hp7 Hp7'.
    apply peek_inv in Hc1 as [-> _].
    destruct (eqc c1 "}"); [sstep get_ok as c' p8 Hc' Hp8 Hp8'; simpl; lia|].
    sstep get_ok as c' p8 Hc' Hp8 Hp8'.
    destruct (eqc c' ",") eqn:E'; simpl negb; cbv iota.
    + apply eqc_true in E'. subst c'. apply get_inv in Hc' as [-> _]; [|done].
      eapply sound_weaken; [apply IH; lia|lia|auto].
    + eapply sound_weaken; [apply (sound_throw _ p8 true); [lia|in_messages]|lia|auto].
  - eapply sound_weaken; [apply (sound_throw _ p3 true); [lia|in_messages]|lia|auto].
Qed.

Lemma parseObject_sound pos :
  lo <= pos -> pos <= sz -> sound sz pos true (parseObject input pv pos).
Proof.
  intros Hlo Hpos. unfold parseObject.
  sstep get_ok as c p1 Hc Hp1 Hp1'.
  destruct (eqc c "{") eqn:E; simpl negb; cbv iota.
  - apply eqc_true in E. subst c. apply get_inv in Hc as [-> _]; [|done].
    sstep skipWhitespace_ok as ? p2 Hw Hp2 Hp2'.
    sstep peek_ok as c p3 Hc Hp3 Hp3'.
    apply peek_inv in Hc as [-> _].
    destruct (eqc c "}").
    + sstep get_ok as c' p4 Hc' Hp4 Hp4'. simpl. lia.
    + eapply sound_weaken; [apply parseObject_loop_sound; lia|lia|auto].
  - eapply sound_weaken; [apply (sound_throw _ p1 true); [lia|in_messages]|lia|auto].
Qed.
End ContainerSoundness.
Section ParseSoundness.
Variable input : list ascii.
#[local] Abbreviation sz := (size input).

Lemma parseValue_sound fuel pos :
  pos <= sz -> sz - pos < fuel ->
  sound sz pos true (parseValue input fuel pos).
Proof.
  revert pos. induction fuel as [|fuel IH]; intros pos Hpos Hfuel; [lia|].
  cbn [parseValue].
  sstep skipWhitespace_ok as ? p1 Hw Hp1 Hp1'.
  sstep peek_ok as c p2 Hc Hp2 Hp2'.
  apply peek_inv in Hc as [-> Hlook].
  destruct (eqc c dquote).
  { sstep parseString_sound as s p3 Hs Hp3 Hp3'. simpl. lia. }
  destruct (eqc c "{").
  { eapply sound_seq;
      [apply (parseObject_sound _ _ pos); [intros; apply IH; lia|lia..]|lia|].
    intros o p3 _ Hp3 Hp3'. simpl in *. lia. }
  destruct (eqc c "[").
  { eapply sound_seq;
      [apply (parseArray_sound _ _ pos); [intros; apply IH; lia|lia..]|lia|].
    intros o p3 _ Hp3 Hp3'. simpl in *. lia. }
  destruct (isdigit c || eqc c "-") eqn:Ed.
  { assert (c <> NUL) as Hnul by (intros ->; discriminate Ed).
    eapply sound_seq; [apply (parseNumber_sound _ _ c); auto|lia|].
    intros d p3 _ Hp3 Hp3'. simpl in *. lia. }
  sstep compare_ok as t p3 Ht Hp3 Hp3'.
  destruct t.
  { apply compare_inv in Ht as [-> ?]; [|done].
    unfold bind, advance, ret. simpl. lia. }
  sstep compare_ok as f p4 Hf Hp4 Hp4'.
  destruct f.
  { apply compare_inv in Hf as [-> ?]; [|done].
    unfold bind, advance, ret. simpl. lia. }
  sstep compare_ok as n p5 Hn Hp5 Hp5'.
  destruct n.
  { apply compare_inv in Hn as [-> ?]; [|done].
    unfold bind, advance, ret. simpl. lia. }
  eapply sound_weaken; [apply (sound_throw _ p5 true); [lia|in_messages]|lia|auto].
Qed.

Lemma parse_sound : sound sz 0 true (JSONParser.parse input).
Proof.
  unfold JSONParser.parse.
  sstep skipWhitespace_ok as ? p1 Hw Hp1 Hp1'.
  eapply sound_seq; [apply parseValue_sound; lia|lia|].
  intros v p2 _ Hp2 Hp2'. cbv iota in Hp2.
  sstep skipWhitespace_ok as ? p3 Hw3 Hp3 Hp3'.
  unfold bind, getpos.
  destruct (p3 =? sz)%nat; simpl negb; cbv iota.
  - simpl. lia.
  - eapply sound_weaken; [apply (sound_throw _ p3 true); [lia|in_messages]|lia|auto].
Qed.
End ParseSoundness.
(** * Running the parser on a known prefix *)

Lemma bind_Ok {A B} (m : M A) (k : A -> M B) pos a p :
  m pos = Ok a p -> bind m k pos = k a p.
Proof. intros H. unfold bind. by rewrite H. Qed.

Lemma bind_Throw {A B} (m : M A) (k : A -> M B) pos e p :
  m pos = Throw e p -> bind m k pos = Throw e p.
Proof. intros H. unfold bind. by rewrite H. Qed.

Lemma compare_false input len lit pos :
  pos <= size input -> take len (drop pos input) <> chars lit ->
  compare input len lit pos = Ok false pos.
Proof.
  intros Hpos Hne. rewrite compare_at by done.
  by rewrite bool_decide_eq_false_2.
Qed.

Lemma drop_size (input : list ascii) : drop (size input) input = [].
Proof. apply drop_all. Qed.

Lemma skipWhitespace_all input :
  Forall (fun c => isspace c = true) input ->
  skipWhitespace input 0 = Ok tt (size input).
Proof.
  intros H. rewrite (skipWhitespace_app input input [] 0); [done| |done..].
  by rewrite drop_0, app_nil_r.
Qed.

Lemma skipWhitespace_end input :
  skipWhitespace input (size input) = Ok tt (size input).
Proof.
  apply (skipWhitespace_stay _ []); [apply drop_size|done].
Qed.

Lemma parseValue_at_end input fuel :
  parseValue input (S fuel) (size input) =
    Throw (runtime_error msg_invalid_value) (size input).
Proof.
  cbn [parseValue].
  rewrite (bind_Ok _ _ _ _ _ (skipWhitespace_end input)).
  rewrite (bind_Ok _ _ _ _ _ (peek_nil input _ (drop_size input))).
  replace (eqc NUL dquote) with false by reflexivity.
  replace (eqc NUL "{") with false by reflexivity.
  replace (eqc NUL "[") with false by reflexivity.
  replace (isdigit NUL || eqc NUL "-") with false by reflexivity.
  rewrite (bind_Ok _ _ _ false (size input))
    by (apply compare_false; [done|by rewrite drop_size]).
  rewrite (bind_Ok _ _ _ false (size input))
    by (apply compare_false; [done|by rewrite drop_size]).
  rewrite (bind_Ok _ _ _ false (size input))
    by (apply compare_false; [done|by rewrite drop_size]).
  reflexivity.
Qed.

(** C10. For the empty input and for every input made of whitespace only,
    [parse] raises the "Invalid JSON value" syntax error: it returns no
    value, [Null] or other, when the input holds no value production. *)
Theorem parse_blank_invalid_value (text : string) :
  Forall (fun c => isspace c = true) (chars text) ->
  parse_text text = Raised (runtime_error msg_invalid_value).
Proof.
  intros Hws. unfold parse_text, JSONParser.parse.
  rewrite (bind_Ok _ _ _ _ _ (skipWhitespace_all _ Hws)).
  rewrite (bind_Throw _ _ _ _ _ (parseValue_at_end _ _)).
  reflexivity.
Qed.

Lemma parse_blank_invalid_value_witness :
  Forall (fun c => isspace c = true)
         (chars (String " " (String newline (String "009" EmptyString))))
  /\ parse_text (String " " (String newline (String "009" EmptyString)))
     = Raised (runtime_error msg_invalid_value)
  /\ parse_text EmptyString = Raised (runtime_error msg_invalid_value).
Proof.
  split; [repeat constructor|].
  split; apply parse_blank_invalid_value; repeat constructor.
Defined.

(** C4. When one complete value has been parsed and a character that is not
    whitespace remains, [parse] fails with "Unexpected trailing characters".
    On [truefoo] the keyword match moves the cursor by the four characters of
    [true] without looking at what follows, and the rest is reported as
    trailing. *)
Theorem parse_trailing_characters :
  (forall (text : string) (v : JSONValue) (p i : nat) (c : ascii),
     (skipWhitespace (chars text) >> parseValue (chars text) (S (size (chars text)))) 0
       = Ok v p ->
     p <= i -> chars text !! i = Some c -> isspace c = false ->
     parse_text text = Raised (runtime_error msg_trailing))
  /\ parseValue (chars "truefoo") 8 0 = Ok (JBool true) 4
  /\ parse_text "truefoo" = Raised (runtime_error msg_trailing).
Proof.
  split; [|split; reflexivity].
  intros text v p i c Hv Hle Hi Hc. unfold parse_text, JSONParser.parse.
  set (input := chars text) in *.
  unfold bind at 1. unfold bind at 1 in Hv.
  destruct (skipWhitespace input 0) as [[] p0| |] eqn:E0; try done.
  unfold bind at 1. rewrite Hv.
  unfold bind at 1, skipWhitespace at 1.
  unfold bind, getpos.
  pose proof (scan_stops input isspace (size input - p) p i c Hle Hi Hc).
  apply lookup_size in Hi.
  destruct (_ =? _)%nat eqn:E; [apply Nat.eqb_eq in E; lia|].
  reflexivity.
Qed.

Lemma parse_trailing_characters_witness :
  (skipWhitespace (chars "[1] x") >> parseValue (chars "[1] x") 6) 0
    = Ok (JArray [JNumber (ldexp_Z 1 0)]) 3
  /\ chars "[1] x" !! 4 = Some "x"
  /\ isspace "x" = false
  /\ parse_text "[1] x" = Raised (runtime_error msg_trailing).
Proof.
  split; [reflexivity|]. split; [reflexivity|]. split; [reflexivity|].
  apply (proj1 parse_trailing_characters "[1] x"%string
           (JArray [JNumber (ldexp_Z 1 0)]) 3 4 "x");
    [reflexivity|lia|reflexivity|reflexivity].
Defined.

(** * String bodies *)

Lemma escape_spec c :
  escape c =
    if eqc c dquote || eqc c bslash || eqc c "/" then Some c
    else if eqc c "n" then Some newline else None.
Proof.
  unfold escape, escape_table. simpl.
  destruct (eqc c dquote) eqn:E1; [by apply eqc_true in E1 as ->|].
  destruct (eqc c bslash) eqn:E2; [by apply eqc_true in E2 as ->|].
  destruct (eqc c "/") eqn:E3; [by apply eqc_true in E3 as ->|].
  by destruct (eqc c "n").
Qed.

Section StringFacts.
Variable input : list ascii.
#[local] Abbreviation sz := (size input).

Lemma drop_nil_ge pos : drop pos input = [] -> (pos <? sz)%nat = false.
Proof.
  intros H. apply Nat.ltb_ge. apply drop_nil_lookup in H.
  by apply lookup_ge_None in H.
Qed.

(** One round of the loop on a backslash: the character after it is
    consumed and looked up in the table. *)
Lemma parseString_loop_backslash n result pos c :
  input !! pos = Some bslash -> input !! S pos = Some c ->
  parseString_loop input (S n) result pos =
    match escape c with
    | Some x => parseString_loop input n (result ++ [x]) (S (S pos))
    | None => Throw (runtime_error msg_invalid_escape) (S (S pos))
    end.
Proof.
  intros Hb Hc. cbn [parseString_loop].
  pose proof (lookup_size _ _ _ Hb) as Hlt. apply Nat.ltb_lt in Hlt.
  rewrite Hlt. unfold bind at 1, get at 1. rewrite Hb.
  replace (eqc bslash dquote) with false by reflexivity.
  replace (eqc bslash bslash) with true by reflexivity.
  unfold bind at 1, get at 1. rewrite Hc. rewrite escape_spec.
  destruct (_ || _); [done|]. by destruct (eqc c "n").
Qed.

(** A backslash that ends the input: [get] answers NUL, which is no entry
    of the table. *)
Lemma parseString_loop_backslash_end n result pos :
  input !! pos = Some bslash -> input !! S pos = None ->
  parseString_loop input (S n) result pos =
    Throw (runtime_error msg_invalid_escape) (S pos).
Proof.
  intros Hb Hc. cbn [parseString_loop].
  pose proof (lookup_size _ _ _ Hb) as Hlt. apply Nat.ltb_lt in Hlt.
  rewrite Hlt. unfold bind at 1, get at 1. rewrite Hb.
  replace (eqc bslash dquote) with false by reflexivity.
  replace (eqc bslash bslash) with true by reflexivity.
  unfold bind at 1, get at 1. rewrite Hc. reflexivity.
Qed.

Lemma parseString_loop_plain n result pos c :
  input !! pos = Some c -> eqc c dquote = false -> eqc c bslash = false ->
  parseString_loop input (S n) result pos =
    parseString_loop input n (result ++ [c]) (S pos).
Proof.
  intros Hc H1 H2. cbn [parseString_loop].
  pose proof (lookup_size _ _ _ Hc) as Hlt. apply Nat.ltb_lt in Hlt.
  rewrite Hlt. unfold bind at 1, get at 1. by rewrite Hc, H1, H2.
Qed.

Lemma parseString_loop_quote n result pos :
  input !! pos = Some dquote ->
  parseString_loop input (S n) result pos = Ok result (S pos).
Proof.
  intros Hc. cbn [parseString_loop].
  pose proof (lookup_size _ _ _ Hc) as Hlt. apply Nat.ltb_lt in Hlt.
  rewrite Hlt. unfold bind at 1, get at 1. by rewrite Hc.
Qed.

Lemma parseString_loop_end n result pos :
  drop pos input = [] -> parseString_loop input n result pos = Ok result pos.
Proof.
  intros H. apply drop_nil_ge in H. destruct n; simpl; by rewrite H.
Qed.

End StringFacts.

Lemma decode_body_ind (P : list ascii -> list ascii -> Prop) :
  P [] [] ->
  (forall c rest s,
     eqc c dquote = false -> eqc c bslash = false ->
     decode_body rest = Some s -> P rest s -> P (c :: rest) (c :: s)) ->
  (forall x y rest s,
     escape x = Some y ->
     decode_body rest = Some s -> P rest s -> P (bslash :: x :: rest) (y :: s)) ->
  forall body s, decode_body body = Some s -> P body s.
Proof.
  intros Hnil Hplain Hesc body.
  remember (length body) as k eqn:Hk. revert body Hk.
  induction k as [k IH] using lt_wf_ind. intros body Hk s Hs.
  destruct body as [|c rest]; simpl in Hs.
  - by injection Hs as <-.
  - destruct (eqc c dquote) eqn:E1; [done|].
    destruct (eqc c bslash) eqn:E2.
    + apply eqc_true in E2 as ->. destruct rest as [|x rest']; [done|].
      destruct (escape x) as [y|] eqn:Ex; [|done].
      destruct (decode_body rest') as [s'|] eqn:Es'; [|done].
      simpl in Hs. injection Hs as <-.
      apply Hesc; [done..|]. eapply IH; [|reflexivity|done].
      simpl in Hk. lia.
    + destruct (decode_body rest) as [s'|] eqn:Es'; [|done].
      simpl in Hs. injection Hs as <-.
      apply Hplain; [done..|]. eapply IH; [|reflexivity|done].
      simpl in Hk. lia.
Qed.

Lemma decode_body_length body s :
  decode_body body = Some s -> length s <= length body.
Proof.
  revert body s. apply decode_body_ind; simpl; intros; lia.
Qed.

Section StringRuns.
Variable input : list ascii.

Lemma parseString_loop_body body s :
  decode_body body = Some s ->
  forall rest n result pos,
    drop pos input = body ++ rest ->
    parseString_loop input (length s + n) result pos =
      parseString_loop input n (result ++ s) (pos + length body).
Proof.
  revert body s.
  apply (decode_body_ind (fun body s => forall rest n result pos,
    drop pos input = body ++ rest ->
    parseString_loop input (length s + n) result pos =
      parseString_loop input n (result ++ s) (pos + length body))).
  - intros rest n result pos _. simpl. by rewrite app_nil_r, Nat.add_0_r.
  - intros c body s H1 H2 _ IH rest n result pos Hd. simpl in Hd.
    destruct (drop_cons_lookup _ _ _ _ Hd) as [Hc Hd'].
    cbn [length Nat.add].
    rewrite (parseString_loop_plain _ _ _ _ c) by done.
    rewrite (IH rest) by done.
    rewrite <- app_assoc. simpl. f_equal. lia.
  - intros x y body s Hx _ IH rest n result pos Hd. simpl in Hd.
    destruct (drop_cons_lookup _ _ _ _ Hd) as [Hb Hd'].
    destruct (drop_cons_lookup _ _ _ _ Hd') as [Hc Hd''].
    cbn [length Nat.add].
    rewrite (parseString_loop_backslash _ _ _ _ x) by done.
    rewrite Hx. rewrite (IH rest) by done.
    rewrite <- app_assoc. simpl. f_equal. lia.
Qed.

(** The body runs to the end of the input: the loop leaves on
    [pos < input.size()] and the characters gathered so far are returned. *)
Lemma parseString_open body s pos :
  decode_body body = Some s ->
  drop pos input = dquote :: body ->
  parseString input pos =
    Ok (string_of_list_ascii s) (S pos + length body).
Proof.
  intros Hs Hd. unfold parseString.
  rewrite (bind_Ok _ _ _ _ _ (get_cons _ _ _ _ Hd)).
  replace (eqc dquote dquote) with true by reflexivity. cbn [negb].
  apply drop_S_cons in Hd.
  pose proof (decode_body_length _ _ Hs) as Hlen.
  assert (size input - S pos = length body) as Hsz.
  { pose proof (drop_length_le input (S pos) body []
                  ltac:(by rewrite app_nil_r)) as H.
    simpl in H. lia. }
  erewrite bind_Ok; [reflexivity|]. cbv beta.
  rewrite Hsz. replace (length body) with (length s + (length body - length s)) at 1 by lia.
  rewrite (parseString_loop_body body s Hs []) by (by rewrite app_nil_r).
  rewrite parseString_loop_end; [done|].
  apply (drop_past _ _ body []). by rewrite app_nil_r.
Qed.

(** The body is closed by a quote. *)
Lemma parseString_closed body s rest pos :
  decode_body body = Some s ->
  drop pos input = dquote :: body ++ dquote :: rest ->
  parseString input pos =
    Ok (string_of_list_ascii s) (pos + length body + 2).
Proof.
  intros Hs Hd. unfold parseString.
  rewrite (bind_Ok _ _ _ _ _ (get_cons _ _ _ _ Hd)).
  replace (eqc dquote dquote) with true by reflexivity. cbn [negb].
  apply drop_S_cons in Hd.
  pose proof (decode_body_length _ _ Hs) as Hlen.
  assert (size input - S pos = length body + S (length rest)) as Hsz.
  { pose proof (drop_length_le input (S pos) body (dquote :: rest) Hd).
    simpl in *. lia. }
  erewrite bind_Ok; [reflexivity|]. cbv beta.
  rewrite Hsz.
  replace (length body + S (length rest))
    with (length s + S (length body - length s + length rest)) by lia.
  rewrite (parseString_loop_body body s Hs (dquote :: rest)) by done.
  apply drop_past in Hd.
  destruct (drop_cons_lookup _ _ _ _ Hd) as [Hq _].
  rewrite parseString_loop_quote by done. simpl. f_equal. lia.
Qed.

Lemma parseString_bad_escape body s tail pos :
  decode_body body = Some s -> bad_escape tail ->
  drop pos input = dquote :: body ++ tail ->
  exists p, parseString input pos = Throw (runtime_error msg_invalid_escape) p.
Proof.
  intros Hs Hbad Hd. unfold parseString.
  rewrite (bind_Ok _ _ _ _ _ (get_cons _ _ _ _ Hd)).
  replace (eqc dquote dquote) with true by reflexivity. cbn [negb].
  apply drop_S_cons in Hd.
  pose proof (decode_body_length _ _ Hs) as Hlen.
  pose proof (drop_length_le input (S pos) body tail Hd) as Hsz.
  assert (1 <= length tail) as Htail.
  { destruct Hbad as [->|(c & rest & -> & _)]; simpl; lia. }
  assert (exists p, parseString_loop input (size input - S pos) [] (S pos)
                    = Throw (runtime_error msg_invalid_escape) p) as [p Hp].
  { rewrite <- Hsz.
    replace (length body + length tail)
      with (length s + S (length body - length s + (length tail - 1))) by lia.
    rewrite (parseString_loop_body body s Hs tail) by done.
    apply drop_past in Hd.
    destruct Hbad as [->|(c & rest & -> & Hc)].
    - destruct (drop_cons_lookup _ _ _ _ Hd) as [Hb Hd'].
      apply drop_nil_lookup in Hd'. eexists.
      by rewrite parseString_loop_backslash_end.
    - destruct (drop_cons_lookup _ _ _ _ Hd) as [Hb Hd'].
      destruct (drop_cons_lookup _ _ _ _ Hd') as [Hc' _]. eexists.
      rewrite (parseString_loop_backslash _ _ _ _ c) by done.
      by rewrite Hc. }
  exists p. by erewrite bind_Throw.
Qed.
End StringRuns.
Lemma chars_of_list (l : list ascii) : chars (string_of_list_ascii l) = l.
Proof. apply list_ascii_of_string_of_list_ascii. Qed.

Lemma isspace_dquote : isspace dquote = false.
Proof. reflexivity. Qed.

Section StringDocuments.
Variable input : list ascii.

Lemma parseValue_string fuel pos rest :
  drop pos input = dquote :: rest ->
  parseValue input (S fuel) pos =
    (s <- parseString input ;; ret (JString s)) pos.
Proof.
  intros Hd. cbn [parseValue].
  rewrite (bind_Ok _ _ _ _ _ (skipWhitespace_stay _ _ _ Hd isspace_dquote)).
  rewrite (bind_Ok _ _ _ _ _ (peek_cons _ _ _ _ Hd)).
  reflexivity.
Qed.

(** A document whose first character is not whitespace and whose value
    runs to the end of the input. *)
Lemma parse_whole v c rest :
  input = c :: rest -> isspace c = false ->
  parseValue input (S (size input)) 0 = Ok v (size input) ->
  JSONParser.parse input = Ok v (size input).
Proof.
  intros Hin Hc Hv. unfold JSONParser.parse.
  rewrite (bind_Ok _ _ _ tt 0)
    by (apply (skipWhitespace_stay _ (c :: rest)); [by rewrite drop_0|done]).
  rewrite (bind_Ok _ _ _ _ _ Hv).
  rewrite (bind_Ok _ _ _ _ _ (skipWhitespace_end input)).
  unfold bind, getpos. by rewrite Nat.eqb_refl.
Qed.

Lemma parse_raises e p c rest :
  input = c :: rest -> isspace c = false ->
  parseValue input (S (size input)) 0 = Throw e p ->
  JSONParser.parse input = Throw e p.
Proof.
  intros Hin Hc Hv. unfold JSONParser.parse.
  rewrite (bind_Ok _ _ _ tt 0)
    by (apply (skipWhitespace_stay _ (c :: rest)); [by rewrite drop_0|done]).
  by rewrite (bind_Throw _ _ _ _ _ Hv).
Qed.
End StringDocuments.

(** C5. In a string, a backslash consumes exactly the one character after it
    and maps it through the four-entry table (quote, backslash, slash, [n] to
    newline); any other character after a backslash, or none, fails with
    "Invalid escape sequence". The document quote, backslash, [t], quote
    fails with that error. *)
Theorem string_escape_table :
  (forall input n result pos c,
     input !! pos = Some bslash -> input !! S pos = Some c ->
     parseString_loop input (S n) result pos =
       match escape c with
       | Some x => parseString_loop input n (result ++ [x]) (pos + 2)
       | None => Throw (runtime_error msg_invalid_escape) (pos + 2)
       end)
  /\ (forall body s tail,
        decode_body body = Some s -> bad_escape tail ->
        parse_text (string_of_list_ascii (dquote :: body ++ tail))
          = Raised (runtime_error msg_invalid_escape))
  /\ parse_text (String dquote (String bslash (String "t" (String dquote EmptyString))))
       = Raised (runtime_error msg_invalid_escape)
  /\ parse_text (String "[" (String dquote (String bslash (String "t"
                   (String dquote (String "]" EmptyString))))))
       = Raised (runtime_error msg_invalid_escape).
Proof.
  split; [|split; [|split]].
  - intros input n result pos c Hb Hc.
    rewrite (parseString_loop_backslash _ _ _ _ c) by done.
    by replace (pos + 2) with (S (S pos)) by lia.
  - intros body s tail Hs Hbad. unfold parse_text. rewrite chars_of_list.
    set (input := dquote :: body ++ tail).
    destruct (parseString_bad_escape input body s tail 0 Hs Hbad) as [p Hp];
      [by rewrite drop_0|].
    erewrite parse_raises; [reflexivity..|].
    rewrite (parseValue_string _ _ _ (body ++ tail)) by (by rewrite drop_0).
    by rewrite (bind_Throw _ _ _ _ _ Hp).
  - reflexivity.
  - reflexivity.
Qed.

Lemma string_escape_table_witness :
  (chars "a\b") !! 1 = Some bslash /\ (chars "a\b") !! 2 = Some "b"%char
  /\ parseString_loop (chars "a\b") 3 [] 1
       = Throw (runtime_error msg_invalid_escape) 3
  /\ decode_body (chars "ab\n") = Some ["a"; "b"; newline]%char
  /\ bad_escape (chars "\u0041")
  /\ parse_text (string_of_list_ascii (dquote :: chars "ab\n" ++ chars "\u0041"))
       = Raised (runtime_error msg_invalid_escape).
Proof.
  assert (bad_escape (chars "\u0041")) as Hbad
    by (right; by exists "u"%char, (chars "0041")).
  split; [reflexivity|]. split; [reflexivity|].
  split; [exact (proj1 string_escape_table (chars "a\b") 2 [] 1 "b"%char
                   eq_refl eq_refl)|].
  split; [reflexivity|]. split; [exact Hbad|].
  exact (proj1 (proj2 string_escape_table) (chars "ab\n")
           ["a"; "b"; newline]%char (chars "\u0041") eq_refl Hbad).
Defined.

(** C7. A string opened by a quote and cut short by the end of the input,
    with only valid escapes on the way, raises no error: [parseString]
    returns the characters gathered up to the end of the input, and when the
    string is the whole document [parse] returns that [String]. *)
Theorem unterminated_string_returned (body s : list ascii) :
  decode_body body = Some s ->
  parseString (dquote :: body) 0
    = Ok (string_of_list_ascii s) (length (dquote :: body))
  /\ parse_text (string_of_list_ascii (dquote :: body))
     = Returned (JString (string_of_list_ascii s)).
Proof.
  intros Hs.
  assert (parseString (dquote :: body) 0
          = Ok (string_of_list_ascii s) (length (dquote :: body))) as Hp.
  { rewrite (parseString_open _ body s 0 Hs); [done|by rewrite drop_0]. }
  split; [done|].
  unfold parse_text. rewrite chars_of_list.
  erewrite parse_whole; [reflexivity..|].
  rewrite (parseValue_string _ _ _ body) by (by rewrite drop_0).
  by rewrite (bind_Ok _ _ _ _ _ Hp).
Qed.

Lemma unterminated_string_returned_witness :
  decode_body (chars "ab\n c") = Some (chars "ab" ++ newline :: chars " c")
  /\ parse_text (string_of_list_ascii (dquote :: chars "ab\n c"))
     = Returned (JString (string_of_list_ascii (chars "ab" ++ newline :: chars " c"))).
Proof.
  split; [reflexivity|].
  apply (unterminated_string_returned (chars "ab\n c")). reflexivity.
Defined.
(** * Induction over value trees *)

Lemma depth_array_elem a x : x ∈ a -> depth x < depth (JArray a).
Proof.
  intros Hx. simpl. apply Nat.lt_succ_r.
  induction Hx as [x a|x y a _ IH]; simpl; lia.
Qed.

Lemma depth_map_bound (o : gmap string JSONValue) (B : nat) :
  map_Forall (fun _ x => depth x <= B) o ->
  map_fold (fun _ x n => depth x `max` n) 0 o <= B.
Proof.
  intros H. revert H.
  apply (map_fold_weak_ind (fun r m =>
    map_Forall (fun _ x => depth x <= B) m -> r <= B)).
  - lia.
  - intros k x m r Hk IH Hall.
    apply map_Forall_insert in Hall as [Hx Hm]; [|done].
    specialize (IH Hm). lia.
Qed.

Lemma depth_object_elem (o : gmap string JSONValue) k x :
  o !! k = Some x -> depth x < depth (JObject o).
Proof.
  intros Hk. simpl. apply Nat.lt_succ_r. revert Hk.
  apply (map_fold_weak_ind (fun r m => m !! k = Some x -> depth x <= r)).
  - by rewrite lookup_empty.
  - intros i y m r Hi IH Hl.
    destruct (decide (i = k)) as [->|Hne].
    + rewrite lookup_insert_eq in Hl. injection Hl as ->. lia.
    + rewrite lookup_insert_ne in Hl by done. specialize (IH Hl). lia.
Qed.

Lemma JSONValue_tree_ind (P : JSONValue -> Prop) :
  P JNull ->
  (forall b, P (JBool b)) ->
  (forall d, P (JNumber d)) ->
  (forall s, P (JString s)) ->
  (forall a, Forall P a -> P (JArray a)) ->
  (forall o, map_Forall (fun _ x => P x) o -> P (JObject o)) ->
  forall v, P v.
Proof.
  intros Hnull Hbool Hnum Hstr Harr Hobj v.
  remember (depth v) as k eqn:Hk. revert v Hk.
  induction k as [k IH] using lt_wf_ind. intros v ->.
  destruct v as [|b|d|s|a|o]; auto.
  - apply Harr. apply Forall_forall. intros x Hx.
    apply (IH (depth x)); [|done]. by apply depth_array_elem.
  - apply Hobj. intros i x Hi.
    apply (IH (depth x)); [|done]. by eapply depth_object_elem.
Qed.
(** * Number tokens *)

Lemma digit_facts c :
  isdigit c = true ->
  isspace c = false /\ eqc c dquote = false /\ eqc c "{" = false /\
  eqc c "[" = false /\ eqc c "-" = false /\ eqc c "." = false /\
  eqc c "]" = false.
Proof.
  intros H.
  destruct c as [[] [] [] [] [] [] [] []]; vm_compute in H; try discriminate H;
    repeat split; reflexivity.
Qed.

Section NumberRuns.
Variable input : list ascii.

Lemma peekc_cons pos c rest : drop pos input = c :: rest -> peekc input pos = c.
Proof.
  intros H. unfold peekc. by destruct (drop_cons_lookup _ _ _ _ H) as [-> _].
Qed.

Lemma peekc_stops p pos rest :
  drop pos input = rest -> stops p rest -> p NUL = false ->
  p (peekc input pos) = false.
Proof.
  intros Hd Hst Hnul. destruct rest as [|c rest].
  - unfold peekc. by rewrite (drop_nil_lookup _ _ Hd).
  - by rewrite (peekc_cons _ _ _ Hd).
Qed.

Lemma parseNumber_token pos t rest :
  wf_token t -> ends_token t rest ->
  drop pos input = token t ++ rest ->
  parseNumber input pos = lift (stod (token t)) (pos + length (token t)).
Proof.
  intros (Hint & Hfrac & Hhead) [Hend Hpoint] Hd.
  destruct t as [neg ip frac]; unfold token in *; simpl in *.
  rewrite parseNumber_run. cbv zeta.
  set (sign := if neg then ["-"%char] else []) in *.
  set (ftxt := match frac with Some fp => "."%char :: fp | None => [] end) in *.
  assert (stops isdigit (ftxt ++ rest)) as Hst1.
  { subst ftxt. destruct frac; [done|]. done. }
  assert ((if eqc (peekc input pos) "-" then pos + 1 else pos)
          = pos + length sign) as ->.
  { subst sign. destruct neg; simpl in *.
    - by rewrite (peekc_cons _ _ _ Hd).
    - destruct Hhead as [|Hne]; [done|]. destruct ip as [|c ip]; [done|].
      rewrite (peekc_cons _ _ _ Hd).
      inversion Hint as [|? ? Hc _]; subst.
      destruct (digit_facts _ Hc) as (_ & _ & _ & _ & -> & _). lia. }
  assert (drop (pos + length sign) input = ip ++ ftxt ++ rest) as Hd1.
  { apply drop_past. by rewrite <- !app_assoc in Hd. }
  rewrite (scan_app input isdigit ip (ftxt ++ rest)); [|done..|].
  2: { pose proof (drop_length_le _ _ _ _ Hd1). lia. }
  assert (drop (pos + length sign + length ip) input = ftxt ++ rest) as Hd2
    by (by apply drop_past).
  set (p1 := pos + length sign + length ip) in *.
  assert ((if eqc (peekc input p1) "."
           then scan input isdigit (size input - (p1 + 1)) (p1 + 1) else p1)
          = p1 + length ftxt) as ->.
  { subst ftxt. destruct frac as [fp|]; simpl in *.
    - rewrite (peekc_cons _ _ _ Hd2).
      replace (eqc "." ".") with true by reflexivity.
      apply drop_S_cons in Hd2. replace (p1 + 1) with (S p1) by lia.
      rewrite (scan_app input isdigit fp rest); [lia|done|by apply Hfrac|done|].
      pose proof (drop_length_le _ _ _ _ Hd2). lia.
    - rewrite (peekc_stops (fun c => eqc c ".") p1 rest); [lia|done| |done].
      by apply Hpoint. }
  assert (pos <= size input) as Hle.
  { destruct (decide (pos <= size input)); [done|].
    rewrite drop_ge in Hd by (unfold size in *; lia).
    symmetry in Hd. apply app_eq_nil in Hd as [Hd _].
    apply app_eq_nil in Hd as [Hs Hd]. apply app_eq_nil in Hd as [Hi _].
    subst sign. destruct neg; [done|]. by destruct Hhead. }
  apply Nat.ltb_ge in Hle. rewrite Hle.
  replace (p1 + length ftxt - pos) with (length (sign ++ ip ++ ftxt))
    by (rewrite !length_app; lia).
  rewrite Hd, !app_assoc, take_app_length, <- !app_assoc.
  f_equal. rewrite !length_app. lia.
Qed.
End NumberRuns.
(** * Reading laid-out containers *)

Lemma space_facts c :
  isspace c = true ->
  isdigit c = false /\ eqc c "." = false /\ eqc c "]" = false /\
  eqc c "}" = false /\ eqc c "," = false /\ eqc c ":" = false /\
  eqc c dquote = false.
Proof.
  intros H.
  destruct c as [[] [] [] [] [] [] [] []]; vm_compute in H; try discriminate H;
    repeat split; reflexivity.
Qed.

Lemma delimited_after ws c rest :
  all_space ws -> isdigit c = false -> eqc c "." = false ->
  delimited (ws ++ c :: rest).
Proof.
  intros Hws H1 H2. destruct ws as [|w ws]; [done|].
  inversion Hws as [|? ? Hw _]; subst.
  destruct (space_facts _ Hw) as (? & ? & _). done.
Qed.

Ltac len_simp := repeat first [rewrite !length_app | progress cbn [length]].

Section Reading.
Variable input : list ascii.
Variable pv : M JSONValue.

Lemma items_text_length its : length its <= length (items_text its).
Proof.
  induction its as [|it its IH]; simpl; [lia|].
  rewrite !length_app. destruct its; simpl in *; lia.
Qed.

Lemma parseArray_loop_items its :
  its <> [] -> Forall (item_ok input pv) its ->
  forall n arr pos rest,
    length its <= n ->
    drop pos input = items_text its ++ rest ->
    parseArray_loop input pv n arr pos =
      Ok (arr ++ map i_val its) (pos + length (items_text its)).
Proof.
  induction its as [|it its IH]; [done|]. intros _ Hok n arr pos rest Hn Hd.
  inversion Hok as [|? ? (Hlead & Htrail & Hreads) Hok']; subst.
  destruct n as [|n]; [simpl in Hn; lia|]. cbn [parseArray_loop].
  destruct its as [|it' its].
  - (* the last element *)
    simpl in Hd. rewrite <- !app_assoc in Hd.
    rewrite (bind_Ok _ _ _ _ _
      (Hreads pos (i_lead it) (i_trail it ++ "]" :: rest) Hlead
         ltac:(by apply delimited_after) Hd)).
    assert (drop (pos + length (i_lead it) + length (i_text it)) input
            = i_trail it ++ "]" :: rest) as Hd1.
    { rewrite <- Nat.add_assoc, <- length_app. apply drop_past.
      by rewrite <- app_assoc. }
    rewrite (bind_Ok _ _ _ _ _
      (skipWhitespace_app _ _ _ _ Hd1 Htrail ltac:(done))).
    apply drop_past in Hd1.
    rewrite (bind_Ok _ _ _ _ _ (peek_cons _ _ _ _ Hd1)).
    replace (eqc "]" "]") with true by reflexivity.
    rewrite (bind_Ok _ _ _ _ _ (get_cons _ _ _ _ Hd1)).
    unfold ret. simpl. f_equal. rewrite !length_app. simpl. lia.
  - (* an element followed by a comma *)
    cbn [items_text] in Hd. rewrite <- !app_assoc in Hd.
    rewrite (bind_Ok _ _ _ _ _
      (Hreads pos (i_lead it)
         (i_trail it ++ "," :: items_text (it' :: its) ++ rest) Hlead
         ltac:(by apply delimited_after) Hd)).
    assert (drop (pos + length (i_lead it) + length (i_text it)) input
            = i_trail it ++ "," :: items_text (it' :: its) ++ rest) as Hd1.
    { rewrite <- Nat.add_assoc, <- length_app. apply drop_past.
      by rewrite <- app_assoc. }
    rewrite (bind_Ok _ _ _ _ _
      (skipWhitespace_app _ _ _ _ Hd1 Htrail ltac:(done))).
    apply drop_past in Hd1.
    rewrite (bind_Ok _ _ _ _ _ (peek_cons _ _ _ _ Hd1)).
    replace (eqc "," "]") with false by reflexivity.
    rewrite (bind_Ok _ _ _ _ _ (get_cons _ _ _ _ Hd1)).
    replace (eqc "," ",") with true by reflexivity. cbn [negb].
    apply drop_S_cons in Hd1.
    rewrite (IH ltac:(done) Hok' n _ _ rest ltac:(simpl in *; lia) Hd1).
    f_equal.
    + by rewrite <- app_assoc.
    + change (items_text (it :: it' :: its))
        with (i_lead it ++ i_text it ++ i_trail it ++
              "," :: items_text (it' :: its)).
      rewrite !length_app. cbn [length]. lia.
Qed.

Lemma parseArray_empty ws0 pos rest :
  all_space ws0 ->
  drop pos input = "[" :: ws0 ++ "]" :: rest ->
  parseArray input pv pos = Ok [] (pos + length ws0 + 2).
Proof.
  intros Hws Hd. unfold parseArray.
  rewrite (bind_Ok _ _ _ _ _ (get_cons _ _ _ _ Hd)).
  replace (eqc "[" "[") with true by reflexivity. cbn [negb].
  apply drop_S_cons in Hd.
  rewrite (bind_Ok _ _ _ _ _ (skipWhitespace_app _ _ _ _ Hd Hws ltac:(done))).
  apply drop_past in Hd.
  rewrite (bind_Ok _ _ _ _ _ (peek_cons _ _ _ _ Hd)).
  replace (eqc "]" "]") with true by reflexivity.
  rewrite (bind_Ok _ _ _ _ _ (get_cons _ _ _ _ Hd)).
  unfold ret. f_equal. lia.
Qed.

Lemma parseArray_items it its pos rest :
  Forall (item_ok input pv) (it :: its) ->
  (exists c t, i_text it = c :: t /\ isspace c = false /\ eqc c "]" = false) ->
  drop pos input = "[" :: items_text (it :: its) ++ rest ->
  parseArray input pv pos =
    Ok (map i_val (it :: its)) (pos + 1 + length (items_text (it :: its))).
Proof.
  intros Hok (c & t & Htext & Hc & Hc') Hd. unfold parseArray.
  rewrite (bind_Ok _ _ _ _ _ (get_cons _ _ _ _ Hd)).
  replace (eqc "[" "[") with true by reflexivity. cbn [negb].
  apply drop_S_cons in Hd.
  set (it0 := {| i_lead := []; i_text := i_text it; i_val := i_val it;
                 i_trail := i_trail it |}).
  assert (items_text (it :: its) = i_lead it ++ items_text (it0 :: its)) as Heq
    by done.
  rewrite Heq, <- app_assoc in Hd.
  inversion Hok as [|? ? (Hlead & Htrail & Hreads) Hok']; subst.
  assert (stops isspace (items_text (it0 :: its) ++ rest)) as Hst
    by (cbn [items_text it0 i_lead i_text]; by rewrite Htext).
  rewrite (bind_Ok _ _ _ _ _ (skipWhitespace_app _ _ _ _ Hd Hlead Hst)).
  apply drop_past in Hd.
  assert (peek input (S pos + length (i_lead it))
          = Ok c (S pos + length (i_lead it))) as Hpeek.
  { eapply peek_cons. rewrite Hd. cbn [items_text it0 i_lead i_text].
    rewrite Htext. reflexivity. }
  rewrite (bind_Ok _ _ _ _ _ Hpeek). rewrite Hc'.
  assert (Forall (item_ok input pv) (it0 :: its)) as Hok0.
  { constructor; [|done]. split; [constructor|]. by split. }
  rewrite (parseArray_loop_items (it0 :: its) ltac:(done) Hok0 _ [] _ rest);
    [|..|exact Hd].
  - f_equal. rewrite Heq, length_app. lia.
  - pose proof (items_text_length (it0 :: its)).
    pose proof (drop_length_le _ _ _ _ Hd). lia.
Qed.

Lemma members_text_length ms : length ms <= length (members_text ms).
Proof.
  induction ms as [|m ms IH]; simpl; [lia|].
  rewrite !length_app. destruct ms; simpl in *; lia.
Qed.

Lemma parseObject_loop_members ms :
  ms <> [] -> Forall (member_ok input pv) ms ->
  forall n obj pos rest,
    length ms <= n ->
    drop pos input = members_text ms ++ rest ->
    parseObject_loop input pv n obj pos =
      Ok (insert_members obj ms) (pos + length (members_text ms)).
Proof.
  induction ms as [|m ms IH]; [done|]. intros _ Hok n obj pos rest Hn Hd.
  inversion Hok as [|? ? (Hlead & Hkey & Hg1 & Hg2 & Hhead & Hreads & Htrail) Hok'];
    subst.
  destruct n as [|n]; [simpl in Hn; lia|]. cbn [parseObject_loop].
  set (sep := match ms with [] => ["}"%char] | _ => ","%char :: members_text ms end).
  assert (members_text (m :: ms) = member_text m ++ sep) as Heq by done.
  assert (exists c tl, sep ++ rest = c :: tl /\ (c = "}" \/ c = ",")%char)
    as (c & tl & Hsep & Hc).
  { subst sep. destruct ms; simpl; eauto. }
  assert (isspace c = false /\ isdigit c = false /\ eqc c "." = false)
    as (Hc1 & Hc2 & Hc3) by (by destruct Hc as [->| ->]).
  rewrite Heq in Hd. unfold member_text in Hd.
  rewrite <- !app_assoc in Hd. cbn [app] in Hd.
  repeat (rewrite <- !app_assoc in Hd; cbn [app] in Hd).
  rewrite Hsep in Hd.
  (* the key *)
  rewrite (bind_Ok _ _ _ _ _ (skipWhitespace_app _ _ _ _ Hd Hlead isspace_dquote)).
  apply drop_past in Hd.
  rewrite (bind_Ok _ _ _ _ _ (parseString_closed _ _ _ _ _ Hkey Hd)).
  assert (drop (pos + length (m_lead m) + length (m_keytext m) + 2) input
          = m_gap1 m ++ ":" :: m_gap2 m ++ m_text m ++ m_trail m ++ c :: tl)
    as Hd1.
  { replace (pos + length (m_lead m) + length (m_keytext m) + 2)
      with (pos + length (m_lead m) + length (dquote :: m_keytext m ++ [dquote]))
      by (simpl; rewrite length_app; simpl; lia).
    apply drop_past. rewrite Hd. simpl. by rewrite <- app_assoc. }
  clear Hd.
  (* the colon *)
  rewrite (bind_Ok _ _ _ _ _ (skipWhitespace_app _ _ _ _ Hd1 Hg1 ltac:(done))).
  apply drop_past in Hd1.
  rewrite (bind_Ok _ _ _ _ _ (get_cons _ _ _ _ Hd1)).
  replace (eqc ":" ":") with true by reflexivity. cbn [negb].
  apply drop_S_cons in Hd1.
  (* the value *)
  destruct Hhead as (h & t & Htext & Hh).
  assert (stops isspace (m_text m ++ m_trail m ++ c :: tl)) as Hst
    by (by rewrite Htext).
  rewrite (bind_Ok _ _ _ _ _ (skipWhitespace_app _ _ _ _ Hd1 Hg2 Hst)).
  apply drop_past in Hd1.
  rewrite (bind_Ok _ _ _ _ _
    (Hreads _ [] (m_trail m ++ c :: tl) ltac:(constructor)
       ltac:(by apply delimited_after) Hd1)).
  cbn [length]. rewrite Nat.add_0_r.
  apply drop_past in Hd1.
  rewrite (bind_Ok _ _ _ _ _ (skipWhitespace_app _ _ _ _ Hd1 Htrail Hc1)).
  apply drop_past in Hd1.
  rewrite (bind_Ok _ _ _ _ _ (peek_cons _ _ _ _ Hd1)).
  assert (forall p, p = pos + length (m_lead m) + length (m_keytext m) + 2 +
                        length (m_gap1 m) ->
                    S p + length (m_gap2 m) + length (m_text m) +
                      length (m_trail m) = pos + length (member_text m)) as Hp.
  { intros p ->. unfold member_text. len_simp. lia. }
  rewrite (Hp _ eq_refl) in *. clear Hp.
  destruct ms as [|m' ms].
  - (* the last member *)
    simpl in Hsep. injection Hsep as <- <-.
    replace (eqc "}" "}") with true by reflexivity.
    rewrite (bind_Ok _ _ _ _ _ (get_cons _ _ _ _ Hd1)).
    unfold ret. f_equal. rewrite Heq, length_app. simpl. lia.
  - (* a member followed by a comma *)
    subst sep. cbn [app] in Hsep. injection Hsep as <- <-.
    replace (eqc "," "}") with false by reflexivity.
    rewrite (bind_Ok _ _ _ _ _ (get_cons _ _ _ _ Hd1)).
    replace (eqc "," ",") with true by reflexivity. cbn [negb].
    apply drop_S_cons in Hd1.
    rewrite (IH ltac:(done) Hok' n _ _ rest ltac:(simpl in *; lia) Hd1).
    f_equal. rewrite Heq, length_app. cbn [length]. lia.
Qed.

Lemma parseObject_empty ws0 pos rest :
  all_space ws0 ->
  drop pos input = "{" :: ws0 ++ "}" :: rest ->
  parseObject input pv pos = Ok ∅ (pos + length ws0 + 2).
Proof.
  intros Hws Hd. unfold parseObject.
  rewrite (bind_Ok _ _ _ _ _ (get_cons _ _ _ _ Hd)).
  replace (eqc "{" "{") with true by reflexivity. cbn [negb].
  apply drop_S_cons in Hd.
  rewrite (bind_Ok _ _ _ _ _ (skipWhitespace_app _ _ _ _ Hd Hws ltac:(done))).
  apply drop_past in Hd.
  rewrite (bind_Ok _ _ _ _ _ (peek_cons _ _ _ _ Hd)).
  replace (eqc "}" "}") with true by reflexivity.
  rewrite (bind_Ok _ _ _ _ _ (get_cons _ _ _ _ Hd)).
  unfold ret. f_equal. lia.
Qed.

Lemma parseObject_members m ms pos rest :
  Forall (member_ok input pv) (m :: ms) ->
  drop pos input = "{" :: members_text (m :: ms) ++ rest ->
  parseObject input pv pos =
    Ok (insert_members ∅ (m :: ms))
       (pos + 1 + length (members_text (m :: ms))).
Proof.
  intros Hok Hd. unfold parseObject.
  rewrite (bind_Ok _ _ _ _ _ (get_cons _ _ _ _ Hd)).
  replace (eqc "{" "{") with true by reflexivity. cbn [negb].
  apply drop_S_cons in Hd.
  set (m0 := {| m_lead := []; m_keytext := m_keytext m; m_key := m_key m;
                m_gap1 := m_gap1 m; m_gap2 := m_gap2 m; m_text := m_text m;
                m_val := m_val m; m_trail := m_trail m |}).
  assert (members_text (m :: ms) = m_lead m ++ members_text (m0 :: ms)) as Heq.
  { subst m0. cbn [members_text]. unfold member_text.
    cbn [m_lead m_keytext m_gap1 m_gap2 m_text m_trail app].
    by rewrite <- (app_assoc (m_lead m)). }
  rewrite Heq, <- app_assoc in Hd.
  inversion Hok as [|? ? (Hlead & Hrest) Hok']; subst.
  assert (exists tl, members_text (m0 :: ms) ++ rest = dquote :: tl) as [tl Htl].
  { subst m0. cbn [members_text]. unfold member_text. cbn [m_lead app]. eauto. }
  assert (stops isspace (members_text (m0 :: ms) ++ rest)) as Hst
    by (by rewrite Htl).
  rewrite (bind_Ok _ _ _ _ _ (skipWhitespace_app _ _ _ _ Hd Hlead Hst)).
  apply drop_past in Hd.
  assert (peek input (S pos + length (m_lead m))
          = Ok dquote (S pos + length (m_lead m))) as Hpeek.
  { eapply peek_cons. rewrite Hd. exact Htl. }
  rewrite (bind_Ok _ _ _ _ _ Hpeek).
  replace (eqc dquote "}") with false by reflexivity.
  assert (Forall (member_ok input pv) (m0 :: ms)) as Hok0.
  { constructor; [|done]. split; [constructor|]. done. }
  rewrite (parseObject_loop_members (m0 :: ms) ltac:(done) Hok0 _ ∅ _ rest);
    [|..|exact Hd].
  - f_equal. rewrite Heq, length_app. lia.
  - pose proof (members_text_length (m0 :: ms)).
    pose proof (drop_length_le _ _ _ _ Hd). lia.
Qed.
End Reading.
(** * Reading scalars *)

Section Scalars.
Variable input : list ascii.

Lemma drop_cons_le pos c rest :
  drop pos input = c :: rest -> pos <= size input.
Proof.
  intros H. destruct (drop_cons_lookup _ _ _ _ H) as [Hc _].
  apply lookup_size in Hc. lia.
Qed.

Lemma compare_true len lit pos c t rest :
  chars lit = c :: t -> len = length (chars lit) ->
  drop pos input = chars lit ++ rest ->
  compare input len lit pos = Ok true pos.
Proof.
  intros Hlit -> Hd. rewrite compare_at.
  - by rewrite Hd, take_app_length, bool_decide_eq_true_2.
  - rewrite Hlit in Hd. by eapply drop_cons_le.
Qed.

Lemma compare_head len lit pos c c' t rest :
  chars lit = c' :: t -> c <> c' -> len <> 0 ->
  drop pos input = c :: rest ->
  compare input len lit pos = Ok false pos.
Proof.
  intros Hlit Hne Hlen Hd. apply compare_false.
  - by eapply drop_cons_le.
  - rewrite Hd, Hlit. destruct len; [done|]. simpl. congruence.
Qed.

(** Whitespace before a value is skipped by [parseValue] itself. *)
Lemma parseValue_ws fuel pos ws rest :
  all_space ws -> stops isspace rest ->
  drop pos input = ws ++ rest ->
  parseValue input fuel pos = parseValue input fuel (pos + length ws).
Proof.
  intros Hws Hst Hd. destruct fuel as [|fuel]; [done|]. cbn [parseValue].
  rewrite (bind_Ok _ _ _ _ _ (skipWhitespace_app _ _ _ _ Hd Hws Hst)).
  apply drop_past in Hd.
  by rewrite (bind_Ok _ _ _ _ _ (skipWhitespace_stay _ _ _ Hd Hst)).
Qed.

Lemma parseValue_null fuel pos rest :
  drop pos input = chars "null" ++ rest ->
  parseValue input (S fuel) pos = Ok JNull (pos + 4).
Proof.
  intros Hd. cbn [parseValue].
  rewrite (bind_Ok _ _ _ _ _ (skipWhitespace_stay _ _ _ Hd ltac:(done))).
  rewrite (bind_Ok _ _ _ _ _ (peek_cons _ _ _ _ Hd)).
  replace (eqc "n" dquote) with false by reflexivity.
  replace (eqc "n" "{") with false by reflexivity.
  replace (eqc "n" "[") with false by reflexivity.
  replace (isdigit "n" || eqc "n" "-") with false by reflexivity.
  rewrite (bind_Ok _ _ _ _ _
    (compare_head 4 "true" pos "n" "t" (chars "rue") _ eq_refl
       ltac:(done) ltac:(done) Hd)).
  rewrite (bind_Ok _ _ _ _ _
    (compare_head 5 "false" pos "n" "f" (chars "alse") _ eq_refl
       ltac:(done) ltac:(done) Hd)).
  rewrite (bind_Ok _ _ _ _ _
    (compare_true 4 "null" pos "n" (chars "ull") rest eq_refl eq_refl Hd)).
  reflexivity.
Qed.

Lemma parseValue_true fuel pos rest :
  drop pos input = chars "true" ++ rest ->
  parseValue input (S fuel) pos = Ok (JBool true) (pos + 4).
Proof.
  intros Hd. cbn [parseValue].
  rewrite (bind_Ok _ _ _ _ _ (skipWhitespace_stay _ _ _ Hd ltac:(done))).
  rewrite (bind_Ok _ _ _ _ _ (peek_cons _ _ _ _ Hd)).
  replace (eqc "t" dquote) with false by reflexivity.
  replace (eqc "t" "{") with false by reflexivity.
  replace (eqc "t" "[") with false by reflexivity.
  replace (isdigit "t" || eqc "t" "-") with false by reflexivity.
  rewrite (bind_Ok _ _ _ _ _
    (compare_true 4 "true" pos "t" (chars "rue") rest eq_refl eq_refl Hd)).
  reflexivity.
Qed.

Lemma parseValue_false fuel pos rest :
  drop pos input = chars "false" ++ rest ->
  parseValue input (S fuel) pos = Ok (JBool false) (pos + 5).
Proof.
  intros Hd. cbn [parseValue].
  rewrite (bind_Ok _ _ _ _ _ (skipWhitespace_stay _ _ _ Hd ltac:(done))).
  rewrite (bind_Ok _ _ _ _ _ (peek_cons _ _ _ _ Hd)).
  replace (eqc "f" dquote) with false by reflexivity.
  replace (eqc "f" "{") with false by reflexivity.
  replace (eqc "f" "[") with false by reflexivity.
  replace (isdigit "f" || eqc "f" "-") with false by reflexivity.
  rewrite (bind_Ok _ _ _ _ _
    (compare_head 4 "true" pos "f" "t" (chars "rue") _ eq_refl
       ltac:(done) ltac:(done) Hd)).
  rewrite (bind_Ok _ _ _ _ _
    (compare_true 5 "false" pos "f" (chars "alse") rest eq_refl eq_refl Hd)).
  reflexivity.
Qed.

Lemma token_head t :
  wf_token t ->
  exists c tl, token t = c :: tl /\ (isdigit c || eqc c "-" = true) /\
               isspace c = false /\ eqc c dquote = false /\
               eqc c "{" = false /\ eqc c "[" = false /\ eqc c "]" = false.
Proof.
  intros (Hint & _ & Hhead). destruct t as [neg ip frac]; simpl in *.
  unfold token; simpl. destruct neg.
  - eexists _, _. split; [reflexivity|]. by repeat split.
  - destruct Hhead as [|Hne]; [done|]. destruct ip as [|c ip]; [done|].
    inversion Hint as [|? ? Hc _]; subst.
    destruct (digit_facts _ Hc) as (? & ? & ? & ? & ? & ? & ?).
    eexists _, _. split; [reflexivity|]. rewrite Hc. by repeat split.
Qed.

Lemma parseValue_number fuel pos t rest :
  wf_token t -> ends_token t rest ->
  drop pos input = token t ++ rest ->
  parseValue input (S fuel) pos =
    match stod (token t) with
    | inr d => Ok (JNumber d) (pos + length (token t))
    | inl e => Throw e (pos + length (token t))
    end.
Proof.
  intros Hwf Hend Hd. cbn [parseValue].
  destruct (token_head t Hwf) as (c & tl & Htok & Hdig & Hsp & Hq & Hb & Hk & _).
  pose proof Hd as Hd'. rewrite Htok in Hd'. simpl in Hd'.
  rewrite (bind_Ok _ _ _ _ _ (skipWhitespace_stay _ _ _ Hd' Hsp)).
  rewrite (bind_Ok _ _ _ _ _ (peek_cons _ _ _ _ Hd')).
  rewrite Hq, Hb, Hk, Hdig.
  unfold bind. rewrite (parseNumber_token _ _ _ _ Hwf Hend Hd).
  by destruct (stod (token t)).
Qed.

Lemma parseValue_string_closed fuel pos body s rest :
  decode_body body = Some s ->
  drop pos input = dquote :: body ++ dquote :: rest ->
  parseValue input (S fuel) pos =
    Ok (JString (string_of_list_ascii s)) (pos + length body + 2).
Proof.
  intros Hs Hd.
  rewrite (parseValue_string _ _ _ _ Hd).
  by rewrite (bind_Ok _ _ _ _ _ (parseString_closed _ _ _ _ _ Hs Hd)).
Qed.
End Scalars.
(** * Numbers *)

(** C3 (amended). The number production scans an optional leading [-], then
    digits, then an optional point followed by digits, where either run of
    digits may be empty, and hands the captured substring to [std::stod];
    when the conversion succeeds the value is that [Number], and the cursor
    stands right after the token. [parse("-12.5")] returns [Number(-12.5)];
    the exponent of [1e5] is left over and raises the trailing-characters
    error; [.5] opens no production and raises the invalid-value error. *)
Theorem number_production :
  (forall t rest d fuel,
     wf_token t -> ends_token t rest -> stod (token t) = inr d ->
     parseValue (token t ++ rest) (S fuel) 0
       = Ok (JNumber d) (length (token t)))
  /\ (forall t d,
        wf_token t -> stod (token t) = inr d ->
        parse_text (string_of_list_ascii (token t)) = Returned (JNumber d))
  /\ parse_text "-12.5" = Returned (JNumber (ldexp_Z (-25) (-1)))
  /\ parse_text "1e5" = Raised (runtime_error msg_trailing)
  /\ parse_text ".5" = Raised (runtime_error msg_invalid_value).
Proof.
  split; [|split; [|split; [|split]]]; try reflexivity.
  - intros t rest d fuel Hwf Hend Hd.
    rewrite (parseValue_number _ fuel 0 t rest Hwf Hend) by (by rewrite drop_0).
    by rewrite Hd.
  - intros t d Hwf Hd. unfold parse_text. rewrite chars_of_list.
    destruct (token_head t Hwf) as (c & tl & Htok & _ & Hsp & _).
    assert (parseValue (token t) (S (size (token t))) 0
            = Ok (JNumber d) (size (token t))) as Hv.
    { rewrite (parseValue_number _ _ 0 t [] Hwf); [by rewrite Hd| |].
      - split; [done|]. by intros _.
      - by rewrite drop_0, app_nil_r. }
    by rewrite (parse_whole _ _ _ _ Htok Hsp Hv).
Qed.

Lemma number_production_witness :
  let t := {| nt_neg := true; nt_int := chars "12"; nt_frac := Some (chars "5") |} in
  wf_token t /\ ends_token t (chars ", 3]")
  /\ stod (token t) = inr (ldexp_Z (-25) (-1))
  /\ parseValue (chars "-12.5, 3]") 1 0 = Ok (JNumber (ldexp_Z (-25) (-1))) 5.
Proof.
  intros t.
  assert (wf_token t) as Hwf.
  { split; [repeat constructor|]. split; [|by left].
    intros fp [= <-]. repeat constructor. }
  assert (ends_token t (chars ", 3]")) as Hend by (split; [reflexivity|by intros _]).
  split; [exact Hwf|]. split; [exact Hend|]. split; [reflexivity|].
  exact (proj1 number_production t (chars ", 3]") _ 0 Hwf Hend eq_refl).
Defined.

(** C3, refuted as stated: a token with no digit before the point, or none
    after it, is accepted. *)
Lemma number_production_counterexample :
  parse_text "-.5" = Returned (JNumber (ldexp_Z (-1) (-1)))
  /\ parse_text "1." = Returned (JNumber (ldexp_Z 1 0)).
Proof. split; reflexivity. Qed.

(** * Failures *)

(** Every exception [parse] lets out is one of the parser's own syntax
    errors or was thrown by [std::stod]. *)
Lemma parse_failure_kinds (text : string) (e : exn) :
  parse_text text = Raised e -> syntax_error e \/ stod_error e.
Proof.
  unfold parse_text. pose proof (parse_sound (chars text)) as H.
  destruct (JSONParser.parse (chars text)); simpl in *; [done| |done].
  intros [= <-]. tauto.
Qed.

Lemma stod_error_not_syntax (e : exn) : stod_error e -> ~ syntax_error e.
Proof. intros [-> | ->] (m & _ & [=]). Qed.

(** C2, refuted by the code: on a number token without digits the
    exception of [std::stod] escapes [parse]; it is no [std::runtime_error]
    and carries none of the fixed messages. *)
Theorem stod_exception_escapes :
  parse_text "-" = Raised (invalid_argument "stod")
  /\ ~ syntax_error (invalid_argument "stod")
  /\ parse_text "[1,-]" = Raised (invalid_argument "stod").
Proof.
  split; [reflexivity|]. split; [|reflexivity].
  apply stod_error_not_syntax. by left.
Qed.

(** C9. [parse] terminates on every input: the recursion budget
    [S (size input)] is never exhausted, so the call returns a value or
    raises an exception; the cursor only moves forward and never passes the
    end of the input, in [parse] and in every [parseValue] call; [render] is
    a total function. The exception is not always a syntax error: for the
    input [-] it is the one of [std::stod]. *)
Theorem parse_terminates_within_input :
  (forall text, parse_text text <> Diverged)
  /\ (forall input, sound (size input) 0 true (JSONParser.parse input))
  /\ (forall input fuel pos,
        pos <= size input -> size input - pos < fuel ->
        sound (size input) pos true (parseValue input fuel pos))
  /\ (forall order v, exists s, render order v = s)
  /\ parse_text "-" = Raised (invalid_argument "stod").
Proof.
  split; [|split; [|split; [|split]]].
  - intros text. unfold parse_text.
    pose proof (parse_sound (chars text)) as H.
    by destruct (JSONParser.parse (chars text)).
  - apply parse_sound.
  - intros input fuel pos. apply parseValue_sound.
  - intros order v. by eexists.
  - reflexivity.
Qed.

Lemma parse_terminates_within_input_witness :
  4 <= size (chars "[[1]]") /\ size (chars "[[1]]") - 4 < 2
  /\ sound (size (chars "[[1]]")) 4 true (parseValue (chars "[[1]]") 2 4).
Proof.
  split; [unfold size; simpl; lia|]. split; [unfold size; simpl; lia|].
  apply (proj1 (proj2 (proj2 parse_terminates_within_input)));
    unfold size; simpl; lia.
Defined.
(** * Printing and reading back *)

Lemma decode_plain (l : list ascii) :
  Forall (fun c => plain_char c = true) l -> decode_body l = Some l.
Proof.
  induction 1 as [|c l Hc _ IH]; [done|]. simpl.
  unfold plain_char in Hc. apply andb_true_iff in Hc as [H1 H2].
  apply negb_true_iff in H1, H2. by rewrite H1, H2, IH.
Qed.

Lemma all_space_spaces n : all_space (spaces n).
Proof. unfold all_space, spaces. by apply Forall_replicate. Qed.

Lemma all_space_line n : all_space (newline :: spaces n).
Proof. constructor; [done|apply all_space_spaces]. Qed.

Lemma omap_lookup_keys (o : gmap string JSONValue) (l : list (string * JSONValue)) :
  (forall k x, (k, x) ∈ l -> o !! k = Some x) ->
  omap (fun k => pair k <$> o !! k) (l.*1) = l.
Proof.
  induction l as [|[k x] l IH]; intros H; [done|]. simpl.
  rewrite (H k x) by (by left). simpl. f_equal. apply IH.
  intros k' x' Hin. apply H. by right.
Qed.

Section Visited.
Variable order : gmap string JSONValue -> list string.
Hypothesis order_perm : forall o, order o ≡ₚ keys_of o.

Lemma visited_perm o : visited order o ≡ₚ map_to_list o.
Proof.
  unfold visited. rewrite (order_perm o). unfold keys_of.
  rewrite omap_lookup_keys; [done|].
  intros k x. apply elem_of_map_to_list.
Qed.

Lemma visited_length o : length (visited order o) = base.size o.
Proof. by rewrite visited_perm, length_map_to_list. Qed.

Lemma visited_lookup o k x : (k, x) ∈ visited order o <-> o !! k = Some x.
Proof. by rewrite visited_perm, elem_of_map_to_list. Qed.

Lemma visited_NoDup o : NoDup (visited order o).*1.
Proof. rewrite visited_perm. apply NoDup_fst_map_to_list. Qed.
End Visited.

Lemma foldl_insert_list_to_map (l : list (string * JSONValue)) :
  NoDup l.*1 ->
  foldl (fun o kv => <[kv.1 := kv.2]> o) (∅ : gmap string JSONValue) l
    = list_to_map l.
Proof.
  induction l as [|[k x] l IH] using rev_ind; [done|]. intros Hnd.
  rewrite fmap_app in Hnd. apply NoDup_app in Hnd as (Hl & Hk & _).
  rewrite foldl_app. simpl. rewrite IH by done.
  rewrite list_to_map_snoc; [done|].
  intros Hin. apply (Hk k Hin). simpl. by left.
Qed.
Lemma items_text_more it its :
  its <> [] ->
  items_text (it :: its)
    = i_lead it ++ i_text it ++ i_trail it ++ "," :: items_text its.
Proof. by destruct its. Qed.

Lemma members_text_more m ms :
  ms <> [] ->
  members_text (m :: ms) = member_text m ++ "," :: members_text ms.
Proof. by destruct ms. Qed.

Ltac list_norm :=
  repeat first [rewrite <- !app_assoc | rewrite <- !app_comm_cons
               | progress cbn [app]].

Lemma print_entries_cons indent total count e es :
  print_entries indent total count (e :: es)
    = spaces (indent + 2) ++ e ++
      (if (count =? total - 1)%nat then [] else [","%char]) ++ [newline] ++
      print_entries indent total (S count) es.
Proof. reflexivity. Qed.

Section Layout.
Variable order : gmap string JSONValue -> list string.

Lemma array_items_val indent xs : map i_val (array_items order indent xs) = xs.
Proof. induction xs as [|x xs IH]; simpl; by f_equal. Qed.

Lemma array_layout indent total xs x count :
  count + S (length xs) = total ->
  newline :: print_entries indent total count
               (map (fun x => printJSON order x (indent + 2)) (x :: xs)) ++
    spaces indent ++ ["]"]
  = items_text (array_items order indent (x :: xs)).
Proof.
  revert x count. induction xs as [|x' xs IH]; intros x count Hlen.
  - simpl in *. replace (count =? total - 1)%nat with true
      by (symmetry; apply Nat.eqb_eq; lia).
    simpl. by rewrite <- !app_assoc.
  - change (array_items order indent (x :: x' :: xs))
      with ({| i_lead := newline :: spaces (indent + 2);
               i_text := printJSON order x (indent + 2);
               i_val := x; i_trail := [] |}
            :: array_items order indent (x' :: xs)).
    rewrite items_text_more by done.
    rewrite <- (IH x' (S count)) by (simpl in *; lia).
    cbn [i_lead i_text i_trail].
    change (map (fun x => printJSON order x (indent + 2)) (x :: x' :: xs))
      with (printJSON order x (indent + 2)
            :: map (fun x => printJSON order x (indent + 2)) (x' :: xs)).
    rewrite print_entries_cons.
    replace (count =? total - 1)%nat with false
      by (symmetry; apply Nat.eqb_neq; simpl in Hlen; lia).
    cbn [app]. rewrite <- !app_assoc. reflexivity.
Qed.

Lemma object_members_insert indent kvs obj :
  insert_members obj (object_members order indent kvs)
    = foldl (fun o kv => <[kv.1 := kv.2]> o) obj kvs.
Proof.
  revert obj. induction kvs as [|[k x] kvs IH]; intros obj; [done|].
  simpl. rewrite <- IH. unfold insert_members. simpl.
  by rewrite string_of_list_ascii_of_string.
Qed.

Lemma object_layout indent total kvs kv count :
  count + S (length kvs) = total ->
  newline :: print_entries indent total count
               (map (fun kv => key_text kv.1 (printJSON order kv.2 (indent + 2)))
                    (kv :: kvs)) ++
    spaces indent ++ ["}"]
  = members_text (object_members order indent (kv :: kvs)).
Proof.
  revert kv count. induction kvs as [|kv' kvs IH]; intros kv count Hlen.
  - simpl in *. replace (count =? total - 1)%nat with true
      by (symmetry; apply Nat.eqb_eq; lia).
    unfold member_text, key_text. simpl. by list_norm.
  - change (object_members order indent (kv :: kv' :: kvs))
      with ({| m_lead := newline :: spaces (indent + 2);
               m_keytext := chars kv.1; m_key := chars kv.1;
               m_gap1 := []; m_gap2 := [" "%char];
               m_text := printJSON order kv.2 (indent + 2);
               m_val := kv.2; m_trail := [] |}
            :: object_members order indent (kv' :: kvs)).
    rewrite members_text_more by done.
    rewrite <- (IH kv' (S count)) by (simpl in *; lia).
    unfold member_text at 1. cbn [m_lead m_keytext m_gap1 m_gap2 m_text m_trail].
    change (map (fun kv => key_text kv.1 (printJSON order kv.2 (indent + 2)))
                (kv :: kv' :: kvs))
      with (key_text kv.1 (printJSON order kv.2 (indent + 2))
            :: map (fun kv => key_text kv.1 (printJSON order kv.2 (indent + 2)))
                   (kv' :: kvs)).
    rewrite print_entries_cons.
    replace (count =? total - 1)%nat with false
      by (symmetry; apply Nat.eqb_neq; simpl in Hlen; lia).
    unfold key_text at 1. by list_norm.
Qed.

Lemma entries_visited indent (o : gmap string JSONValue) :
  omap (fun key =>
          (fun p => [dquote] ++ chars key ++ [dquote; ":"; " "]%char ++ p)
            <$> ((fun x => printJSON order x (indent + 2)) <$> o) !! key)
       (order o)
  = map (fun kv => key_text kv.1 (printJSON order kv.2 (indent + 2)))
        (visited order o).
Proof.
  unfold visited. induction (order o) as [|k ks IH]; [done|]. csimpl.
  rewrite lookup_fmap. destruct (o !! k) as [x|]; csimpl; [|done].
  f_equal. exact IH.
Qed.

Lemma printJSON_object o indent :
  printJSON order (JObject o) indent =
    "{"%char :: newline ::
      print_entries indent (base.size o) 0
        (map (fun kv => key_text kv.1 (printJSON order kv.2 (indent + 2)))
             (visited order o)) ++
      spaces indent ++ ["}"%char].
Proof. cbn [printJSON]. by rewrite entries_visited. Qed.

Lemma printJSON_array a indent :
  printJSON order (JArray a) indent =
    "["%char :: newline ::
      print_entries indent (length a) 0
        (map (fun x => printJSON order x (indent + 2)) a) ++
      spaces indent ++ ["]"%char].
Proof. reflexivity. Qed.

Lemma printJSON_head v indent :
  printable v ->
  exists c t, printJSON order v indent = c :: t /\
              isspace c = false /\ eqc c "]" = false.
Proof.
  intros Hp. destruct Hp as [|b|d (t & Hwf & Hfmt & _)|s _|a _|o _].
  - by eexists _, _.
  - destruct b; by eexists _, _.
  - destruct (token_head t Hwf) as (c & tl & Htok & _ & Hsp & _ & _ & _ & Hc).
    exists c, tl. simpl. by rewrite Hfmt.
  - by eexists _, _.
  - by eexists _, _.
  - rewrite printJSON_object. by eexists _, _.
Qed.
End Layout.
Section Dispatch.
Variable input : list ascii.

Lemma parseValue_array fuel pos rest :
  drop pos input = "[" :: rest ->
  parseValue input (S fuel) pos =
    (a <- parseArray input (parseValue input fuel) ;; ret (JArray a)) pos.
Proof.
  intros Hd. cbn [parseValue].
  rewrite (bind_Ok _ _ _ _ _ (skipWhitespace_stay _ _ _ Hd ltac:(done))).
  by rewrite (bind_Ok _ _ _ _ _ (peek_cons _ _ _ _ Hd)).
Qed.

Lemma parseValue_object fuel pos rest :
  drop pos input = "{" :: rest ->
  parseValue input (S fuel) pos =
    (o <- parseObject input (parseValue input fuel) ;; ret (JObject o)) pos.
Proof.
  intros Hd. cbn [parseValue].
  rewrite (bind_Ok _ _ _ _ _ (skipWhitespace_stay _ _ _ Hd ltac:(done))).
  by rewrite (bind_Ok _ _ _ _ _ (peek_cons _ _ _ _ Hd)).
Qed.
End Dispatch.

Section RoundTrip.
Variable order : gmap string JSONValue -> list string.
Hypothesis order_perm : forall o, order o ≡ₚ keys_of o.
Variable input : list ascii.

Lemma parseValue_printJSON v :
  printable v ->
  forall indent fuel,
    depth v < fuel ->
    reads input (parseValue input fuel) (printJSON order v indent) v.
Proof.
  induction v as [|b|d|s|a IH|o IH] using JSONValue_tree_ind;
    intros Hp indent fuel Hfuel; unfold reads; intros pos ws rest Hws Hdel Hd;
    (destruct fuel as [|fuel]; [lia|]);
    destruct (printJSON_head order _ indent Hp) as (c & t & Hhead & Hc & Hc');
    (rewrite (parseValue_ws input _ pos ws (printJSON order _ indent ++ rest) Hws)
       by (done || by rewrite Hhead));
    apply drop_past in Hd;
    set (p := pos + length ws) in *; clearbody p; clear Hhead Hc Hc' c t.
  - by rewrite (parseValue_null _ _ _ rest Hd).
  - destruct b.
    + by rewrite (parseValue_true _ _ _ rest Hd).
    + by rewrite (parseValue_false _ _ _ rest Hd).
  - inversion Hp as [| |? (t & Hwf & Hfmt & Hstod)| | |]; subst.
    cbn [printJSON] in *. rewrite Hfmt in *.
    rewrite (parseValue_number _ _ _ t rest Hwf); [by rewrite Hstod| |done].
    destruct Hdel as [H1 H2]. split; [done|]. by intros _.
  - inversion Hp as [| | |? Hplain| |]; subst.
    cbn [printJSON] in *.
    rewrite (parseValue_string_closed _ _ _ (chars s) (chars s) rest).
    + rewrite string_of_list_ascii_of_string. f_equal. len_simp. lia.
    + by apply decode_plain.
    + rewrite Hd. by list_norm.
  - (* arrays *)
    inversion Hp as [| | | |? Hall|]; subst.
    rewrite printJSON_array in *.
    rewrite (parseValue_array _ _ _ _ Hd).
    destruct a as [|x xs].
    + cbn [map print_entries app] in *.
      rewrite (bind_Ok _ _ _ [] (p + length (newline :: spaces indent) + 2)).
      * unfold ret. f_equal. len_simp. lia.
      * apply (parseArray_empty _ _ _ _ rest (all_space_line indent)).
        rewrite Hd. by list_norm.
    + assert (Forall (item_ok input (parseValue input fuel))
                (array_items order indent (x :: xs))) as Hok.
      { assert (forall y, y ∈ x :: xs -> depth y < fuel) as Hdepth.
        { intros y Hy. pose proof (depth_array_elem _ _ Hy). lia. }
        clear Hd Hfuel Hp. revert IH Hall Hdepth. generalize (x :: xs).
        induction l as [|y l IHl]; intros IH Hall Hdepth; [constructor|].
        inversion IH; inversion Hall; subst.
        constructor.
        - split; [apply all_space_line|]. split.
          + cbn [i_trail]. destruct l; [apply all_space_line|constructor].
          + cbn [i_text i_val]. auto using list_elem_of_here.
        - apply IHl; auto. intros z Hz. apply Hdepth. by right. }
      destruct (printJSON_head order x (indent + 2)) as (c & t & Hh & Hc & Hc').
      { by inversion Hall. }
      pose proof (array_layout order indent (length (x :: xs)) xs x 0
                    ltac:(reflexivity)) as Hlay.
      assert (map i_val (array_items order indent (x :: xs)) = x :: xs) as Hval
        by apply array_items_val.
      remember (array_items order indent (x :: xs)) as its eqn:Hits.
      destruct its as [|it its]; [by simpl in Hits|].
      assert (i_text it = c :: t) as Hit.
      { simpl in Hits. injection Hits as -> _. exact Hh. }
      rewrite (bind_Ok _ _ _ _ _
        (parseArray_items input _ it its p rest Hok
           ltac:(by exists c, t) ltac:(rewrite Hd, <- Hlay; by list_norm))).
      unfold ret. rewrite Hval. f_equal. rewrite <- Hlay. len_simp. lia.
  - (* objects *)
    inversion Hp as [| | | | |? Hall]; subst.
    rewrite printJSON_object in *.
    rewrite (parseValue_object _ _ _ _ Hd).
    pose proof (visited_perm order order_perm o) as Hperm.
    pose proof (visited_length order order_perm o) as Hlen.
    destruct (visited order o) as [|kv kvs] eqn:Hvis.
    + assert (o = ∅) as ->.
      { apply map_size_empty_inv. by rewrite <- Hlen. }
      cbn [map print_entries app] in *.
      rewrite (bind_Ok _ _ _ ∅ (p + length (newline :: spaces indent) + 2)).
      * unfold ret. f_equal. len_simp. lia.
      * apply (parseObject_empty _ _ _ _ rest (all_space_line indent)).
        rewrite Hd. by list_norm.
    + assert (Forall (member_ok input (parseValue input fuel))
                (object_members order indent (kv :: kvs))) as Hok.
      { assert (forall k y, (k, y) ∈ kv :: kvs -> o !! k = Some y) as Hin.
        { intros k y Hy. rewrite <- Hvis in Hy.
          by apply (visited_lookup order order_perm). }
        clear Hd Hperm Hlen Hvis. revert Hin. generalize (kv :: kvs).
        induction l as [|[k y] l IHl]; intros Hin; [constructor|].
        assert (o !! k = Some y) as Hk by (apply Hin; by left).
        destruct (Hall k y Hk) as [Hplain Hpy].
        constructor.
        - split; [apply all_space_line|]. cbn.
          split; [by apply decode_plain|].
          split; [constructor|]. split; [by repeat constructor|].
          split.
          { destruct (printJSON_head order y (indent + 2) Hpy)
              as (c & t & -> & Hc & _). by exists c, t. }
          split.
          { apply (IH k y Hk Hpy).
            pose proof (depth_object_elem _ _ _ Hk). lia. }
          destruct l; [apply all_space_line|constructor].
        - apply IHl. intros k' y' Hy'. apply Hin. by right. }
      pose proof (object_layout order indent (base.size o) kvs kv 0
                    ltac:(simpl in Hlen; lia)) as Hlay.
      assert (insert_members ∅ (object_members order indent (kv :: kvs)) = o)
        as Hval.
      { rewrite object_members_insert, foldl_insert_list_to_map.
        - symmetry. by apply list_to_map_flip.
        - rewrite <- Hvis. by apply visited_NoDup. }
      remember (object_members order indent (kv :: kvs)) as ms eqn:Hms.
      destruct ms as [|m ms]; [by simpl in Hms|].
      rewrite (bind_Ok _ _ _ _ _
        (parseObject_members input _ m ms p rest Hok
           ltac:(rewrite Hd, <- Hlay; by list_norm))).
      unfold ret. rewrite Hval. f_equal. rewrite <- Hlay. len_simp. lia.
Qed.
End RoundTrip.
Lemma print_entries_length indent total count es e :
  e ∈ es -> length e <= length (print_entries indent total count es).
Proof.
  revert count. induction es as [|e' es IH]; intros count Hin.
  - by apply not_elem_of_nil in Hin.
  - rewrite print_entries_cons. len_simp.
    apply elem_of_cons in Hin as [->|Hin]; [lia|].
    specialize (IH (S count) Hin). lia.
Qed.

Lemma depth_list_bound (a : list JSONValue) (B : nat) :
  Forall (fun x => depth x <= B) a ->
  foldr (fun x n => depth x `max` n) 0 a <= B.
Proof. induction 1; simpl; lia. Qed.

Section Depth.
Variable order : gmap string JSONValue -> list string.
Hypothesis order_perm : forall o, order o ≡ₚ keys_of o.

(** A printed value is longer than it is deep: the budget [parse] gives
    [parseValue] covers every printed tree. *)
Lemma depth_lt_length v :
  printable v -> forall indent, depth v < length (printJSON order v indent).
Proof.
  induction v as [|b|d|s|a IH|o IH] using JSONValue_tree_ind;
    intros Hp indent.
  - simpl. lia.
  - destruct b; simpl; lia.
  - destruct (printJSON_head order _ indent Hp) as (c & t & -> & _).
    simpl. lia.
  - simpl. lia.
  - inversion Hp as [| | | |? Hall|]; subst.
    rewrite printJSON_array. cbn [depth]. len_simp.
    set (es := map _ a).
    assert (foldr (fun x n => depth x `max` n) 0 a
            <= length (print_entries indent (length a) 0 es)); [|lia].
    apply depth_list_bound. apply Forall_forall. intros x Hx.
    rewrite Forall_forall in IH, Hall.
    pose proof (IH x Hx (Hall x Hx) (indent + 2)).
    pose proof (print_entries_length indent (length a) 0 es
                  (printJSON order x (indent + 2))
                  ltac:(subst es; apply list_elem_of_fmap; eauto)).
    lia.
  - inversion Hp as [| | | | |? Hall]; subst.
    rewrite printJSON_object. cbn [depth]. len_simp.
    set (es := map _ (visited order o)).
    assert (map_fold (fun _ x n => depth x `max` n) 0 o
            <= length (print_entries indent (base.size o) 0 es)); [|lia].
    apply depth_map_bound. intros k x Hk.
    destruct (Hall k x Hk) as [_ Hpx].
    pose proof (IH k x Hk Hpx (indent + 2)).
    pose proof (print_entries_length indent (base.size o) 0 es
                  (key_text k (printJSON order x (indent + 2)))) as Hlen.
    unfold key_text in Hlen at 2. revert Hlen. len_simp. intros Hlen.
    assert (key_text k (printJSON order x (indent + 2)) ∈ es) as Hin.
    { subst es. apply list_elem_of_fmap. exists (k, x). split; [done|].
      by apply (visited_lookup order order_perm). }
    specialize (Hlen Hin). lia.
Qed.
End Depth.

(** C1 (amended). For every value tree whose strings and keys hold no quote
    and no backslash, and whose numbers print, in the default six-digit
    formatting, as decimal tokens that convert back to themselves, parsing
    the rendered text succeeds and yields the tree itself: every scalar and
    every array slot in its place, every object as the same map from keys to
    values, in whatever order the printer visits the keys. *)
Theorem parse_render_roundtrip
    (order : gmap string JSONValue -> list string) (v : JSONValue) :
  (forall o, order o ≡ₚ keys_of o) ->
  printable v ->
  parse_text (render order v) = Returned v.
Proof.
  intros Hperm Hp. unfold parse_text, render. rewrite chars_of_list.
  set (input := printJSON order v 0).
  destruct (printJSON_head order v 0 Hp) as (c & t & Hhead & Hc & _).
  assert (parseValue input (S (size input)) 0 = Ok v (size input)) as Hv.
  { assert (depth v < S (size input)) as Hdepth.
    { pose proof (depth_lt_length order Hperm v Hp 0). unfold size, input. lia. }
    rewrite (parseValue_printJSON order Hperm input v Hp 0 (S (size input))
               Hdepth 0 [] []);
      [done|constructor|done|].
    by rewrite drop_0, app_nil_r. }
  subst input. by rewrite (parse_whole _ _ _ _ Hhead Hc Hv).
Qed.

Section RoundTripSamples.
#[local] Open Scope string_scope.

Lemma number_trips_1 : number_trips (ldexp_Z 1 0).
Proof.
  exists (number_token false "1").
  split; [|by split]. split; [by repeat constructor|]. split; [done|by right].
Qed.

Lemma number_trips_2 : number_trips (ldexp_Z 2 0).
Proof.
  exists (number_token false "2").
  split; [|by split]. split; [by repeat constructor|]. split; [done|by right].
Qed.

Lemma number_trips_minus_12_5 : number_trips (ldexp_Z (-25) (-1)).
Proof.
  exists {| nt_neg := true; nt_int := chars "12"; nt_frac := Some (chars "5") |}.
  split; [|by split]. split; [by repeat constructor|].
  split; [|by left]. intros fp [= <-]. by repeat constructor.
Qed.

Lemma plain_literal (s : string) :
  forallb plain_char (chars s) = true -> plain s.
Proof. intros H. apply Forall_forall. intros c Hc.
  rewrite forallb_forall in H. apply H. by apply list_elem_of_In. Qed.

Lemma sample_tree_printable : printable sample_tree.
Proof.
  apply printable_object.
  apply map_Forall_insert_2.
  { split; [by apply plain_literal|]. constructor. by apply plain_literal. }
  apply map_Forall_insert_2.
  { split; [by apply plain_literal|]. constructor.
    constructor; [constructor; apply number_trips_1|].
    constructor; [constructor; apply number_trips_minus_12_5|].
    constructor; [constructor; constructor|].
    constructor; [|constructor].
    apply printable_object. apply map_Forall_empty. }
  apply map_Forall_insert_2.
  { split; [by apply plain_literal|]. constructor. }
  apply map_Forall_singleton. split; [by apply plain_literal|constructor].
Qed.

Lemma parse_render_roundtrip_witness :
  (forall o, keys_of o ≡ₚ keys_of o) /\ printable sample_tree
  /\ parse_text (render keys_of sample_tree) = Returned sample_tree.
Proof.
  split; [done|]. split; [exact sample_tree_printable|].
  exact (parse_render_roundtrip keys_of sample_tree
           (fun o => reflexivity (keys_of o)) sample_tree_printable).
Defined.

(** C1, refuted as stated: a whole number of seven digits is printed with an
    exponent, which the parser does not read; a number of more than six
    significant digits comes back as another number; a string with a quote
    is cut at the quote. *)
Lemma parse_render_counterexample :
  parse_text (render keys_of (JNumber (ldexp_Z 1000000 0)))
    = Raised (runtime_error msg_trailing)
  /\ parse_text (render keys_of (JNumber (ldexp_Z 1234567 0)))
    = Raised (runtime_error msg_trailing)
  /\ parse_text (render keys_of (JNumber (ldexp_Z 1234567 (-3))))
    = Returned (JNumber (ldexp_Z 154321 0))
  /\ ldexp_Z 1234567 (-3) <> ldexp_Z 154321 0
  /\ parse_text (render keys_of (JString (String "a" (String dquote "b"))))
    = Raised (runtime_error msg_trailing).
Proof. repeat split; vm_compute; congruence. Qed.
End RoundTripSamples.

Section PrintedShape.
#[local] Open Scope string_scope.

(** * The printed shape *)

Lemma visited_singleton order k (x : JSONValue) :
  (forall o, order o ≡ₚ keys_of o) ->
  visited order {[k := x]} = [(k, x)].
Proof.
  intros Hperm. apply Permutation_singleton_r.
  rewrite (visited_perm order Hperm). by rewrite map_to_list_singleton.
Qed.

(** C8. The object with the single key [x] bound to the array [1, 2] is
    rendered as exactly six lines: two spaces of indentation per nesting
    level, one element per line, no comma after the last element, closing
    brackets under the start of the construct they close, and no newline
    after the last line. *)
Theorem render_nested_example (order : gmap string JSONValue -> list string) :
  (forall o, order o ≡ₚ keys_of o) ->
  render order x_array
    = string_of_list_ascii
        (join_lines ["{"; "  " +:+ quoted "x" +:+ ": ["; "    1,"; "    2";
                     "  ]"; "}"])
  /\ last (chars (render order x_array)) = Some "}"%char.
Proof.
  intros Hperm.
  assert (printJSON order x_array 0
          = join_lines ["{"; "  " +:+ quoted "x" +:+ ": ["; "    1,"; "    2";
                        "  ]"; "}"]) as Heq.
  { unfold x_array. rewrite printJSON_object.
    rewrite (visited_singleton order _ _ Hperm), map_size_singleton.
    reflexivity. }
  unfold render. rewrite Heq. split; reflexivity.
Qed.

Lemma render_nested_example_witness :
  (forall o, keys_of o ≡ₚ keys_of o)
  /\ render keys_of x_array
     = string_of_list_ascii
         (join_lines ["{"; "  " +:+ quoted "x" +:+ ": ["; "    1,"; "    2";
                      "  ]"; "}"]).
Proof.
  split; [done|].
  exact (proj1 (render_nested_example keys_of (fun o => reflexivity (keys_of o)))).
Defined.
End PrintedShape.
(** * Repeated keys *)

Lemma string_of_list_ascii_inj (l1 l2 : list ascii) :
  string_of_list_ascii l1 = string_of_list_ascii l2 -> l1 = l2.
Proof.
  intros H. apply (f_equal list_ascii_of_string) in H.
  by rewrite !list_ascii_of_string_of_list_ascii in H.
Qed.

Lemma insert_members_other (k : list ascii) ms obj :
  Forall (fun m' => m_key m' <> k) ms ->
  insert_members obj ms !! string_of_list_ascii k
    = obj !! string_of_list_ascii k.
Proof.
  revert obj. induction ms as [|m ms IH]; intros obj Hall; [done|].
  inversion Hall as [|? ? Hne Hall']; subst.
  unfold insert_members in *. simpl. rewrite IH by done.
  apply lookup_insert_ne. intros Heq. by apply string_of_list_ascii_inj in Heq.
Qed.

Lemma insert_members_last obj ms1 m ms2 :
  Forall (fun m' => m_key m' <> m_key m) ms2 ->
  insert_members obj (ms1 ++ m :: ms2) !! string_of_list_ascii (m_key m)
    = Some (m_val m).
Proof.
  intros Hall. unfold insert_members. rewrite foldl_app. simpl.
  fold (insert_members
          (<[string_of_list_ascii (m_key m) := m_val m]>
             (foldl (fun o m0 => <[string_of_list_ascii (m_key m0) := m_val m0]> o)
                    obj ms1)) ms2).
  rewrite insert_members_other by done. apply lookup_insert_eq.
Qed.

Lemma member_text_in_members m ms :
  m ∈ ms -> length (m_text m) <= length (members_text ms).
Proof.
  induction ms as [|m' ms IH]; intros Hin; [by apply not_elem_of_nil in Hin|].
  cbn [members_text]. len_simp.
  apply elem_of_cons in Hin as [<-|Hin].
  - unfold member_text. len_simp. lia.
  - specialize (IH Hin). destruct ms; [by apply not_elem_of_nil in Hin|].
    cbn [length]. lia.
Qed.

Lemma parse_object_members (input : list ascii) (ms : list member) :
  input = "{"%char :: members_text ms ->
  ms <> [] ->
  Forall (member_ok input (parseValue input (size input))) ms ->
  observe (JSONParser.parse input) = Returned (JObject (insert_members ∅ ms)).
Proof.
  intros -> Hne Hok.
  set (input := "{"%char :: members_text ms) in *.
  assert (size input = S (length (members_text ms))) as Hsize by done.
  destruct ms as [|m ms]; [done|].
  assert (parseValue input (S (size input)) 0
          = Ok (JObject (insert_members ∅ (m :: ms))) (size input)) as Hv.
  { rewrite (parseValue_object input _ 0 (members_text (m :: ms)))
      by (by rewrite drop_0).
    rewrite (bind_Ok _ _ _ _ _
      (parseObject_members input _ m ms 0 [] Hok
         ltac:(by rewrite drop_0, app_nil_r))).
    reflexivity. }
  by rewrite (parse_whole input _ "{"%char (members_text (m :: ms)) eq_refl eq_refl Hv).
Qed.

Lemma source_member_ok order (input : list ascii) (ms : list member) :
  (forall o, order o ≡ₚ keys_of o) ->
  input = "{"%char :: members_text ms ->
  Forall (source_member order) ms ->
  Forall (member_ok input (parseValue input (size input))) ms.
Proof.
  intros Hperm Hin Hsrc.
  assert (size input = S (length (members_text ms))) as Hsize by by subst.
  apply Forall_forall. intros m Hm.
  rewrite Forall_forall in Hsrc.
  destruct (Hsrc m Hm) as (Hl & Hk & Hg1 & Hg2 & Ht & Hp & indent & Htext).
  pose proof (member_text_in_members m ms Hm) as Hlen.
  pose proof (depth_lt_length order Hperm _ Hp indent) as Hdepth.
  rewrite <- Htext in Hdepth.
  do 4 (split; [done|]). split; [|split; [|done]].
  - destruct (printJSON_head order _ indent Hp) as (c & t & Hh & Hc & _).
    exists c, t. by rewrite Htext.
  - rewrite Htext. apply (parseValue_printJSON order Hperm); [done|lia].
Qed.

Lemma parse_object_text order (ms : list member) :
  (forall o, order o ≡ₚ keys_of o) ->
  ms <> [] -> Forall (source_member order) ms ->
  parse_text (string_of_list_ascii ("{"%char :: members_text ms))
    = Returned (JObject (insert_members ∅ ms)).
Proof.
  intros Hperm Hne Hsrc. unfold parse_text. rewrite chars_of_list.
  apply parse_object_members; [done|done|].
  by apply (source_member_ok order).
Qed.

Section RepeatedKeys.
#[local] Open Scope string_scope.

(** C6. In an object text that repeats a key the entry of that key is bound
    to the value of its last occurrence: members are stored with
    [obj[key] = value] in the order of the text. This holds whatever the
    member values are, as long as [parseValue] reads each of them, and in
    particular when they are written in the printer's notation. [parse]
    of the text [{"a":1,"a":2}] is the object with the one key [a], bound
    to 2. *)
Theorem duplicate_key_last_wins :
  (forall order ms ms1 m ms2,
     (forall o, order o ≡ₚ keys_of o) ->
     Forall (source_member order) ms ->
     ms = (ms1 ++ m :: ms2)%list ->
     Forall (fun m' => m_key m' <> m_key m) ms2 ->
     exists o,
       parse_text (string_of_list_ascii ("{"%char :: members_text ms))
         = Returned (JObject o)
       /\ o !! string_of_list_ascii (m_key m) = Some (m_val m))
  /\ (forall input ms ms1 m ms2,
       input = "{"%char :: members_text ms ->
       Forall (member_ok input (parseValue input (size input))) ms ->
       ms = (ms1 ++ m :: ms2)%list ->
       Forall (fun m' => m_key m' <> m_key m) ms2 ->
       exists o,
         observe (JSONParser.parse input) = Returned (JObject o)
         /\ o !! string_of_list_ascii (m_key m) = Some (m_val m))
  /\ parse_text ("{" +:+ quoted "a" +:+ ":1," +:+ quoted "a" +:+ ":2}")
       = Returned (JObject {["a" := JNumber (ldexp_Z 2 0)]})
  /\ base.size ({["a" := JNumber (ldexp_Z 2 0)]} : gmap string JSONValue) = 1.
Proof.
  split; [|split; [|split]].
  - intros order ms ms1 m ms2 Hperm Hsrc -> Hlast.
    exists (insert_members ∅ (ms1 ++ m :: ms2)%list). split.
    + apply (parse_object_text order); [done| |done]. by destruct ms1.
    + by apply insert_members_last.
  - intros input ms ms1 m ms2 Hin Hok -> Hlast.
    exists (insert_members ∅ (ms1 ++ m :: ms2)%list). split.
    + apply parse_object_members; [done| |done]. by destruct ms1.
    + by apply insert_members_last.
  - vm_compute. reflexivity.
  - apply map_size_singleton.
Qed.

Lemma compact_member_source key v :
  plain key -> printable v -> source_member keys_of (compact_member key v).
Proof.
  intros Hk Hv. split; [constructor|]. split; [by apply decode_plain|].
  do 3 (split; [constructor|]). split; [done|]. by exists 0.
Qed.

Lemma duplicate_key_last_wins_witness :
  let m1 := compact_member "a" (JNumber (ldexp_Z 1 0)) in
  let m2 := compact_member "a" (JNumber (ldexp_Z 2 0)) in
  (forall o, keys_of o ≡ₚ keys_of o)
  /\ Forall (source_member keys_of) [m1; m2]
  /\ Forall (fun m' => m_key m' <> m_key m2) []
  /\ string_of_list_ascii ("{"%char :: members_text [m1; m2])
      = "{" +:+ quoted "a" +:+ ":1," +:+ quoted "a" +:+ ":2}"
  /\ exists o,
       parse_text (string_of_list_ascii ("{"%char :: members_text [m1; m2]))
         = Returned (JObject o)
       /\ o !! "a" = Some (JNumber (ldexp_Z 2 0)).
Proof.
  intros m1 m2.
  assert (Forall (source_member keys_of) [m1; m2]) as Hsrc.
  { constructor; [|constructor; [|constructor]].
    - apply compact_member_source;
        [by apply plain_literal|constructor; apply number_trips_1].
    - apply compact_member_source;
        [by apply plain_literal|constructor; apply number_trips_2]. }
  split; [done|]. split; [exact Hsrc|]. split; [constructor|].
  split; [reflexivity|].
  exact (proj1 duplicate_key_last_wins keys_of [m1; m2] [m1] m2 []
           (fun o => reflexivity (keys_of o)) Hsrc eq_refl
           (List.Forall_nil (fun m' => m_key m' <> m_key m2))).
Defined.
End RepeatedKeys.

(** * Further properties of the parser and the printer *)

Section Shift.
Variable pre input : list ascii.
#[local] Abbreviation k := (length pre).
#[local] Abbreviation input' := (pre ++ input).

Lemma size_app : size input' = k + size input.
Proof. unfold size. by rewrite length_app. Qed.

Lemma lookup_shift pos : input' !! (k + pos) = input !! pos.
Proof. by rewrite lookup_app_r, Nat.add_sub' by lia. Qed.

Lemma drop_shift pos : drop (k + pos) input' = drop pos input.
Proof. by rewrite drop_app_add. Qed.

Lemma scan_shift p n pos :
  scan input' p n (k + pos) = k + scan input p n pos.
Proof.
  revert pos. induction n as [|n IH]; intros pos; [done|]. simpl.
  rewrite lookup_shift. destruct (input !! pos) as [c|]; [|done].
  destruct (p c); [|done]. by rewrite <- IH, Nat.add_succ_r.
Qed.

Lemma skipWhitespace_shift pos :
  skipWhitespace input' (k + pos) = shift k (skipWhitespace input pos).
Proof.
  unfold skipWhitespace. simpl. rewrite size_app.
  replace (k + size input - (k + pos)) with (size input - pos) by lia.
  by rewrite scan_shift.
Qed.

Lemma peek_shift pos : peek input' (k + pos) = shift k (peek input pos).
Proof. unfold peek. by rewrite lookup_shift. Qed.

Lemma get_shift pos : get input' (k + pos) = shift k (get input pos).
Proof.
  unfold get. rewrite lookup_shift. destruct (input !! pos); simpl; [|done].
  by rewrite Nat.add_succ_r.
Qed.

Lemma compare_shift len lit pos :
  compare input' len lit (k + pos) = shift k (compare input len lit pos).
Proof.
  unfold compare. rewrite size_app, drop_shift.
  replace (k + size input <? k + pos)%nat with (size input <? pos)%nat; [by destruct (_ <? _)%nat|].
  destruct (size input <? pos)%nat eqn:E; symmetry.
  - apply Nat.ltb_lt in E. apply Nat.ltb_lt. lia.
  - apply Nat.ltb_ge in E. apply Nat.ltb_ge. lia.
Qed.

Lemma bind_shift {A B} (m m' : M A) (f f' : A -> M B) pos :
  m' (k + pos) = shift k (m pos) ->
  (forall a p, m pos = Ok a p -> f' a (k + p) = shift k (f a p)) ->
  bind m' f' (k + pos) = shift k (bind m f pos).
Proof.
  intros Hm Hf. unfold bind. rewrite Hm.
  destruct (m pos) as [a p|e p|]; simpl; [by apply Hf|done..].
Qed.

Lemma parseString_loop_shift n result pos :
  parseString_loop input' n result (k + pos)
    = shift k (parseString_loop input n result pos).
Proof.
  revert result pos. induction n as [|n IH]; intros result pos.
  - simpl. rewrite size_app.
    replace (k + pos <? k + size input)%nat with (pos <? size input)%nat
      by (destruct (pos <? size input)%nat eqn:E; symmetry;
          [apply Nat.ltb_lt in E; apply Nat.ltb_lt|apply Nat.ltb_ge in E; apply Nat.ltb_ge]; lia).
    by destruct (_ <? _)%nat.
  - cbn [parseString_loop]. rewrite size_app.
    replace (k + pos <? k + size input)%nat with (pos <? size input)%nat
      by (destruct (pos <? size input)%nat eqn:E; symmetry;
          [apply Nat.ltb_lt in E; apply Nat.ltb_lt|apply Nat.ltb_ge in E; apply Nat.ltb_ge]; lia).
    destruct (_ <? _)%nat; [|done].
    apply bind_shift; [apply get_shift|]. intros c p _.
    destruct (eqc c dquote); [done|].
    destruct (eqc c bslash); [|apply IH].
    apply bind_shift; [apply get_shift|]. intros next p' _.
    destruct (_ || _); [apply IH|].
    destruct (eqc next "n"); [apply IH|done].
Qed.

Lemma parseString_shift pos :
  parseString input' (k + pos) = shift k (parseString input pos).
Proof.
  unfold parseString. apply bind_shift; [apply get_shift|]. intros c p _.
  destruct (negb _); [done|].
  apply bind_shift; [|done].
  rewrite size_app.
  replace (k + size input - (k + p)) with (size input - p) by lia.
  apply parseString_loop_shift.
Qed.

Lemma peekc_shift pos : peekc input' (k + pos) = peekc input pos.
Proof. unfold peekc. by rewrite lookup_shift. Qed.

Lemma parseNumber_shift pos :
  parseNumber input' (k + pos) = shift k (parseNumber input pos).
Proof.
  rewrite !parseNumber_run. cbv zeta.
  rewrite size_app, peekc_shift, drop_shift.
  set (p0 := if eqc (peekc input pos) "-" then pos + 1 else pos).
  replace (if eqc (peekc input pos) "-" then k + pos + 1 else k + pos)
    with (k + p0) by (subst p0; destruct (eqc (peekc input pos) "-"); lia).
  replace (k + size input - (k + p0)) with (size input - p0) by lia.
  rewrite scan_shift.
  set (p1 := scan input isdigit (size input - p0) p0).
  rewrite peekc_shift.
  set (p2 := if eqc (peekc input p1) "."
             then scan input isdigit (size input - (p1 + 1)) (p1 + 1) else p1).
  replace (if eqc (peekc input p1) "."
           then scan (pre ++ input) isdigit (k + size input - (k + p1 + 1)) (k + p1 + 1)
           else k + p1) with (k + p2).
  2:{ subst p2. destruct (eqc (peekc input p1) "."); [|done].
      replace (k + p1 + 1) with (k + (p1 + 1)) by lia.
      rewrite scan_shift. f_equal. f_equal. lia. }
  replace (k + size input <? k + pos)%nat with (size input <? pos)%nat
    by (destruct (size input <? pos)%nat eqn:E; symmetry;
        [apply Nat.ltb_lt in E; apply Nat.ltb_lt|apply Nat.ltb_ge in E; apply Nat.ltb_ge]; lia).
  destruct (_ <? _)%nat; [done|].
  replace (k + p2 - (k + pos)) with (p2 - pos) by lia.
  by destruct (stod _).
Qed.

Section ContainersShift.
Variable pv pv' : M JSONValue.
Hypothesis pv_shift : forall pos, pv' (k + pos) = shift k (pv pos).

Lemma parseArray_loop_shift n arr pos :
  parseArray_loop input' pv' n arr (k + pos)
    = shift k (parseArray_loop input pv n arr pos).
Proof.
  revert arr pos. induction n as [|n IH]; intros arr pos; [done|].
  cbn [parseArray_loop].
  apply bind_shift; [apply pv_shift|]. intros v p _.
  apply bind_shift; [apply skipWhitespace_shift|]. intros [] p1 _.
  apply bind_shift; [apply peek_shift|]. intros c p2 _.
  destruct (eqc c "]").
  - apply bind_shift; [apply get_shift|]. done.
  - apply bind_shift; [apply get_shift|]. intros c' p3 _.
    destruct (negb _); [done|apply IH].
Qed.

Lemma parseArray_shift pos :
  parseArray input' pv' (k + pos) = shift k (parseArray input pv pos).
Proof.
  unfold parseArray.
  apply bind_shift; [apply get_shift|]. intros c p _.
  destruct (negb _); [done|].
  apply bind_shift; [apply skipWhitespace_shift|]. intros [] p1 _.
  apply bind_shift; [apply peek_shift|]. intros c' p2 _.
  destruct (eqc c' "]").
  - apply bind_shift; [apply get_shift|]. done.
  - rewrite size_app.
    replace (k + size input - (k + p2)) with (size input - p2) by lia.
    apply parseArray_loop_shift.
Qed.

Lemma parseObject_loop_shift n obj pos :
  parseObject_loop input' pv' n obj (k + pos)
    = shift k (parseObject_loop input pv n obj pos).
Proof.
  revert obj pos. induction n as [|n IH]; intros obj pos; [done|].
  cbn [parseObject_loop].
  apply bind_shift; [apply skipWhitespace_shift|]. intros [] p0 _.
  apply bind_shift; [apply parseString_shift|]. intros key p1 _.
  apply bind_shift; [apply skipWhitespace_shift|]. intros [] p2 _.
  apply bind_shift; [apply get_shift|]. intros c p3 _.
  destruct (negb _); [done|].
  apply bind_shift; [apply skipWhitespace_shift|]. intros [] p4 _.
  apply bind_shift; [apply pv_shift|]. intros v p5 _.
  apply bind_shift; [apply skipWhitespace_shift|]. intros [] p6 _.
  apply bind_shift; [apply peek_shift|]. intros c1 p7 _.
  destruct (eqc c1 "}").
  - apply bind_shift; [apply get_shift|]. done.
  - apply bind_shift; [apply get_shift|]. intros c' p8 _.
    destruct (negb _); [done|apply IH].
Qed.

Lemma parseObject_shift pos :
  parseObject input' pv' (k + pos) = shift k (parseObject input pv pos).
Proof.
  unfold parseObject.
  apply bind_shift; [apply get_shift|]. intros c p _.
  destruct (negb _); [done|].
  apply bind_shift; [apply skipWhitespace_shift|]. intros [] p1 _.
  apply bind_shift; [apply peek_shift|]. intros c' p2 _.
  destruct (eqc c' "}").
  - apply bind_shift; [apply get_shift|]. done.
  - rewrite size_app.
    replace (k + size input - (k + p2)) with (size input - p2) by lia.
    apply parseObject_loop_shift.
Qed.
End ContainersShift.

Lemma parseValue_shift fuel pos :
  parseValue input' fuel (k + pos) = shift k (parseValue input fuel pos).
Proof.
  revert pos. induction fuel as [|fuel IH]; intros pos; [done|].
  cbn [parseValue].
  apply bind_shift; [apply skipWhitespace_shift|]. intros [] p1 _.
  apply bind_shift; [apply peek_shift|]. intros c p2 _.
  destruct (eqc c dquote); [apply bind_shift; [apply parseString_shift|done]|].
  destruct (eqc c "{"); [apply bind_shift; [by apply parseObject_shift|done]|].
  destruct (eqc c "["); [apply bind_shift; [by apply parseArray_shift|done]|].
  destruct (_ || _); [apply bind_shift; [apply parseNumber_shift|done]|].
  apply bind_shift; [apply compare_shift|]. intros t p3 _.
  destruct t.
  { unfold bind, advance, ret. simpl. f_equal. lia. }
  apply bind_shift; [apply compare_shift|]. intros f p4 _.
  destruct f.
  { unfold bind, advance, ret. simpl. f_equal. lia. }
  apply bind_shift; [apply compare_shift|]. intros n p5 _.
  destruct n.
  { unfold bind, advance, ret. simpl. f_equal. lia. }
  done.
Qed.
End Shift.

Lemma observe_shift k (o : outcome JSONValue) : observe (shift k o) = observe o.
Proof. by destruct o. Qed.

Lemma extends_refl {A} (o : outcome A) : extends o o.
Proof. by intros _. Qed.

Lemma bind_extends {A B} (m m' : M A) (f f' : A -> M B) pos :
  extends (m pos) (m' pos) ->
  (forall a p, m pos = Ok a p -> extends (f a p) (f' a p)) ->
  extends (bind m f pos) (bind m' f' pos).
Proof.
  intros Hm Hf. unfold bind, extends in *.
  destruct (m pos) as [a p|e p|] eqn:E; [|intros _; by rewrite Hm|done].
  rewrite Hm by done. by apply Hf.
Qed.

Section Budget.
Variable input : list ascii.

Section ContainersBudget.
Variable pv pv' : M JSONValue.
Hypothesis pv_extends : forall pos, extends (pv pos) (pv' pos).

Lemma parseArray_loop_extends n arr pos :
  extends (parseArray_loop input pv n arr pos)
          (parseArray_loop input pv' n arr pos).
Proof.
  revert arr pos. induction n as [|n IH]; intros arr pos; [done|].
  cbn [parseArray_loop].
  apply bind_extends; [apply pv_extends|]. intros v p _.
  apply bind_extends; [apply extends_refl|]. intros [] p1 _.
  apply bind_extends; [apply extends_refl|]. intros c p2 _.
  destruct (eqc c "]"); [apply extends_refl|].
  apply bind_extends; [apply extends_refl|]. intros c' p3 _.
  destruct (negb _); [apply extends_refl|apply IH].
Qed.

Lemma parseArray_extends pos :
  extends (parseArray input pv pos) (parseArray input pv' pos).
Proof.
  unfold parseArray.
  apply bind_extends; [apply extends_refl|]. intros c p _.
  destruct (negb _); [apply extends_refl|].
  apply bind_extends; [apply extends_refl|]. intros [] p1 _.
  apply bind_extends; [apply extends_refl|]. intros c' p2 _.
  destruct (eqc c' "]"); [apply extends_refl|apply parseArray_loop_extends].
Qed.

Lemma parseObject_loop_extends n obj pos :
  extends (parseObject_loop input pv n obj pos)
          (parseObject_loop input pv' n obj pos).
Proof.
  revert obj pos. induction n as [|n IH]; intros obj pos; [done|].
  cbn [parseObject_loop].
  apply bind_extends; [apply extends_refl|]. intros [] p0 _.
  apply bind_extends; [apply extends_refl|]. intros key p1 _.
  apply bind_extends; [apply extends_refl|]. intros [] p2 _.
  apply bind_extends; [apply extends_refl|]. intros c p3 _.
  destruct (negb _); [apply extends_refl|].
  apply bind_extends; [apply extends_refl|]. intros [] p4 _.
  apply bind_extends; [apply pv_extends|]. intros v p5 _.
  apply bind_extends; [apply extends_refl|]. intros [] p6 _.
  apply bind_extends; [apply extends_refl|]. intros c1 p7 _.
  destruct (eqc c1 "}"); [apply extends_refl|].
  apply bind_extends; [apply extends_refl|]. intros c' p8 _.
  destruct (negb _); [apply extends_refl|apply IH].
Qed.

Lemma parseObject_extends pos :
  extends (parseObject input pv pos) (parseObject input pv' pos).
Proof.
  unfold parseObject.
  apply bind_extends; [apply extends_refl|]. intros c p _.
  destruct (negb _); [apply extends_refl|].
  apply bind_extends; [apply extends_refl|]. intros [] p1 _.
  apply bind_extends; [apply extends_refl|]. intros c' p2 _.
  destruct (eqc c' "}"); [apply extends_refl|apply parseObject_loop_extends].
Qed.
End ContainersBudget.

Lemma parseValue_extends_S fuel pos :
  extends (parseValue input fuel pos) (parseValue input (S fuel) pos).
Proof.
  revert pos. induction fuel as [|fuel IH]; intros pos; [by intros []|].
  change (parseValue input (S (S fuel))) with
    (skipWhitespace input >>
     c <- peek input ;;
     if eqc c dquote then s <- parseString input ;; ret (JString s)
     else if eqc c "{" then
       o <- parseObject input (parseValue input (S fuel)) ;; ret (JObject o)
     else if eqc c "[" then
       a <- parseArray input (parseValue input (S fuel)) ;; ret (JArray a)
     else if isdigit c || eqc c "-" then
       d <- parseNumber input ;; ret (JNumber d)
     else
       t <- compare input 4 "true" ;;
       if t then advance 4 >> ret (JBool true)
       else
         f <- compare input 5 "false" ;;
         if f then advance 5 >> ret (JBool false)
         else
           n <- compare input 4 "null" ;;
           if n then advance 4 >> ret JNull
           else throw (runtime_error msg_invalid_value)).
  cbn [parseValue].
  apply bind_extends; [apply extends_refl|]. intros [] p1 _.
  apply bind_extends; [apply extends_refl|]. intros c p2 _.
  destruct (eqc c dquote); [apply extends_refl|].
  destruct (eqc c "{").
  { apply bind_extends; [by apply parseObject_extends|]. intros; apply extends_refl. }
  destruct (eqc c "[").
  { apply bind_extends; [by apply parseArray_extends|]. intros; apply extends_refl. }
  apply extends_refl.
Qed.

Lemma parseValue_extends fuel fuel' pos :
  fuel <= fuel' ->
  extends (parseValue input fuel pos) (parseValue input fuel' pos).
Proof.
  induction 1 as [|fuel' _ IH]; [apply extends_refl|].
  intros Hd. rewrite <- (IH Hd). apply parseValue_extends_S. by rewrite (IH Hd).
Qed.

(** Any recursion budget above the number of characters left gives the
    same run. *)
Lemma parseValue_budget fuel fuel' pos :
  pos <= size input -> size input - pos < fuel -> fuel <= fuel' ->
  parseValue input fuel' pos = parseValue input fuel pos.
Proof.
  intros Hpos Hfuel Hle. apply parseValue_extends; [done|].
  pose proof (parseValue_sound input fuel pos Hpos Hfuel) as Hs.
  intros E. by rewrite E in Hs.
Qed.
End Budget.

Lemma scan_through p (run input : list ascii) n i :
  Forall (fun c => p c = true) run -> i <= length run ->
  scan (run ++ input) p (length run - i + n) i
    = scan (run ++ input) p n (length run).
Proof.
  intros Hrun. remember (length run - i) as d eqn:Hd. revert i Hd.
  induction d as [|d IH]; intros i Hd Hi.
  - simpl. f_equal. lia.
  - assert (i < length run) as Hlt by lia.
    destruct (lookup_lt_is_Some_2 run i Hlt) as [c Hc].
    cbn [Nat.add]. rewrite (scan_step _ _ _ _ c).
    + apply IH; lia.
    + by rewrite lookup_app_l.
    + rewrite Forall_forall in Hrun. apply Hrun. by eapply list_elem_of_lookup_2.
Qed.

Lemma skipWhitespace_leading ws input :
  all_space ws ->
  skipWhitespace (ws ++ input) 0 = shift (length ws) (skipWhitespace input 0).
Proof.
  intros Hws. unfold skipWhitespace. simpl. f_equal.
  rewrite size_app, !Nat.sub_0_r.
  rewrite <- (scan_shift ws input isspace (size input) 0), Nat.add_0_r.
  rewrite <- (scan_through isspace ws input (size input) 0 Hws) by lia.
  by rewrite Nat.sub_0_r.
Qed.

Lemma parse_leading ws input :
  all_space ws ->
  JSONParser.parse (ws ++ input) = shift (length ws) (JSONParser.parse input).
Proof.
  intros Hws. unfold JSONParser.parse.
  pose proof (skipWhitespace_leading _ input Hws) as E'.
  pose proof (skipWhitespace_ok input 0 ltac:(lia)) as Hs.
  destruct (skipWhitespace input 0) as [[] q| |] eqn:E; [|done..].
  simpl in Hs, E'.
  rewrite (bind_Ok _ _ _ _ _ E), (bind_Ok _ _ _ _ _ E').
  rewrite size_app.
  apply bind_shift.
  { rewrite (parseValue_budget (ws ++ input) (S (size input)))
      by (rewrite ?size_app; lia).
    apply parseValue_shift. }
  intros v p _.
  apply bind_shift; [apply skipWhitespace_shift|]. intros [] p1 _.
  unfold bind, getpos.
  replace (length ws + p1 =? length ws + size input)%nat with (p1 =? size input)%nat
    by (destruct (p1 =? size input)%nat eqn:E1; symmetry;
        [apply Nat.eqb_eq in E1; apply Nat.eqb_eq|apply Nat.eqb_neq in E1; apply Nat.eqb_neq];
        lia).
  by destruct (_ =? _)%nat.
Qed.

(** X1. The parser reads nothing before the cursor: with any text put in front
    of the input and the cursor moved along, [parseValue], [parseString] and
    [parseNumber] run as before, the cursor they leave moved by the same
    amount. *)
Theorem parser_ignores_text_before_cursor (pre input : list ascii) (pos : nat) :
  (forall fuel,
     parseValue (pre ++ input) fuel (length pre + pos)
       = shift (length pre) (parseValue input fuel pos))
  /\ parseString (pre ++ input) (length pre + pos)
       = shift (length pre) (parseString input pos)
  /\ parseNumber (pre ++ input) (length pre + pos)
       = shift (length pre) (parseNumber input pos).
Proof.
  split; [|split].
  - intros fuel. apply parseValue_shift.
  - apply parseString_shift.
  - apply parseNumber_shift.
Qed.

(** X2. Whitespace before the document is ignored: [parse] gives the same
    value, or raises the same exception, with and without it. *)
Theorem parse_leading_whitespace (ws : list ascii) (text : string) :
  all_space ws ->
  parse_text (string_of_list_ascii (ws ++ chars text)) = parse_text text.
Proof.
  intros Hws. unfold parse_text. rewrite chars_of_list.
  by rewrite (parse_leading _ _ Hws), observe_shift.
Qed.

Lemma parse_leading_whitespace_witness :
  all_space [" "; newline; "009"]
  /\ parse_text (string_of_list_ascii ([" "; newline; "009"] ++ chars "[1,-]"))
     = Raised (invalid_argument "stod").
Proof.
  assert (all_space [" "; newline; "009"]) as Hws by (by repeat constructor).
  split; [exact Hws|].
  exact (eq_trans (parse_leading_whitespace _ "[1,-]" Hws) eq_refl).
Defined.

Lemma scan_idem (input : list ascii) p pos :
  let q := scan input p (size input - pos) pos in
  scan input p (size input - q) q = q.
Proof.
  intros q. destruct (decide (pos <= size input)) as [Hpos|Hpos].
  - destruct (scan_exit input p pos Hpos) as [_ Hq]. fold q in Hq.
    clearbody q. destruct Hq as [Hq|(c & Hc & Hp)].
    + rewrite Hq, Nat.sub_diag. reflexivity.
    + destruct (size input - q) as [|n]; [done|]. simpl. by rewrite Hc, Hp.
  - assert (q = pos) as ->
      by (subst q; by replace (size input - pos) with 0 by lia).
    by replace (size input - pos) with 0 by lia.
Qed.

(** X3. [skipWhitespace] is idempotent, and [parseValue], which starts by
    skipping whitespace itself, absorbs a [skipWhitespace] made right
    before it, as in [parse] and in [parseObject]. *)
Theorem skipWhitespace_absorbed (input : list ascii) (fuel pos : nat) :
  (skipWhitespace input >> skipWhitespace input) pos = skipWhitespace input pos
  /\ (skipWhitespace input >> parseValue input fuel) pos
     = parseValue input fuel pos.
Proof.
  set (q := scan input isspace (size input - pos) pos).
  assert (skipWhitespace input pos = Ok tt q) as E by reflexivity.
  assert (skipWhitespace input q = Ok tt q) as E'
    by (unfold skipWhitespace; f_equal; apply scan_idem).
  split; [by rewrite (bind_Ok _ _ _ _ _ E)|].
  rewrite (bind_Ok _ _ _ _ _ E).
  destruct fuel as [|fuel]; [reflexivity|]. cbn [parseValue].
  by rewrite (bind_Ok _ _ _ _ _ E), (bind_Ok _ _ _ _ _ E').
Qed.

Lemma peek_drop (input : list ascii) pos :
  peek input pos = Ok (match drop pos input with c :: _ => c | [] => NUL end) pos.
Proof.
  destruct (drop pos input) as [|c rest] eqn:E.
  - by apply peek_nil.
  - by eapply peek_cons.
Qed.

Lemma parseValue_no_value (input : list ascii) fuel pos :
  pos <= size input -> opens_no_value (drop pos input) ->
  parseValue input (S fuel) pos = Throw (runtime_error msg_invalid_value) pos.
Proof.
  intros Hpos (Hsp & Hhead & Ht & Hf & Hn). cbn [parseValue].
  rewrite (bind_Ok _ _ _ _ _ (skipWhitespace_stay _ _ _ eq_refl Hsp)).
  rewrite (bind_Ok _ _ _ _ _ (peek_drop input pos)).
  assert (let c := match drop pos input with c :: _ => c | [] => NUL end in
          eqc c dquote = false /\ eqc c "{" = false /\ eqc c "[" = false /\
          isdigit c || eqc c "-" = false) as (H1 & H2 & H3 & H4).
  { destruct (drop pos input) as [|c rest]; [done|]. simpl in Hhead. cbv zeta.
    destruct (eqc c dquote); [done|]. destruct (eqc c "{"); [done|].
    destruct (eqc c "["); [done|]. simpl in Hhead.
    destruct (isdigit c); [done|]. by destruct (eqc c "-"). }
  rewrite H1, H2, H3, H4.
  rewrite (bind_Ok _ _ _ _ _ (compare_false _ _ _ _ Hpos Ht)).
  rewrite (bind_Ok _ _ _ _ _ (compare_false _ _ _ _ Hpos Hf)).
  by rewrite (bind_Ok _ _ _ _ _ (compare_false _ _ _ _ Hpos Hn)).
Qed.

(** X4. When the first character after the leading whitespace opens no value
    production, [parse] raises "Invalid JSON value". *)
Theorem parse_no_value_production (ws text : list ascii) :
  all_space ws -> opens_no_value text ->
  parse_text (string_of_list_ascii (ws ++ text))
    = Raised (runtime_error msg_invalid_value).
Proof.
  intros Hws Hno. unfold parse_text, JSONParser.parse. rewrite chars_of_list.
  set (input := ws ++ text).
  assert (drop (length ws) input = text) as Hd by apply drop_app_length.
  rewrite (bind_Ok _ _ _ _ _
    (skipWhitespace_app input ws text 0 ltac:(by rewrite drop_0) Hws (proj1 Hno))).
  rewrite (bind_Throw _ _ _ _ _
    (parseValue_no_value input _ (0 + length ws)
       ltac:(unfold size, input; rewrite length_app; lia)
       ltac:(simpl; by rewrite Hd))).
  reflexivity.
Qed.

Lemma parse_no_value_production_witness :
  all_space [" "] /\ opens_no_value (chars "True")
  /\ parse_text (string_of_list_ascii ([" "] ++ chars "True"))
     = Raised (runtime_error msg_invalid_value).
Proof.
  assert (all_space [" "]) as Hws by (by repeat constructor).
  assert (opens_no_value (chars "True")) as Hno by (by repeat split).
  split; [exact Hws|]. split; [exact Hno|].
  exact (parse_no_value_production [" "] (chars "True") Hws Hno).
Defined.

Lemma bind_inv_Ok {A B} (m : M A) (f : A -> M B) pos b p :
  bind m f pos = Ok b p -> exists a p', m pos = Ok a p' /\ f a p' = Ok b p.
Proof.
  unfold bind. destruct (m pos) as [a p'| |]; [|done..]. eauto.
Qed.

(** The characters a scan passes satisfy its predicate. *)
Lemma scan_segment (input : list ascii) p pos :
  pos <= size input ->
  let q := scan input p (size input - pos) pos in
  Forall (fun c => p c = true) (take (q - pos) (drop pos input)).
Proof.
  intros Hpos q. destruct (scan_exit input p pos Hpos) as [Hall _].
  fold q in Hall. apply Forall_lookup. intros i c Hi.
  pose proof (lookup_lt_Some _ _ _ Hi) as Hlt. rewrite length_take in Hlt.
  rewrite lookup_take_lt, lookup_drop in Hi by lia.
  destruct (Hall (pos + i)) as (c' & Hc' & Hp); [lia|]. congruence.
Qed.

(** A document: whitespace, the text of one value, whitespace. *)
Lemma parse_document (input ws1 text ws2 : list ascii) v :
  input = ws1 ++ text ++ ws2 -> all_space ws1 -> all_space ws2 ->
  value_head text ->
  parseValue input (S (size input)) (length ws1)
    = Ok v (length ws1 + length text) ->
  JSONParser.parse input = Ok v (size input).
Proof.
  intros Hin Hws1 Hws2 (c & t & Htext & Hc) Hv. unfold JSONParser.parse.
  rewrite (bind_Ok _ _ _ _ _
    (skipWhitespace_app input ws1 (text ++ ws2) 0
       ltac:(by rewrite drop_0) Hws1 ltac:(by rewrite Htext))).
  simpl. rewrite (bind_Ok _ _ _ _ _ Hv).
  assert (drop (length ws1 + length text) input = ws2 ++ []) as Hd.
  { rewrite app_nil_r, Hin, app_assoc, <- length_app. apply drop_app_length. }
  rewrite (bind_Ok _ _ _ _ _ (skipWhitespace_app input ws2 [] _ Hd Hws2 I)).
  assert (length ws1 + length text + length ws2 = size input) as ->
    by (unfold size; rewrite Hin, !length_app; lia).
  unfold bind, getpos. by rewrite Nat.eqb_refl.
Qed.

Lemma parseValue_keyword (input : list ascii) fuel pos v kw rest :
  keyword v = Some kw -> drop pos input = kw ++ rest ->
  parseValue input (S fuel) pos = Ok v (pos + length kw).
Proof.
  intros Hkw Hd. destruct v as [|[]| | | |]; simpl in Hkw; try done;
    injection Hkw as <-.
  - by apply (parseValue_null _ _ _ rest).
  - by apply (parseValue_true _ _ _ rest).
  - by apply (parseValue_false _ _ _ rest).
Qed.

Lemma keyword_head v kw : keyword v = Some kw -> value_head kw.
Proof.
  destruct v as [|[]| | | |]; simpl; try done; intros [= <-]; by eexists _, _.
Qed.

(** The only runs of [parseValue] that return [Null] or a [Bool] are the
    ones that matched the keyword at the cursor. *)
Lemma parseValue_keyword_inv (input : list ascii) fuel pos v kw p :
  keyword v = Some kw ->
  parseValue input fuel pos = Ok v p ->
  let q := scan input isspace (size input - pos) pos in
  take (length kw) (drop q input) = kw /\ p = q + length kw.
Proof.
  intros Hkw Hv q. destruct fuel as [|fuel]; [done|]. cbn [parseValue] in Hv.
  assert (skipWhitespace input pos = Ok tt q) as E by reflexivity.
  rewrite (bind_Ok _ _ _ _ _ E) in Hv. clearbody q. clear E.
  unfold bind at 1, peek at 1 in Hv.
  destruct (eqc _ dquote).
  { apply bind_inv_Ok in Hv as (s & p' & _ & [= <- _]). done. }
  destruct (eqc _ "{").
  { apply bind_inv_Ok in Hv as (s & p' & _ & [= <- _]). done. }
  destruct (eqc _ "[").
  { apply bind_inv_Ok in Hv as (s & p' & _ & [= <- _]). done. }
  destruct (_ || _).
  { apply bind_inv_Ok in Hv as (s & p' & _ & [= <- _]). done. }
  apply bind_inv_Ok in Hv as (t & p3 & Ht & Hv). unfold compare in Ht.
  destruct (size input <? q)%nat eqn:Eq; [done|]. injection Ht as <- <-.
  match type of Hv with context [bool_decide ?P] =>
    destruct (bool_decide P) eqn:Et end.
  { unfold bind, advance, ret in Hv. apply bool_decide_eq_true in Et.
    by simplify_eq/=. }
  apply bind_inv_Ok in Hv as (f & p4 & Hf & Hv). unfold compare in Hf.
  rewrite Eq in Hf. injection Hf as <- <-.
  match type of Hv with context [bool_decide ?P] =>
    destruct (bool_decide P) eqn:Ef end.
  { unfold bind, advance, ret in Hv. apply bool_decide_eq_true in Ef.
    by simplify_eq/=. }
  apply bind_inv_Ok in Hv as (n & p5 & Hn & Hv). unfold compare in Hn.
  rewrite Eq in Hn. injection Hn as <- <-.
  match type of Hv with context [bool_decide ?P] =>
    destruct (bool_decide P) eqn:En end; [|done].
  unfold bind, advance, ret in Hv. apply bool_decide_eq_true in En.
  by simplify_eq/=.
Qed.

(** X5. [parse] returns [Null], [Bool true] or [Bool false] exactly for the
    documents made of the keyword with whitespace around it. *)
Theorem keyword_documents (text : string) (v : JSONValue) (kw : list ascii) :
  keyword v = Some kw ->
  parse_text text = Returned v <->
  exists ws1 ws2,
    all_space ws1 /\ all_space ws2 /\ chars text = ws1 ++ kw ++ ws2.
Proof.
  intros Hkw. unfold parse_text. set (input := chars text). split.
  - intros Hret.
    destruct (JSONParser.parse input) as [v' pend| |] eqn:Hparse; try done.
    injection Hret as ->. unfold JSONParser.parse in Hparse.
    set (q := scan input isspace (size input - 0) 0).
    assert (skipWhitespace input 0 = Ok tt q) as E by reflexivity.
    rewrite (bind_Ok _ _ _ _ _ E) in Hparse.
    apply bind_inv_Ok in Hparse as (v' & p1 & Hv & Hrest).
    assert (v' = v) as ->.
    { apply bind_inv_Ok in Hrest as ([] & p2 & _ & Hrest).
      unfold bind, getpos in Hrest. destruct (negb _); [done|]. by injection Hrest. }
    pose proof (parseValue_keyword_inv input _ q v kw p1 Hkw Hv) as Hinv.
    cbv zeta in Hinv.
    pose proof (scan_idem input isspace 0) as Hidem. cbv zeta in Hidem.
    fold q in Hidem. rewrite Hidem in Hinv. destruct Hinv as [Htake ->].
    pose proof (scan_bound input isspace (size input - 0) 0 ltac:(lia)) as Hq.
    fold q in Hq.
    assert (q + length kw <= size input) as Hle.
    { apply (f_equal length) in Htake.
      rewrite length_take, length_drop in Htake. unfold size in Hq |- *. lia. }
    set (p1 := q + length kw) in *.
    set (p2 := scan input isspace (size input - p1) p1).
    assert (skipWhitespace input p1 = Ok tt p2) as E2 by reflexivity.
    rewrite (bind_Ok _ _ _ _ _ E2) in Hrest.
    unfold bind, getpos in Hrest.
    destruct (p2 =? size input)%nat eqn:Eend; [|done].
    apply Nat.eqb_eq in Eend.
    exists (take q input), (drop p1 input). split; [|split].
    + pose proof (scan_segment input isspace 0 ltac:(lia)) as Hseg.
      cbv zeta in Hseg. fold q in Hseg.
      by rewrite Nat.sub_0_r, drop_0 in Hseg.
    + pose proof (scan_segment input isspace p1 Hle) as Hseg.
      cbv zeta in Hseg. fold p2 in Hseg. rewrite Eend in Hseg.
      rewrite take_ge in Hseg; [done|]. rewrite length_drop. unfold size. lia.
    + rewrite <- (take_drop q input) at 1. f_equal.
      rewrite <- (take_drop (length kw) (drop q input)) at 1.
      rewrite Htake. f_equal. rewrite drop_drop. done.
  - intros (ws1 & ws2 & Hws1 & Hws2 & Hin).
    erewrite (parse_document input ws1 kw ws2 v Hin Hws1 Hws2);
      [done|by eapply keyword_head|].
    apply (parseValue_keyword _ _ _ _ _ ws2 Hkw).
    rewrite Hin. apply drop_app_length.
Qed.

Lemma keyword_documents_witness :
  keyword (JBool false) = Some (chars "false")
  /\ (parse_text (String " " (String "f" (String "a" (String "l" (String "s"
        (String "e" (String newline EmptyString)))))))
      = Returned (JBool false) <->
      exists ws1 ws2,
        all_space ws1 /\ all_space ws2 /\
        chars (String " " (String "f" (String "a" (String "l" (String "s"
          (String "e" (String newline EmptyString)))))))
        = ws1 ++ chars "false" ++ ws2).
Proof.
  split; [reflexivity|].
  exact (keyword_documents _ (JBool false) (chars "false") eq_refl).
Defined.

Lemma value_text_head text v :
  value_text text v ->
  exists c t, text = c :: t /\ isspace c = false /\ eqc c "]" = false.
Proof.
  destruct 1 as [v kw Hkw|t d Hwf _|body s _|ws _|its _ _|ws _|ms _ _].
  - destruct v as [|[]| | | |]; simpl in Hkw; try done; injection Hkw as <-;
      by eexists _, _.
  - destruct (token_head t Hwf) as (c & tl & Htok & _ & Hsp & _ & _ & _ & Hc).
    by exists c, tl.
  - by eexists _, _.
  - by eexists _, _.
  - by eexists _, _.
  - by eexists _, _.
  - by eexists _, _.
Qed.

Lemma all_space_delimited ws : all_space ws -> delimited ws.
Proof.
  intros Hws. destruct ws as [|w ws]; [done|].
  inversion Hws as [|? ? Hw _]; subst.
  by destruct (space_facts _ Hw) as (? & ? & _).
Qed.

Lemma item_text_in_items it its :
  it ∈ its -> length (i_text it) <= length (items_text its).
Proof.
  induction its as [|it' its IH]; intros Hin; [by apply not_elem_of_nil in Hin|].
  cbn [items_text]. len_simp.
  apply elem_of_cons in Hin as [<-|Hin]; [lia|].
  specialize (IH Hin). destruct its; [by apply not_elem_of_nil in Hin|].
  cbn [length]. lia.
Qed.

Section Grammar.
Variable input : list ascii.

Lemma value_text_reads_all :
  (forall text v, value_text text v ->
     forall fuel, length text <= fuel ->
       reads input (parseValue input fuel) text v)
  /\ (forall its, items_texts its ->
        forall fuel, (forall it, it ∈ its -> length (i_text it) <= fuel) ->
          Forall (item_ok input (parseValue input fuel)) its)
  /\ (forall ms, members_texts ms ->
        forall fuel, (forall m, m ∈ ms -> length (m_text m) <= fuel) ->
          Forall (member_ok input (parseValue input fuel)) ms).
Proof.
  apply value_text_mutind.
  - (* keyword *)
    intros v kw Hkw fuel Hfuel pos ws rest Hws Hdel Hd.
    destruct (keyword_head _ _ Hkw) as (c & t & Hhead & Hc).
    destruct fuel as [|fuel]; [rewrite Hhead in Hfuel; simpl in Hfuel; lia|].
    rewrite (parseValue_ws input _ pos ws (kw ++ rest) Hws)
      by (done || by rewrite Hhead).
    apply drop_past in Hd.
    rewrite (parseValue_keyword _ _ _ _ _ rest Hkw Hd). f_equal.
  - (* number *)
    intros t d Hwf Hd fuel Hfuel pos ws rest Hws Hdel Hdrop.
    destruct (token_head t Hwf) as (c & tl & Hhead & _ & Hc & _).
    destruct fuel as [|fuel]; [rewrite Hhead in Hfuel; simpl in Hfuel; lia|].
    rewrite (parseValue_ws input _ pos ws (token t ++ rest) Hws)
      by (done || by rewrite Hhead).
    apply drop_past in Hdrop.
    rewrite (parseValue_number _ _ _ t rest Hwf); [by rewrite Hd| |done].
    destruct Hdel as [H1 H2]. split; [done|]. by intros _.
  - (* string *)
    intros body s Hs fuel Hfuel pos ws rest Hws Hdel Hd.
    destruct fuel as [|fuel]; [simpl in Hfuel; lia|].
    rewrite (parseValue_ws input _ pos ws ((dquote :: body ++ [dquote]) ++ rest) Hws)
      by done.
    apply drop_past in Hd.
    rewrite (parseValue_string_closed _ _ _ body s rest Hs)
      by (rewrite Hd; simpl; by rewrite <- app_assoc).
    f_equal. simpl. rewrite length_app. simpl. lia.
  - (* the empty array *)
    intros ws0 Hws0 fuel Hfuel pos ws rest Hws Hdel Hd.
    destruct fuel as [|fuel]; [simpl in Hfuel; lia|].
    rewrite (parseValue_ws input _ pos ws (("[" :: ws0 ++ ["]"]) ++ rest) Hws)
      by done.
    apply drop_past in Hd.
    assert (drop (pos + length ws) input = "[" :: ws0 ++ "]" :: rest) as Hd'
      by (rewrite Hd; simpl; by rewrite <- app_assoc).
    rewrite (parseValue_array _ _ _ _ Hd').
    rewrite (bind_Ok _ _ _ _ _ (parseArray_empty _ _ _ _ _ Hws0 Hd')).
    unfold ret. f_equal. simpl. rewrite length_app. simpl. lia.
  - (* an array with elements *)
    intros its Hne Hits IH fuel Hfuel pos ws rest Hws Hdel Hd.
    destruct fuel as [|fuel]; [simpl in Hfuel; lia|].
    rewrite (parseValue_ws input _ pos ws (("[" :: items_text its) ++ rest) Hws)
      by done.
    apply drop_past in Hd.
    assert (drop (pos + length ws) input = "[" :: items_text its ++ rest) as Hd'
      by (by rewrite Hd).
    rewrite (parseValue_array _ _ _ _ Hd').
    destruct its as [|it its]; [done|].
    assert (Forall (item_ok input (parseValue input fuel)) (it :: its)) as Hok.
    { apply IH. intros it' Hin. pose proof (item_text_in_items _ _ Hin).
      cbn [length] in Hfuel. lia. }
    assert (exists c t, i_text it = c :: t /\ isspace c = false /\ eqc c "]" = false)
      as Hhead.
    { inversion Hits as [|? ? _ _ Hv _]; subst. by eapply value_text_head. }
    rewrite (bind_Ok _ _ _ _ _ (parseArray_items _ _ it its _ rest Hok Hhead Hd')).
    unfold ret. f_equal. simpl. lia.
  - (* the empty object *)
    intros ws0 Hws0 fuel Hfuel pos ws rest Hws Hdel Hd.
    destruct fuel as [|fuel]; [simpl in Hfuel; lia|].
    rewrite (parseValue_ws input _ pos ws (("{" :: ws0 ++ ["}"]) ++ rest) Hws)
      by done.
    apply drop_past in Hd.
    assert (drop (pos + length ws) input = "{" :: ws0 ++ "}" :: rest) as Hd'
      by (rewrite Hd; simpl; by rewrite <- app_assoc).
    rewrite (parseValue_object _ _ _ _ Hd').
    rewrite (bind_Ok _ _ _ _ _ (parseObject_empty _ _ _ _ _ Hws0 Hd')).
    unfold ret. f_equal. simpl. rewrite length_app. simpl. lia.
  - (* an object with members *)
    intros ms Hne _ IH fuel Hfuel pos ws rest Hws Hdel Hd.
    destruct fuel as [|fuel]; [simpl in Hfuel; lia|].
    rewrite (parseValue_ws input _ pos ws (("{" :: members_text ms) ++ rest) Hws)
      by done.
    apply drop_past in Hd.
    assert (drop (pos + length ws) input = "{" :: members_text ms ++ rest) as Hd'
      by (by rewrite Hd).
    rewrite (parseValue_object _ _ _ _ Hd').
    destruct ms as [|m ms]; [done|].
    assert (Forall (member_ok input (parseValue input fuel)) (m :: ms)) as Hok.
    { apply IH. intros m' Hin. pose proof (member_text_in_members _ _ Hin).
      cbn [length] in Hfuel. lia. }
    rewrite (bind_Ok _ _ _ _ _ (parseObject_members _ _ m ms _ rest Hok Hd')).
    unfold ret. f_equal. simpl. lia.
  - (* no element *)
    intros fuel _. constructor.
  - (* an element *)
    intros it its Hlead Htrail _ IHv _ IHits fuel Hfuel. constructor.
    + split; [done|]. split; [done|]. apply IHv. apply Hfuel. by left.
    + apply IHits. intros it' Hin. apply Hfuel. by right.
  - (* no member *)
    intros fuel _. constructor.
  - (* a member *)
    intros m ms Hlead Hkey Hg1 Hg2 Hv IHv Htrail _ IHms fuel Hfuel. constructor.
    + do 4 (split; [done|]). split; [|split; [|done]].
      * destruct (value_text_head _ _ Hv) as (c & t & Ht & Hc & _). by exists c, t.
      * apply IHv. apply Hfuel. by left.
    + apply IHms. intros m' Hin. apply Hfuel. by right.
Qed.
End Grammar.

Lemma parse_value_text (ws1 text ws2 : list ascii) v :
  value_text text v -> all_space ws1 -> all_space ws2 ->
  JSONParser.parse (ws1 ++ text ++ ws2) = Ok v (size (ws1 ++ text ++ ws2)).
Proof.
  intros Hv Hws1 Hws2. set (input := ws1 ++ text ++ ws2).
  apply (parse_document input ws1 text ws2 v eq_refl Hws1 Hws2).
  - destruct (value_text_head _ _ Hv) as (c & t & Ht & Hc & _). by exists c, t.
  - pose proof (proj1 (value_text_reads_all input) text v Hv (S (size input))) as Hr.
    rewrite (Hr ltac:(unfold size, input; rewrite !length_app; lia)
               (length ws1) [] ws2 ltac:(constructor)
               (all_space_delimited _ Hws2)).
    + f_equal. simpl. lia.
    + simpl. unfold input. apply drop_app_length.
Qed.

(** X6. Every text of the grammar [value_text], with any whitespace before
    and after it, is a document [parse] accepts, and [parse] returns the
    value the grammar gives the text: array elements in the order of the
    text, object members inserted in the order of the text. *)
Theorem parse_accepts_grammar (ws1 text ws2 : list ascii) (v : JSONValue) :
  value_text text v -> all_space ws1 -> all_space ws2 ->
  parse_text (string_of_list_ascii (ws1 ++ text ++ ws2)) = Returned v.
Proof.
  intros Hv Hws1 Hws2. unfold parse_text. rewrite chars_of_list.
  by rewrite (parse_value_text ws1 text ws2 v Hv Hws1 Hws2).
Qed.

Lemma parse_accepts_grammar_witness :
  let its :=
    [ {| i_lead := []; i_text := chars "1"; i_val := JNumber (ldexp_Z 1 0);
         i_trail := [" "] |};
      {| i_lead := [newline]; i_text := dquote :: chars "a\n" ++ [dquote];
         i_val := JString (string_of_list_ascii ["a"; newline]);
         i_trail := [] |} ] in
  value_text ("[" :: items_text its) (JArray (map i_val its))
  /\ all_space [newline] /\ all_space [" "; "009"]
  /\ parse_text (string_of_list_ascii
                   ([newline] ++ ("[" :: items_text its) ++ [" "; "009"]))
     = Returned (JArray [JNumber (ldexp_Z 1 0);
                         JString (string_of_list_ascii ["a"; newline])]).
Proof.
  intros its.
  assert (value_text ("[" :: items_text its) (JArray (map i_val its))) as Hv.
  { apply value_text_array; [done|].
    constructor; [constructor|by repeat constructor| |].
    - apply (value_text_number (number_token false "1")); [|reflexivity].
      split; [by repeat constructor|]. split; [done|by right].
    - constructor; [by repeat constructor|constructor| |constructor].
      by apply (value_text_string (chars "a\n")). }
  assert (all_space [newline]) as H1 by (by repeat constructor).
  assert (all_space [" "; "009"]) as H2 by (by repeat constructor).
  split; [exact Hv|]. split; [exact H1|]. split; [exact H2|].
  exact (parse_accepts_grammar [newline] _ [" "; "009"] _ Hv H1 H2).
Defined.

Lemma stops_orb_l p1 p2 rest :
  stops (fun x => p1 x || p2 x) rest -> stops p1 rest.
Proof. destruct rest as [|c rest]; [done|]. simpl. by intros [? _]%orb_false_iff. Qed.

Lemma stops_orb_r p1 p2 rest :
  stops (fun x => p1 x || p2 x) rest -> stops p2 rest.
Proof. destruct rest as [|c rest]; [done|]. simpl. by intros [_ ?]%orb_false_iff. Qed.

Lemma items_comma_length its : length its <= length (items_comma its).
Proof.
  induction its as [|it its IH]; simpl; [lia|]. len_simp. lia.
Qed.

Lemma members_comma_length ms : length ms <= length (members_comma ms).
Proof.
  induction ms as [|m ms IH]; simpl; [lia|]. len_simp. lia.
Qed.

Lemma peek_stops (input : list ascii) pos p rest :
  drop pos input = rest -> stops p rest -> p NUL = false ->
  exists c, peek input pos = Ok c pos /\ p c = false.
Proof.
  intros Hd Hst Hnul. rewrite peek_drop, Hd.
  destruct rest as [|c rest]; eauto.
Qed.

Lemma get_stops (input : list ascii) pos p rest :
  drop pos input = rest -> stops p rest -> p NUL = false ->
  exists c q, get input pos = Ok c q /\ p c = false.
Proof.
  intros Hd Hst Hnul. destruct rest as [|c rest].
  - apply drop_nil_lookup in Hd. unfold get. rewrite Hd. eauto.
  - rewrite (get_cons _ _ _ _ Hd). eauto.
Qed.

Section LoopPrefix.
Variable input : list ascii.
Variable pv : M JSONValue.

Lemma parseArray_loop_prefix its :
  Forall (item_ok input pv) its ->
  forall n arr pos rest,
    drop pos input = items_comma its ++ rest ->
    parseArray_loop input pv (length its + n) arr pos =
      parseArray_loop input pv n (arr ++ map i_val its)
        (pos + length (items_comma its)).
Proof.
  induction its as [|it its IH]; intros Hok n arr pos rest Hd.
  - simpl. by rewrite app_nil_r, Nat.add_0_r.
  - inversion Hok as [|? ? (Hlead & Htrail & Hreads) Hok']; subst.
    cbn [length Nat.add parseArray_loop].
    cbn [items_comma] in Hd. rewrite <- !app_assoc in Hd.
    rewrite (bind_Ok _ _ _ _ _
      (Hreads pos (i_lead it) (i_trail it ++ "," :: items_comma its ++ rest) Hlead
         ltac:(by apply delimited_after) Hd)).
    assert (drop (pos + length (i_lead it) + length (i_text it)) input
            = i_trail it ++ "," :: items_comma its ++ rest) as Hd1.
    { rewrite <- Nat.add_assoc, <- length_app. apply drop_past.
      by rewrite <- app_assoc. }
    rewrite (bind_Ok _ _ _ _ _
      (skipWhitespace_app _ _ _ _ Hd1 Htrail ltac:(done))).
    apply drop_past in Hd1.
    rewrite (bind_Ok _ _ _ _ _ (peek_cons _ _ _ _ Hd1)).
    replace (eqc "," "]") with false by reflexivity.
    rewrite (bind_Ok _ _ _ _ _ (get_cons _ _ _ _ Hd1)).
    replace (eqc "," ",") with true by reflexivity. cbn [negb].
    apply drop_S_cons in Hd1.
    rewrite (IH Hok' n _ _ rest Hd1).
    f_equal.
    + by rewrite <- app_assoc.
    + cbn [items_comma]. len_simp. lia.
Qed.

End LoopPrefix.

Section ArrayErrors.
Variable input : list ascii.

Lemma parseArray_loop_ws fuel n arr pos ws rest :
  all_space ws -> stops isspace rest -> drop pos input = ws ++ rest ->
  parseArray_loop input (parseValue input fuel) n arr pos
    = parseArray_loop input (parseValue input fuel) n arr (pos + length ws).
Proof.
  intros Hws Hst Hd. destruct n as [|n]; [done|]. cbn [parseArray_loop].
  unfold bind at 1. rewrite (parseValue_ws input fuel pos ws rest Hws Hst Hd).
  reflexivity.
Qed.

Lemma parseArray_enter fuel pos ws rest :
  drop pos input = "[" :: ws ++ rest -> all_space ws ->
  stops (fun x => isspace x || eqc x "]") rest ->
  parseArray input (parseValue input fuel) pos
    = parseArray_loop input (parseValue input fuel) (S (length rest)) [] (S pos).
Proof.
  intros Hd Hws Hst. unfold parseArray.
  rewrite (bind_Ok _ _ _ _ _ (get_cons _ _ _ _ Hd)).
  replace (eqc "[" "[") with true by reflexivity. cbn [negb].
  apply drop_S_cons in Hd.
  rewrite (bind_Ok _ _ _ _ _
    (skipWhitespace_app _ _ _ _ Hd Hws (stops_orb_l _ _ _ Hst))).
  pose proof (drop_length_le _ _ _ _ Hd) as Hlen.
  pose proof (drop_past _ _ _ _ Hd) as Hd1.
  destruct (peek_stops input _ _ _ Hd1 Hst eq_refl) as (c & Hpeek & Hc).
  rewrite (bind_Ok _ _ _ _ _ Hpeek).
  apply orb_false_iff in Hc as [_ Hc]. rewrite Hc.
  replace (size input - (S pos + length ws)) with (length rest) by lia.
  symmetry. by apply (parseArray_loop_ws _ _ _ _ _ rest Hws (stops_orb_l _ _ _ Hst)).
Qed.

Lemma parseValue_array_raises fuel text e p :
  input = "[" :: text ->
  parseArray input (parseValue input fuel) 0 = Throw e p ->
  parseValue input (S fuel) 0 = Throw e p.
Proof.
  intros Hin Hp.
  rewrite (parseValue_array input fuel 0 text) by (by rewrite drop_0).
  by rewrite (bind_Throw _ _ _ _ _ Hp).
Qed.
End ArrayErrors.

Lemma items_texts_ok (input : list ascii) fuel its :
  items_texts its ->
  (forall it, it ∈ its -> length (i_text it) <= fuel) ->
  Forall (item_ok input (parseValue input fuel)) its.
Proof. intros H. by apply (proj1 (proj2 (value_text_reads_all input))). Qed.


Lemma item_text_in_comma it its :
  it ∈ its -> length (i_text it) <= length (items_comma its).
Proof.
  induction its as [|it' its IH]; intros Hin; [by apply not_elem_of_nil in Hin|].
  cbn [items_comma]. len_simp.
  apply elem_of_cons in Hin as [<-|Hin]; [lia|]. specialize (IH Hin). lia.
Qed.

Lemma items_comma_next its X :
  items_texts its -> (its = [] -> next_is_not "]" X) ->
  exists ws rest,
    items_comma its ++ X = ws ++ rest /\ all_space ws /\
    stops (fun x => isspace x || eqc x "]") rest /\ length its <= length rest.
Proof.
  intros Hits HX. destruct its as [|it its].
  - destruct (HX eq_refl) as (wsX & restX & -> & HwsX & HstX).
    exists wsX, restX. simpl. repeat split; [done..|lia].
  - inversion Hits as [|? ? Hlead _ Hv _]; subst.
    destruct (value_text_head _ _ Hv) as (c & t & Ht & Hc & Hc').
    exists (i_lead it), (i_text it ++ i_trail it ++ "," :: items_comma its ++ X).
    split; [cbn [items_comma]; by rewrite <- !app_assoc|]. split; [done|].
    split; [rewrite Ht; simpl; by rewrite Hc, Hc'|].
    pose proof (items_comma_length its). len_simp. lia.
Qed.



Section ErrorSamples.
#[local] Open Scope string_scope.

Lemma value_text_digit (s : string) d :
  wf_token (number_token false s) -> stod (chars s) = inr d ->
  value_text (chars s) (JNumber d).
Proof.
  intros Hwf Hd.
  assert (token (number_token false s) = chars s) as Htok
    by (unfold token; simpl; by rewrite app_nil_r).
  rewrite <- Htok. apply value_text_number; [done|by rewrite Htok].
Qed.

Lemma value_text_1 : value_text (chars "1") (JNumber (ldexp_Z 1 0)).
Proof.
  apply value_text_digit; [|reflexivity].
  split; [by repeat constructor|]. split; [done|by right].
Qed.

Lemma value_text_2 : value_text (chars "2") (JNumber (ldexp_Z 2 0)).
Proof.
  apply value_text_digit; [|reflexivity].
  split; [by repeat constructor|]. split; [done|by right].
Qed.

End ErrorSamples.

Lemma parseValue_no_value_ws (input : list ascii) fuel pos ws tail :
  pos <= size input -> all_space ws -> opens_no_value tail ->
  drop pos input = ws ++ tail ->
  parseValue input (S fuel) pos
    = Throw (runtime_error msg_invalid_value) (pos + length ws).
Proof.
  intros Hpos Hws Hno Hd.
  rewrite (parseValue_ws input _ pos ws tail Hws (proj1 Hno) Hd).
  pose proof (drop_length_le _ _ _ _ Hd) as Hlen.
  apply drop_past in Hd.
  apply parseValue_no_value; [lia|by rewrite Hd].
Qed.

Lemma opens_no_value_next c tail :
  opens_no_value tail -> stops (fun x => eqc x c) tail -> next_is_not c tail.
Proof.
  intros (Hsp & _) Hc. exists [], tail. split; [done|]. split; [constructor|].
  destruct tail as [|x tail]; [done|]. simpl in *. by rewrite Hsp, Hc.
Qed.

Lemma next_is_not_ws c ws tail :
  all_space ws -> next_is_not c tail -> next_is_not c (ws ++ tail).
Proof.
  intros Hws (ws' & rest & -> & Hws' & Hst). exists (ws ++ ws'), rest.
  split; [by rewrite app_assoc|]. split; [by apply Forall_app|done].
Qed.

(** X8. Where [parseArray] asks for an element (after the opening bracket or
    after a comma) and the text opens no value production, [parse] raises
    "Invalid JSON value": so for a trailing comma, for two commas in a
    row, and for an array cut short by the end of the input. *)
Theorem array_missing_element (its : list item) (ws tail : list ascii) :
  items_texts its -> all_space ws -> opens_no_value tail ->
  (its = [] -> stops (fun c => eqc c "]") tail) ->
  parse_text (string_of_list_ascii ("[" :: items_comma its ++ ws ++ tail))
    = Raised (runtime_error msg_invalid_value).
Proof.
  intros Hits Hws Hno Hfirst. unfold parse_text. rewrite chars_of_list.
  set (X := ws ++ tail).
  set (input := "["%char :: items_comma its ++ X).
  destruct (items_comma_next its X Hits) as (ws0 & rest & Hsplit & Hws0 & Hrest & Hlen).
  { intros E. apply next_is_not_ws; [done|]. apply opens_no_value_next; auto. }
  assert (Forall (item_ok input (parseValue input (size input))) its) as Hok.
  { apply items_texts_ok; [done|]. intros it' Hin.
    unfold size, input. cbn [length]. rewrite length_app.
    pose proof (item_text_in_comma _ _ Hin). lia. }
  enough (exists p, parseValue input (S (size input)) 0
                    = Throw (runtime_error msg_invalid_value) p) as [p Hthrow]
    by (by rewrite (parse_raises input _ _ "["%char _ eq_refl eq_refl Hthrow)).
  eexists. apply (parseValue_array_raises input _ (items_comma its ++ X)); [done|].
  assert (drop 0 input = "["%char :: ws0 ++ rest) as Hd0
    by (unfold input; cbn [drop]; by rewrite Hsplit).
  rewrite (parseArray_enter input _ 0 ws0 rest Hd0 Hws0 Hrest).
  replace (S (length rest)) with (length its + S (length rest - length its)) by lia.
  rewrite (parseArray_loop_prefix input _ its Hok _ [] 1 X) by (by unfold input).
  cbn [parseArray_loop]. apply bind_Throw.
  assert (size input = S (size input - 1)) as -> by (unfold size, input; simpl; lia).
  apply (parseValue_no_value_ws input _ _ ws tail); [|done..|].
  - unfold size, input. cbn [length]. rewrite length_app. lia.
  - unfold input. simpl. by rewrite drop_app_length.
Qed.

Section MissingElementSample.
#[local] Open Scope string_scope.

Lemma array_missing_element_witness :
  let it1 := {| i_lead := []; i_text := chars "1"; i_val := JNumber (ldexp_Z 1 0);
                i_trail := [] |} in
  items_texts [it1] /\ all_space (chars " ") /\ opens_no_value (chars "]")
  /\ ([it1] = [] -> stops (fun c => eqc c "]") (chars "]"))
  /\ parse_text "[1, ]" = Raised (runtime_error msg_invalid_value)
  /\ parse_text "[" = Raised (runtime_error msg_invalid_value).
Proof.
  intros it1.
  assert (items_texts [it1]) as Hits
    by (constructor; [constructor|constructor|exact value_text_1|constructor]).
  assert (all_space (chars " ")) as Hws by (by repeat constructor).
  assert (opens_no_value (chars "]")) as Hno by (by repeat split).
  assert ([it1] = [] -> stops (fun c => eqc c "]") (chars "]")) as Hfirst by done.
  split; [exact Hits|]. split; [exact Hws|]. split; [exact Hno|].
  split; [exact Hfirst|]. split.
  - exact (array_missing_element [it1] (chars " ") (chars "]") Hits Hws Hno Hfirst).
  - apply (array_missing_element [] [] []); [constructor|constructor| |done].
    by repeat split.
Defined.
End MissingElementSample.

Section ObjectLoop.
Variable input : list ascii.
Variable pv : M JSONValue.

(** The loop of [parseObject] up to the value of a member: the key is read
    and the colon found. *)
Lemma parseObject_loop_key n obj pos lead keytext key gap1 rest :
  all_space lead -> decode_body keytext = Some key -> all_space gap1 ->
  drop pos input = lead ++ dquote :: keytext ++ dquote :: gap1 ++ ":" :: rest ->
  parseObject_loop input pv (S n) obj pos =
    (skipWhitespace input >>
     v <- pv ;;
     let obj := <[string_of_list_ascii key := v]> obj in
     skipWhitespace input >>
     c <- peek input ;;
     if eqc c "}" then get input >> ret obj
     else
       c <- get input ;;
       if negb (eqc c ",") then throw (runtime_error msg_comma_object)
       else parseObject_loop input pv n obj)
      (pos + length lead + length keytext + 2 + length gap1 + 1).
Proof.
  intros Hlead Hkey Hg1 Hd. cbn [parseObject_loop].
  rewrite (bind_Ok _ _ _ _ _ (skipWhitespace_app _ _ _ _ Hd Hlead isspace_dquote)).
  apply drop_past in Hd.
  rewrite (bind_Ok _ _ _ _ _ (parseString_closed _ _ _ _ _ Hkey Hd)).
  assert (drop (pos + length lead + length keytext + 2) input
          = gap1 ++ ":" :: rest) as Hd1.
  { replace (pos + length lead + length keytext + 2)
      with (pos + length lead + length (dquote :: keytext ++ [dquote]))
      by (simpl; rewrite length_app; simpl; lia).
    apply drop_past. rewrite Hd. simpl. by rewrite <- app_assoc. }
  rewrite (bind_Ok _ _ _ _ _ (skipWhitespace_app _ _ _ _ Hd1 Hg1 ltac:(done))).
  apply drop_past in Hd1.
  rewrite (bind_Ok _ _ _ _ _ (get_cons _ _ _ _ Hd1)).
  replace (eqc ":" ":") with true by reflexivity. cbn [negb].
  by replace (S (pos + length lead + length keytext + 2 + length gap1))
    with (pos + length lead + length keytext + 2 + length gap1 + 1) by lia.
Qed.

Lemma member_text_split m :
  member_text m
  = m_lead m ++ dquote :: m_keytext m ++ dquote :: m_gap1 m ++
    ":" :: (m_gap2 m ++ m_text m ++ m_trail m).
Proof. reflexivity. Qed.

Lemma parseObject_loop_prefix ms :
  Forall (member_ok input pv) ms ->
  forall n obj pos rest,
    drop pos input = members_comma ms ++ rest ->
    parseObject_loop input pv (length ms + n) obj pos =
      parseObject_loop input pv n (insert_members obj ms)
        (pos + length (members_comma ms)).
Proof.
  induction ms as [|m ms IH]; intros Hok n obj pos rest Hd.
  - simpl. by rewrite Nat.add_0_r.
  - inversion Hok as [|? ? (Hlead & Hkey & Hg1 & Hg2 & Hhead & Hreads & Htrail) Hok'];
      subst.
    cbn [length Nat.add].
    cbn [members_comma] in Hd. rewrite member_text_split in Hd.
    repeat (rewrite <- !app_assoc in Hd; cbn [app] in Hd).
    rewrite (parseObject_loop_key (length ms + n) obj pos _ _ _ _ _ Hlead Hkey Hg1 Hd).
    set (p := pos + length (m_lead m) + length (m_keytext m) + 2 + length (m_gap1 m) + 1).
    assert (drop p input
            = m_gap2 m ++ m_text m ++ m_trail m ++ "," :: members_comma ms ++ rest)
      as Hd1.
    { subst p.
      replace (pos + length (m_lead m) + length (m_keytext m) + 2 + length (m_gap1 m) + 1)
        with (pos + length (m_lead m ++ dquote :: m_keytext m ++ dquote :: m_gap1 m ++ [":"]))
        by (len_simp; lia).
      apply drop_past. rewrite Hd. by list_norm. }
    destruct Hhead as (h & t & Htext & Hh).
    assert (stops isspace (m_text m ++ m_trail m ++ "," :: members_comma ms ++ rest))
      as Hst by (by rewrite Htext).
    rewrite (bind_Ok _ _ _ _ _ (skipWhitespace_app _ _ _ _ Hd1 Hg2 Hst)).
    apply drop_past in Hd1.
    rewrite (bind_Ok _ _ _ _ _
      (Hreads _ [] (m_trail m ++ "," :: members_comma ms ++ rest) ltac:(constructor)
         ltac:(by apply delimited_after) Hd1)).
    cbn [length]. rewrite Nat.add_0_r.
    apply drop_past in Hd1.
    rewrite (bind_Ok _ _ _ _ _ (skipWhitespace_app _ _ _ _ Hd1 Htrail ltac:(done))).
    apply drop_past in Hd1.
    rewrite (bind_Ok _ _ _ _ _ (peek_cons _ _ _ _ Hd1)).
    replace (eqc "," "}") with false by reflexivity.
    rewrite (bind_Ok _ _ _ _ _ (get_cons _ _ _ _ Hd1)).
    replace (eqc "," ",") with true by reflexivity. cbn [negb].
    apply drop_S_cons in Hd1.
    rewrite (IH Hok' n _ _ rest Hd1).
    f_equal. subst p. cbn [members_comma]. unfold member_text. len_simp. lia.
Qed.

Lemma parseObject_loop_ws n obj pos ws rest :
  all_space ws -> stops isspace rest -> drop pos input = ws ++ rest ->
  parseObject_loop input pv n obj pos
    = parseObject_loop input pv n obj (pos + length ws).
Proof.
  intros Hws Hst Hd. destruct n as [|n]; [done|]. cbn [parseObject_loop].
  rewrite (bind_Ok _ _ _ _ _ (skipWhitespace_app _ _ _ _ Hd Hws Hst)).
  apply drop_past in Hd.
  by rewrite (bind_Ok _ _ _ _ _ (skipWhitespace_stay _ _ _ Hd Hst)).
Qed.

Lemma parseObject_enter pos ws rest :
  drop pos input = "{" :: ws ++ rest -> all_space ws ->
  stops (fun x => isspace x || eqc x "}") rest ->
  parseObject input pv pos
    = parseObject_loop input pv (S (length rest)) ∅ (S pos).
Proof.
  intros Hd Hws Hst. unfold parseObject.
  rewrite (bind_Ok _ _ _ _ _ (get_cons _ _ _ _ Hd)).
  replace (eqc "{" "{") with true by reflexivity. cbn [negb].
  apply drop_S_cons in Hd.
  rewrite (bind_Ok _ _ _ _ _
    (skipWhitespace_app _ _ _ _ Hd Hws (stops_orb_l _ _ _ Hst))).
  pose proof (drop_length_le _ _ _ _ Hd) as Hlen.
  pose proof (drop_past _ _ _ _ Hd) as Hd1.
  destruct (peek_stops input _ _ _ Hd1 Hst eq_refl) as (c & Hpeek & Hc).
  rewrite (bind_Ok _ _ _ _ _ Hpeek).
  apply orb_false_iff in Hc as [_ Hc]. rewrite Hc.
  replace (size input - (S pos + length ws)) with (length rest) by lia.
  symmetry. by apply (parseObject_loop_ws _ _ _ _ rest Hws (stops_orb_l _ _ _ Hst)).
Qed.

(** The four ways a round of the loop fails. *)
Lemma parseObject_loop_no_key n obj pos ws tail :
  all_space ws -> stops (fun c => isspace c || eqc c dquote) tail ->
  drop pos input = ws ++ tail ->
  exists p, parseObject_loop input pv (S n) obj pos
            = Throw (runtime_error msg_expected_quote) p.
Proof.
  intros Hws Hst Hd. cbn [parseObject_loop].
  rewrite (bind_Ok _ _ _ _ _
    (skipWhitespace_app _ _ _ _ Hd Hws (stops_orb_l _ _ _ Hst))).
  apply drop_past in Hd.
  destruct (get_stops input _ _ _ Hd Hst eq_refl) as (c & q & Hget & Hc).
  apply orb_false_iff in Hc as [_ Hc].
  exists q. apply bind_Throw. unfold parseString.
  rewrite (bind_Ok _ _ _ _ _ Hget). by rewrite Hc.
Qed.

Lemma parseObject_loop_no_colon n obj pos lead keytext key gap tail :
  all_space lead -> decode_body keytext = Some key -> all_space gap ->
  stops (fun c => isspace c || eqc c ":") tail ->
  drop pos input = lead ++ dquote :: keytext ++ dquote :: gap ++ tail ->
  exists p, parseObject_loop input pv (S n) obj pos
            = Throw (runtime_error msg_colon) p.
Proof.
  intros Hlead Hkey Hgap Hst Hd. cbn [parseObject_loop].
  rewrite (bind_Ok _ _ _ _ _ (skipWhitespace_app _ _ _ _ Hd Hlead isspace_dquote)).
  apply drop_past in Hd.
  rewrite (bind_Ok _ _ _ _ _ (parseString_closed _ _ _ _ _ Hkey Hd)).
  assert (drop (pos + length lead + length keytext + 2) input = gap ++ tail) as Hd1.
  { replace (pos + length lead + length keytext + 2)
      with (pos + length lead + length (dquote :: keytext ++ [dquote]))
      by (simpl; rewrite length_app; simpl; lia).
    apply drop_past. rewrite Hd. simpl. by rewrite <- app_assoc. }
  rewrite (bind_Ok _ _ _ _ _
    (skipWhitespace_app _ _ _ _ Hd1 Hgap (stops_orb_l _ _ _ Hst))).
  apply drop_past in Hd1.
  destruct (get_stops input _ _ _ Hd1 Hst eq_refl) as (c & q & Hget & Hc).
  apply orb_false_iff in Hc as [_ Hc].
  rewrite (bind_Ok _ _ _ _ _ Hget). rewrite Hc. by eexists.
Qed.

End ObjectLoop.

Section ObjectErrors.
Variable input : list ascii.

Lemma parseObject_loop_no_value fuel n obj pos lead keytext key gap1 gap2 tail :
  all_space lead -> decode_body keytext = Some key -> all_space gap1 ->
  all_space gap2 -> opens_no_value tail ->
  drop pos input
    = lead ++ dquote :: keytext ++ dquote :: gap1 ++ ":" :: gap2 ++ tail ->
  exists p, parseObject_loop input (parseValue input (S fuel)) (S n) obj pos
            = Throw (runtime_error msg_invalid_value) p.
Proof.
  intros Hlead Hkey Hg1 Hg2 Hno Hd.
  rewrite (parseObject_loop_key input _ n obj pos _ _ _ _ _ Hlead Hkey Hg1 Hd).
  set (p := pos + length lead + length keytext + 2 + length gap1 + 1).
  assert (drop p input = gap2 ++ tail) as Hd1.
  { subst p.
    replace (pos + length lead + length keytext + 2 + length gap1 + 1)
      with (pos + length (lead ++ dquote :: keytext ++ dquote :: gap1 ++ [":"]))
      by (len_simp; lia).
    apply drop_past. rewrite Hd. by list_norm. }
  assert (p <= size input) as Hp.
  { pose proof (drop_length_le _ _ _ _ Hd) as Hlen. revert Hlen. subst p.
    len_simp. lia. }
  clearbody p.
  rewrite (bind_Ok _ _ _ _ _ (skipWhitespace_app _ _ _ _ Hd1 Hg2 (proj1 Hno))).
  pose proof (drop_length_le _ _ _ _ Hd1) as Hlen.
  apply drop_past in Hd1.
  eexists. apply bind_Throw. apply parseValue_no_value; [lia|by rewrite Hd1].
Qed.

Lemma parseValue_object_raises fuel text e p :
  input = "{" :: text ->
  parseObject input (parseValue input fuel) 0 = Throw e p ->
  parseValue input (S fuel) 0 = Throw e p.
Proof.
  intros Hin Hp.
  rewrite (parseValue_object input fuel 0 text) by (by rewrite drop_0).
  by rewrite (bind_Throw _ _ _ _ _ Hp).
Qed.
End ObjectErrors.

Lemma members_texts_ok (input : list ascii) fuel ms :
  members_texts ms ->
  (forall m, m ∈ ms -> length (m_text m) <= fuel) ->
  Forall (member_ok input (parseValue input fuel)) ms.
Proof. intros H. by apply (proj2 (proj2 (value_text_reads_all input))). Qed.


Lemma member_text_in_comma m ms :
  m ∈ ms -> length (m_text m) <= length (members_comma ms).
Proof.
  induction ms as [|m' ms IH]; intros Hin; [by apply not_elem_of_nil in Hin|].
  cbn [members_comma]. len_simp.
  apply elem_of_cons in Hin as [<-|Hin].
  - unfold member_text. len_simp. lia.
  - specialize (IH Hin). lia.
Qed.

Lemma members_comma_next ms X :
  members_texts ms -> (ms = [] -> next_is_not "}" X) ->
  exists ws rest,
    members_comma ms ++ X = ws ++ rest /\ all_space ws /\
    stops (fun x => isspace x || eqc x "}") rest /\ length ms <= length rest.
Proof.
  intros Hms HX. destruct ms as [|m ms].
  - destruct (HX eq_refl) as (wsX & restX & -> & HwsX & HstX).
    exists wsX, restX. simpl. repeat split; [done..|lia].
  - inversion Hms as [|? ? Hlead ? ? ? ? ? ?]; subst.
    exists (m_lead m),
      (dquote :: m_keytext m ++ dquote :: m_gap1 m ++
       ":" :: m_gap2 m ++ m_text m ++ m_trail m ++ "," :: members_comma ms ++ X).
    split.
    { cbn [members_comma]. rewrite member_text_split. by list_norm. }
    split; [done|]. split; [done|].
    pose proof (members_comma_length ms). len_simp. lia.
Qed.

Lemma key_next lead rest :
  all_space lead -> next_is_not "}" (lead ++ dquote :: rest).
Proof. intros Hlead. by exists lead, (dquote :: rest). Qed.

(** What the object theorems share: the text up to the failing member is
    read, and the loop stands where that member starts. *)
Lemma parse_object_raises (ms : list member) (X : list ascii) e :
  members_texts ms -> (ms = [] -> next_is_not "}" X) ->
  let input := "{"%char :: members_comma ms ++ X in
  (forall n obj,
     Forall (member_ok input (parseValue input (size input))) ms ->
     exists p, parseObject_loop input (parseValue input (size input)) (S n) obj
                 (1 + length (members_comma ms)) = Throw e p) ->
  observe (JSONParser.parse input) = Raised e.
Proof.
  intros Hms HX input Hround.
  destruct (members_comma_next ms X Hms HX) as (ws & rest & Hsplit & Hws & Hrest & Hlen).
  assert (Forall (member_ok input (parseValue input (size input))) ms) as Hok.
  { apply members_texts_ok; [done|]. intros m' Hin.
    unfold size, input. cbn [length]. rewrite length_app.
    pose proof (member_text_in_comma _ _ Hin). lia. }
  destruct (Hround (length rest - length ms) (insert_members ∅ ms) Hok) as [p Hp].
  enough (parseValue input (S (size input)) 0 = Throw e p) as Hthrow
    by (by rewrite (parse_raises input _ _ "{"%char _ eq_refl eq_refl Hthrow)).
  apply (parseValue_object_raises input _ (members_comma ms ++ X)); [done|].
  assert (drop 0 input = "{"%char :: ws ++ rest) as Hd0
    by (unfold input; cbn [drop]; by rewrite Hsplit).
  rewrite (parseObject_enter input _ 0 ws rest Hd0 Hws Hrest).
  replace (S (length rest)) with (length ms + S (length rest - length ms)) by lia.
  rewrite (parseObject_loop_prefix input _ ms Hok _ ∅ 1 X) by (by unfold input).
  exact Hp.
Qed.

Lemma drop_object_prefix (ms : list member) (X : list ascii) :
  drop (1 + length (members_comma ms)) ("{"%char :: members_comma ms ++ X) = X.
Proof. simpl. by rewrite drop_app_length. Qed.

(** X9. Where [parseObject] asks for a member (after the opening brace or
    after a comma) and the next character is not a quote, [parse] raises
    the "Expected quote" error: so for a key without quotes, for a trailing
    comma, and for an object cut short by the end of the input. *)
Theorem object_key_not_quoted (ms : list member) (ws tail : list ascii) :
  members_texts ms -> all_space ws ->
  stops (fun c => isspace c || eqc c dquote) tail ->
  (ms = [] -> stops (fun c => eqc c "}") tail) ->
  parse_text (string_of_list_ascii ("{" :: members_comma ms ++ ws ++ tail))
    = Raised (runtime_error msg_expected_quote).
Proof.
  intros Hms Hws Hst Hfirst. unfold parse_text. rewrite chars_of_list.
  apply parse_object_raises; [done| |].
  - intros E. exists ws, tail. split; [done|]. split; [done|].
    specialize (Hfirst E). destruct tail as [|c tail]; [done|]. simpl in *.
    apply orb_false_iff in Hst as [-> _]. by rewrite Hfirst.
  - intros n obj _.
    apply (parseObject_loop_no_key _ _ _ _ _ ws tail Hws Hst), drop_object_prefix.
Qed.

(** X10. In an object, after a key and the whitespace that follows it, anything
    but a colon, the end of the input included, raises
    "Expected ':' after key". *)
Theorem object_missing_colon
    (ms : list member) (lead keytext key gap tail : list ascii) :
  members_texts ms -> all_space lead -> decode_body keytext = Some key ->
  all_space gap -> stops (fun c => isspace c || eqc c ":") tail ->
  parse_text (string_of_list_ascii
                ("{" :: members_comma ms ++
                 lead ++ dquote :: keytext ++ dquote :: gap ++ tail))
    = Raised (runtime_error msg_colon).
Proof.
  intros Hms Hlead Hkey Hgap Hst. unfold parse_text. rewrite chars_of_list.
  apply parse_object_raises; [done|intros _; by apply key_next|].
  intros n obj _.
  apply (parseObject_loop_no_colon _ _ _ _ _ lead keytext key gap tail);
    [done..|apply drop_object_prefix].
Qed.

(** X11. In an object, where the value of a member is due after the colon and
    the text opens no value production, [parse] raises
    "Invalid JSON value". *)
Theorem object_missing_value
    (ms : list member) (lead keytext key gap1 gap2 tail : list ascii) :
  members_texts ms -> all_space lead -> decode_body keytext = Some key ->
  all_space gap1 -> all_space gap2 -> opens_no_value tail ->
  parse_text (string_of_list_ascii
                ("{" :: members_comma ms ++
                 lead ++ dquote :: keytext ++ dquote :: gap1 ++
                 ":" :: gap2 ++ tail))
    = Raised (runtime_error msg_invalid_value).
Proof.
  intros Hms Hlead Hkey Hg1 Hg2 Hno. unfold parse_text. rewrite chars_of_list.
  apply parse_object_raises; [done|intros _; by apply key_next|].
  intros n obj _.
  match goal with |- context [parseValue ?i (size ?i)] =>
    assert (size i = S (size i - 1)) as -> by (unfold size; simpl; lia) end.
  apply (parseObject_loop_no_value _ _ _ _ _ lead keytext key gap1 gap2 tail);
    [done..|apply drop_object_prefix].
Qed.


Section ObjectErrorSamples.
#[local] Open Scope string_scope.

Lemma members_texts_a1 trail :
  all_space trail ->
  members_texts [plain_member "a" (chars "1") (JNumber (ldexp_Z 1 0)) trail].
Proof.
  intros Htrail.
  constructor; [constructor|reflexivity|constructor|constructor|
                exact value_text_1|exact Htrail|constructor].
Qed.

Lemma object_key_not_quoted_witness :
  let m := plain_member "a" (chars "1") (JNumber (ldexp_Z 1 0)) [] in
  members_texts [m] /\ all_space []
  /\ stops (fun c => isspace c || eqc c dquote) (chars "}")
  /\ ([m] = [] -> stops (fun c => eqc c "}") (chars "}"))
  /\ parse_text ("{" +:+ quoted "a" +:+ ":1,}")
     = Raised (runtime_error msg_expected_quote).
Proof.
  intros m.
  assert (members_texts [m]) as Hms by (apply members_texts_a1; constructor).
  assert (all_space []) as Hws by constructor.
  assert (stops (fun c => isspace c || eqc c dquote) (chars "}")) as Hst
    by reflexivity.
  assert ([m] = [] -> stops (fun c => eqc c "}") (chars "}")) as Hfirst by done.
  split; [exact Hms|]. split; [exact Hws|]. split; [exact Hst|].
  split; [exact Hfirst|].
  exact (object_key_not_quoted [m] [] (chars "}") Hms Hws Hst Hfirst).
Defined.

Lemma object_missing_colon_witness :
  members_texts [] /\ all_space [] /\ decode_body (chars "a") = Some (chars "a")
  /\ all_space (chars " ")
  /\ stops (fun c => isspace c || eqc c ":") (chars "1}")
  /\ parse_text ("{" +:+ quoted "a" +:+ " 1}") = Raised (runtime_error msg_colon).
Proof.
  assert (all_space (chars " ")) as Hgap by (by repeat constructor).
  split; [constructor|]. split; [constructor|]. split; [reflexivity|].
  split; [exact Hgap|]. split; [reflexivity|].
  exact (object_missing_colon [] [] (chars "a") (chars "a") (chars " ") (chars "1}")
           members_texts_nil (Forall_nil_2 _) eq_refl Hgap eq_refl).
Defined.

Lemma object_missing_value_witness :
  members_texts [] /\ all_space [] /\ decode_body (chars "a") = Some (chars "a")
  /\ opens_no_value (chars "}")
  /\ parse_text ("{" +:+ quoted "a" +:+ ":}")
     = Raised (runtime_error msg_invalid_value).
Proof.
  assert (opens_no_value (chars "}")) as Hno by (by repeat split).
  split; [constructor|]. split; [constructor|]. split; [reflexivity|].
  split; [exact Hno|].
  exact (object_missing_value [] [] (chars "a") (chars "a") [] [] (chars "}")
           members_texts_nil (Forall_nil_2 _) eq_refl (Forall_nil_2 _)
           (Forall_nil_2 _) Hno).
Defined.

End ObjectErrorSamples.

Lemma parse_printJSON order (v : JSONValue) indent (ws1 ws2 : list ascii) :
  (forall o, order o ≡ₚ keys_of o) -> printable v ->
  all_space ws1 -> all_space ws2 ->
  let input := ws1 ++ printJSON order v indent ++ ws2 in
  JSONParser.parse input = Ok v (size input).
Proof.
  intros Hperm Hp Hws1 Hws2 input.
  destruct (printJSON_head order v indent Hp) as (c & t & Hhead & Hc & _).
  apply (parse_document input ws1 (printJSON order v indent) ws2 v eq_refl Hws1 Hws2).
  { by exists c, t. }
  assert (depth v < S (size input)) as Hdepth.
  { pose proof (depth_lt_length order Hperm v Hp indent).
    unfold size, input. rewrite !length_app. lia. }
  rewrite (parseValue_printJSON order Hperm input v Hp indent (S (size input))
             Hdepth (length ws1) [] ws2 ltac:(constructor)
             (all_space_delimited _ Hws2)).
  - f_equal. simpl. lia.
  - simpl. unfold input. apply drop_app_length.
Qed.

(** X13. What [printJSON] writes for a printable tree, at any indentation and
    with any whitespace around it (such as the newline [main] prints after
    it), is read back by [parse] as the same tree. *)
Theorem printed_text_reads_back
    (order : gmap string JSONValue -> list string) (v : JSONValue)
    (indent : nat) (ws1 ws2 : list ascii) :
  (forall o, order o ≡ₚ keys_of o) -> printable v ->
  all_space ws1 -> all_space ws2 ->
  parse_text (string_of_list_ascii (ws1 ++ printJSON order v indent ++ ws2))
    = Returned v.
Proof.
  intros Hperm Hp Hws1 Hws2. unfold parse_text. rewrite chars_of_list.
  by rewrite (parse_printJSON order v indent ws1 ws2 Hperm Hp Hws1 Hws2).
Qed.

Lemma printed_text_reads_back_witness :
  (forall o, keys_of o ≡ₚ keys_of o) /\ printable sample_tree
  /\ all_space [" "] /\ all_space [newline]
  /\ parse_text (string_of_list_ascii
                   ([" "] ++ printJSON keys_of sample_tree 4 ++ [newline]))
     = Returned sample_tree.
Proof.
  assert (all_space [" "]) as H1 by (by repeat constructor).
  assert (all_space [newline]) as H2 by (by repeat constructor).
  split; [done|]. split; [exact sample_tree_printable|].
  split; [exact H1|]. split; [exact H2|].
  exact (printed_text_reads_back keys_of sample_tree 4 [" "] [newline]
           (fun o => reflexivity (keys_of o)) sample_tree_printable H1 H2).
Defined.

(** X14. [render] loses nothing on printable trees: two of them with the same
    rendering are the same tree. *)
Theorem render_injective
    (order : gmap string JSONValue -> list string) (v1 v2 : JSONValue) :
  (forall o, order o ≡ₚ keys_of o) -> printable v1 -> printable v2 ->
  render order v1 = render order v2 -> v1 = v2.
Proof.
  intros Hperm Hp1 Hp2 Heq.
  pose proof (parse_printJSON order v1 0 [] [] Hperm Hp1
                ltac:(constructor) ltac:(constructor)) as H1.
  pose proof (parse_printJSON order v2 0 [] [] Hperm Hp2
                ltac:(constructor) ltac:(constructor)) as H2.
  cbv zeta in H1, H2. simpl in H1, H2. rewrite !app_nil_r in H1, H2.
  unfold render in Heq. apply string_of_list_ascii_inj in Heq.
  rewrite Heq in H1. rewrite H1 in H2. by injection H2.
Qed.

Section InjectiveSample.
#[local] Open Scope string_scope.

Lemma render_injective_witness :
  let v1 := JObject (<["a" := JNull]> {["b" := JBool true]}) in
  let v2 := JObject (<["b" := JBool true]> {["a" := JNull]}) in
  (forall o, keys_of o ≡ₚ keys_of o) /\ printable v1 /\ printable v2
  /\ render keys_of v1 = render keys_of v2 /\ v1 = v2.
Proof.
  intros v1 v2.
  assert (printable v1) as Hp1.
  { apply printable_object. apply map_Forall_insert_2.
    - split; [by apply plain_literal|constructor].
    - apply map_Forall_singleton. split; [by apply plain_literal|constructor]. }
  assert (printable v2) as Hp2.
  { apply printable_object. apply map_Forall_insert_2.
    - split; [by apply plain_literal|constructor].
    - apply map_Forall_singleton. split; [by apply plain_literal|constructor]. }
  assert (render keys_of v1 = render keys_of v2) as Heq by (vm_compute; reflexivity).
  split; [done|]. split; [exact Hp1|]. split; [exact Hp2|]. split; [exact Heq|].
  exact (render_injective keys_of v1 v2 (fun o => reflexivity (keys_of o))
           Hp1 Hp2 Heq).
Defined.
End InjectiveSample.

Section DriverFacts.
#[local] Open Scope string_scope.

Lemma parse_jsonText : parse_text jsonText = Returned document.
Proof. vm_compute. reflexivity. Qed.

Lemma number_trips_21 : number_trips (ldexp_Z 21 0).
Proof.
  exists (number_token false "21").
  split; [|by split]. split; [by repeat constructor|]. split; [done|by right].
Qed.

Lemma document_printable : printable document.
Proof.
  apply printable_object.
  apply map_Forall_insert_2.
  { split; [by apply plain_literal|]. constructor. by apply plain_literal. }
  apply map_Forall_insert_2.
  { split; [by apply plain_literal|]. constructor. apply number_trips_21. }
  apply map_Forall_insert_2.
  { split; [by apply plain_literal|]. constructor. }
  apply map_Forall_insert_2.
  { split; [by apply plain_literal|]. constructor.
    repeat (constructor; [constructor; by apply plain_literal|]). constructor. }
  apply map_Forall_singleton. split; [by apply plain_literal|constructor].
Qed.

Lemma what_message (e : exn) :
  syntax_error e \/ stod_error e -> what e ∈ (syntax_messages ++ ["stod"])%list.
Proof.
  intros [(m & Hm & ->)|[-> | ->]]; cbn [what]; apply elem_of_app.
  - by left.
  - right. by left.
  - right. by left.
Qed.

(** X15. The program ends with status 0 on every document: it writes the
    rendering and a newline to [std::cout] when [parse] returns, and
    otherwise [Parse error: ], one of the nine messages of the parser or
    [stod], and a newline to [std::cerr]; no exception leaves [main]. On
    its own document it prints the object of five members, and what it
    prints is a document [parse] reads back as the same object. *)
Theorem main_output (order : gmap string JSONValue -> list string) :
  (forall o, order o ≡ₚ keys_of o) ->
  (forall text, exists r,
     run_document order text = Some r /\ status r = 0 /\
     match parse_text text with
     | Returned v => std_out r = (printJSON order v 0 ++ [newline])%list
                     /\ std_err r = []
     | Raised e =>
         std_out r = [] /\
         exists msg, msg ∈ (syntax_messages ++ ["stod"])%list /\
           std_err r = (chars "Parse error: " ++ chars msg ++ [newline])%list
     | Diverged => False
     end)
  /\ main order
     = Some {| std_out := (printJSON order document 0 ++ [newline])%list;
               std_err := []; status := 0 |}
  /\ parse_text (string_of_list_ascii (printJSON order document 0 ++ [newline])%list)
     = Returned document.
Proof.
  intros Hperm. split; [|split].
  - intros text. unfold run_document.
    pose proof (parse_failure_kinds text) as Hkinds.
    pose proof (parse_sound (chars text)) as Hsound.
    unfold parse_text in *.
    destruct (JSONParser.parse (chars text)) as [v p|e p|]; simpl in *; [| |done].
    + eexists. by repeat split.
    + eexists. split; [done|]. split; [done|]. split; [done|].
      exists (what e). split; [|done]. apply what_message. by apply Hkinds.
  - unfold main, run_document. by rewrite parse_jsonText.
  - apply (printed_text_reads_back order document 0 [] [newline] Hperm
             document_printable); by repeat constructor.
Qed.

Lemma main_output_witness :
  (forall o, keys_of o ≡ₚ keys_of o)
  /\ main keys_of
     = Some {| std_out := (printJSON keys_of document 0 ++ [newline])%list;
               std_err := []; status := 0 |}.
Proof.
  split; [done|].
  exact (proj1 (proj2 (main_output keys_of (fun o => reflexivity (keys_of o))))).
Defined.
End DriverFacts.

Lemma print_entries_snoc indent total count es e :
  count + length es + 1 = total ->
  print_entries indent total count (es ++ [e])
    = concat (map (fun y => spaces (indent + 2) ++ y ++ [","; newline]) es) ++
      spaces (indent + 2) ++ e ++ [newline].
Proof.
  revert count. induction es as [|y es IH]; intros count Hlen.
  - simpl in *. replace (count =? total - 1)%nat with true
      by (symmetry; apply Nat.eqb_eq; lia).
    simpl. by list_norm.
  - cbn [app map concat]. rewrite print_entries_cons.
    replace (count =? total - 1)%nat with false
      by (symmetry; apply Nat.eqb_neq; simpl in Hlen; lia).
    rewrite (IH (S count)) by (simpl in Hlen; lia). by list_norm.
Qed.

(** X16. [printJSON] writes every element of an array, and every member of
    an object, on a line of its own, two spaces deeper than the construct,
    with a comma after each one but the last, and the closing bracket on a
    line of its own at the indentation of the construct. *)
Theorem printJSON_entry_lines (order : gmap string JSONValue -> list string) :
  (forall xs x indent,
     printJSON order (JArray (xs ++ [x])) indent
       = "[" :: newline ::
         concat (map (fun y => spaces (indent + 2) ++
                               printJSON order y (indent + 2) ++ [","; newline])
                     xs) ++
         spaces (indent + 2) ++ printJSON order x (indent + 2) ++
         newline :: spaces indent ++ ["]"])
  /\ (forall o kvs kv indent,
        (forall o, order o ≡ₚ keys_of o) ->
        visited order o = kvs ++ [kv] ->
        printJSON order (JObject o) indent
          = "{" :: newline ::
            concat (map (fun e => spaces (indent + 2) ++
                                  key_text e.1 (printJSON order e.2 (indent + 2)) ++
                                  [","; newline])
                        kvs) ++
            spaces (indent + 2) ++
            key_text kv.1 (printJSON order kv.2 (indent + 2)) ++
            newline :: spaces indent ++ ["}"]).
Proof.
  split.
  - intros xs x indent. rewrite printJSON_array, map_app. cbn [map].
    rewrite (print_entries_snoc indent _ 0) by (rewrite length_app, length_map; simpl; lia).
    rewrite map_map. by list_norm.
  - intros o kvs kv indent Hperm Hvis. rewrite printJSON_object, Hvis, map_app.
    cbn [map].
    rewrite (print_entries_snoc indent _ 0).
    + rewrite map_map. by list_norm.
    + rewrite <- (visited_length order Hperm o), Hvis, length_app, length_map.
      simpl. lia.
Qed.

Section EntryLinesSample.
#[local] Open Scope string_scope.

Lemma printJSON_entry_lines_witness :
  (forall o, keys_of o ≡ₚ keys_of o)
  /\ visited keys_of {["x" := JNull]} = ([] ++ [("x", JNull)])%list
  /\ printJSON keys_of (JObject {["x" := JNull]}) 2
     = ("{" :: newline :: spaces 4 ++ key_text "x" (chars "null") ++
        newline :: spaces 2 ++ ["}"])%char%list.
Proof.
  assert (visited keys_of {["x" := JNull]} = ([] ++ [("x", JNull)])%list) as Hvis
    by (apply visited_singleton; done).
  split; [done|]. split; [exact Hvis|].
  exact (proj2 (printJSON_entry_lines keys_of) {["x" := JNull]} [] ("x", JNull) 2
           (fun o => reflexivity (keys_of o)) Hvis).
Defined.
End EntryLinesSample.

Section NoNewline.
#[local] Open Scope Z_scope.

Lemma digit_char_no_newline d :
  0 <= d < 10 -> eqc (digit_char d) newline = false.
Proof.
  intros Hd.
  assert (d = 0 \/ d = 1 \/ d = 2 \/ d = 3 \/ d = 4 \/ d = 5 \/ d = 6 \/
          d = 7 \/ d = 8 \/ d = 9) as H by lia.
  repeat (destruct H as [->|H]; [reflexivity|]). by subst.
Qed.

Lemma dec_digits_no_newline k D : no_newline (dec_digits k D).
Proof.
  revert D. induction k as [|k IH]; intros D; [constructor|]. simpl.
  apply Forall_app. split; [apply IH|]. constructor; [|constructor].
  apply digit_char_no_newline. apply Z.mod_pos_bound. lia.
Qed.

Lemma drop_zeros_no_newline l : no_newline l -> no_newline (drop_zeros l).
Proof.
  induction 1 as [|c l Hc Hl IH]; [constructor|]. simpl.
  destruct (eqc c "0"); [done|by constructor].
Qed.

Lemma strip_zeros_no_newline l : no_newline l -> no_newline (strip_zeros l).
Proof.
  intros H. unfold strip_zeros. apply List.Forall_rev, drop_zeros_no_newline.
  by apply List.Forall_rev.
Qed.

Lemma with_point_no_newline ip fp :
  no_newline ip -> no_newline fp -> no_newline (with_point ip fp).
Proof.
  intros H1 H2. unfold with_point. destruct fp as [|c fp]; [done|].
  apply Forall_app. split; [done|]. by constructor.
Qed.

Lemma exponent_field_no_newline X : no_newline (exponent_field X).
Proof.
  unfold exponent_field. constructor; [done|].
  constructor; [by destruct (X <? 0)|].
  destruct (_ <? 100); apply dec_digits_no_newline.
Qed.

Lemma format_finite_no_newline neg m e : no_newline (format_finite neg m e).
Proof.
  unfold format_finite.
  set (num := if 0 <=? e then _ else _). set (den := if 0 <=? e then _ else _).
  set (X0 := dec_exponent num den). set (D0 := six_digits num den X0).
  destruct (if D0 =? 1000000 then _ else _) as [D X].
  pose proof (dec_digits_no_newline 6 D) as Hds.
  apply Forall_app. split; [destruct neg; by repeat constructor|].
  destruct (_ || _).
  - apply Forall_app. split; [|apply exponent_field_no_newline].
    apply with_point_no_newline; [by apply Forall_take|].
    apply strip_zeros_no_newline. by apply Forall_drop.
  - destruct (0 <=? X).
    + apply with_point_no_newline; [by apply Forall_take|].
      apply strip_zeros_no_newline. by apply Forall_drop.
    + apply with_point_no_newline; [by repeat constructor|].
      apply strip_zeros_no_newline, Forall_app. split; [|done].
      by apply Forall_replicate.
Qed.

Lemma format_double_no_newline d : no_newline (format_double d).
Proof.
  destruct d as [s|s| |s m e]; simpl.
  - destruct s; by repeat constructor.
  - destruct s; by repeat constructor.
  - by repeat constructor.
  - apply format_finite_no_newline.
Qed.
End NoNewline.

Lemma reindent_app k a b : reindent k (a ++ b) = reindent k a ++ reindent k b.
Proof.
  induction a as [|c a IH]; [done|]. simpl. rewrite IH.
  destruct (eqc c newline); [|done]. by list_norm.
Qed.

Lemma reindent_no_newline k l : no_newline l -> reindent k l = l.
Proof.
  induction 1 as [|c l Hc _ IH]; [done|]. simpl. by rewrite Hc, IH.
Qed.

Lemma spaces_no_newline n : no_newline (spaces n).
Proof. by apply Forall_replicate. Qed.

Lemma spaces_add n k : spaces k ++ spaces n = spaces (n + k).
Proof. unfold spaces. by rewrite <- replicate_add, Nat.add_comm. Qed.

Lemma reindent_entries k indent total count es close :
  eqc close newline = false ->
  spaces k ++
    reindent k (print_entries indent total count es ++ spaces indent ++ [close])
  = print_entries (indent + k) total count (map (reindent k) es) ++
    spaces (indent + k) ++ [close].
Proof.
  intros Hclose. revert count. induction es as [|e es IH]; intros count.
  - simpl. rewrite reindent_app, (reindent_no_newline _ _ (spaces_no_newline _)).
    simpl. rewrite Hclose. by rewrite app_assoc, spaces_add.
  - cbn [map]. rewrite !print_entries_cons.
    rewrite <- !app_assoc, !reindent_app.
    rewrite (reindent_no_newline _ _ (spaces_no_newline _)).
    rewrite (app_assoc (spaces k)), spaces_add.
    replace (indent + 2 + k) with (indent + k + 2) by lia.
    f_equal. f_equal.
    assert (reindent k (if (count =? total - 1)%nat then [] else [","])
            = if (count =? total - 1)%nat then [] else [","]) as ->
      by (by destruct (_ =? _)%nat).
    f_equal. cbn [reindent app].
    replace (eqc newline newline) with true by reflexivity.
    cbn [app]. f_equal. rewrite <- IH, !reindent_app. cbn [reindent]. by list_norm.
Qed.

Lemma visited_elem order (o : gmap string JSONValue) kv :
  kv ∈ visited order o -> o !! kv.1 = Some kv.2.
Proof.
  unfold visited. intros (k & _ & Hk)%list_elem_of_omap.
  destruct (o !! k) as [x|] eqn:E; [|done]. simpl in Hk. by injection Hk as <-.
Qed.

Lemma printJSON_reindent order k (v : JSONValue) :
  newline_free v ->
  forall indent,
    printJSON order v (indent + k) = reindent k (printJSON order v indent).
Proof.
  induction v as [|b|d|s|a IH|o IH] using JSONValue_tree_ind; intros Hfree indent.
  - reflexivity.
  - by destruct b.
  - simpl. by rewrite (reindent_no_newline _ _ (format_double_no_newline d)).
  - inversion Hfree as [| | |? Hs| |]; subst.
    cbn [printJSON]. rewrite !reindent_app, (reindent_no_newline _ _ Hs).
    reflexivity.
  - inversion Hfree as [| | | |? Ha|]; subst.
    rewrite !printJSON_array. cbn [reindent].
    replace (eqc "[" newline) with false by reflexivity.
    replace (eqc newline newline) with true by reflexivity.
    f_equal. f_equal.
    rewrite (reindent_entries k indent _ 0 _ "]" eq_refl).
    rewrite map_map. f_equal. f_equal.
    apply map_ext_Forall. rewrite Forall_forall in IH, Ha |- *.
    intros x Hx. rewrite <- (IH x Hx (Ha x Hx)). f_equal. lia.
  - inversion Hfree as [| | | | |? Ho]; subst.
    rewrite !printJSON_object. cbn [reindent].
    replace (eqc "{" newline) with false by reflexivity.
    replace (eqc newline newline) with true by reflexivity.
    f_equal. f_equal.
    rewrite (reindent_entries k indent _ 0 _ "}" eq_refl).
    rewrite map_map. f_equal. f_equal.
    apply map_ext_Forall. apply Forall_forall. intros kv Hkv.
    apply visited_elem in Hkv.
    destruct (Ho _ _ Hkv) as [Hk Hx]. specialize (IH _ _ Hkv Hx).
    unfold key_text. rewrite !reindent_app, (reindent_no_newline _ _ Hk).
    cbn [reindent]. replace (eqc dquote newline) with false by reflexivity.
    cbn [app reindent].
    replace (eqc ":" newline) with false by reflexivity.
    replace (eqc " " newline) with false by reflexivity.
    rewrite <- IH. by replace (indent + k + 2) with (indent + 2 + k) by lia.
Qed.

(** X17. For a tree whose strings and keys hold no newline, the text
    [printJSON] writes at a deeper indentation is the text it writes at the
    shallower one with that many more spaces after every newline: a nested
    value is printed as it would be alone, moved to the right. *)
Theorem printJSON_indentation
    (order : gmap string JSONValue -> list string) (v : JSONValue)
    (indent k : nat) :
  newline_free v ->
  printJSON order v (indent + k) = reindent k (printJSON order v indent).
Proof. intros Hfree. by apply printJSON_reindent. Qed.

Lemma printJSON_indentation_witness :
  newline_free x_array
  /\ printJSON keys_of x_array (0 + 4) = reindent 4 (printJSON keys_of x_array 0).
Proof.
  assert (newline_free x_array) as Hfree.
  { apply newline_free_object, map_Forall_singleton.
    split; [by repeat constructor|]. by repeat constructor. }
  split; [exact Hfree|].
  exact (printJSON_indentation keys_of x_array 0 4 Hfree).
Defined.

Lemma insert_members_cons obj m ms :
  insert_members obj (m :: ms)
    = insert_members (<[string_of_list_ascii (m_key m) := m_val m]> obj) ms.
Proof. reflexivity. Qed.

Lemma insert_members_size_le obj ms :
  base.size (insert_members obj ms) <= base.size obj + length ms.
Proof.
  revert obj. induction ms as [|m ms IH]; intros obj; [simpl; lia|].
  rewrite insert_members_cons. specialize (IH (<[string_of_list_ascii (m_key m) := m_val m]> obj)).
  pose proof (map_size_insert (string_of_list_ascii (m_key m)) (m_val m) obj) as Hs.
  destruct (obj !! string_of_list_ascii (m_key m)); simpl in *; lia.
Qed.

Lemma insert_members_size obj ms :
  NoDup (map m_key ms) ->
  Forall (fun m => obj !! string_of_list_ascii (m_key m) = None) ms ->
  base.size (insert_members obj ms) = base.size obj + length ms.
Proof.
  revert obj. induction ms as [|m ms IH]; intros obj Hnd Hfresh; [simpl; lia|].
  rewrite insert_members_cons.
  inversion Hnd as [|? ? Hnotin Hnd']; subst.
  inversion Hfresh as [|? ? Hm Hfresh']; subst.
  rewrite IH; [|done|].
  - rewrite map_size_insert_None by done. simpl. lia.
  - apply Forall_forall. intros m' Hin.
    rewrite Forall_forall in Hfresh'.
    rewrite lookup_insert_ne; [by apply Hfresh'|].
    intros Heq%string_of_list_ascii_inj. apply Hnotin. rewrite Heq.
    apply list_elem_of_In. apply in_map. by apply list_elem_of_In.
Qed.

Lemma insert_members_lookup obj ms m :
  NoDup (map m_key ms) -> m ∈ ms ->
  insert_members obj ms !! string_of_list_ascii (m_key m) = Some (m_val m).
Proof.
  intros Hnd Hin. apply list_elem_of_split in Hin as (ms1 & ms2 & ->).
  apply insert_members_last.
  rewrite map_app in Hnd. apply NoDup_app in Hnd as (_ & _ & Hnd).
  simpl in Hnd. inversion Hnd as [|? ? Hnotin _]; subst.
  apply Forall_forall. intros m' Hm' Heq. apply Hnotin. rewrite <- Heq.
  apply list_elem_of_In. apply in_map. by apply list_elem_of_In.
Qed.

(** X18. An object text with members is parsed into an object with at most
    one entry per member, and, when no key is repeated (keys compared after
    their escapes are decoded), with exactly one entry per member, each key
    bound to the value of its member. *)
Theorem object_entries (ms : list member) (ws1 ws2 : list ascii) :
  members_texts ms -> ms <> [] -> all_space ws1 -> all_space ws2 ->
  exists o,
    parse_text (string_of_list_ascii (ws1 ++ ("{" :: members_text ms) ++ ws2))
      = Returned (JObject o)
    /\ base.size o <= length ms
    /\ (NoDup (map m_key ms) ->
        base.size o = length ms /\
        forall m, m ∈ ms ->
          o !! string_of_list_ascii (m_key m) = Some (m_val m)).
Proof.
  intros Hms Hne Hws1 Hws2. exists (insert_members ∅ ms). split; [|split].
  - unfold parse_text. rewrite chars_of_list.
    by rewrite (parse_value_text ws1 _ ws2 _ (value_text_object ms Hne Hms) Hws1 Hws2).
  - pose proof (insert_members_size_le ∅ ms) as H.
    by rewrite map_size_empty in H.
  - intros Hnd. split.
    + rewrite insert_members_size; [by rewrite map_size_empty|done|].
      apply Forall_forall. intros m _. apply lookup_empty.
    + intros m Hin. by apply insert_members_lookup.
Qed.

Section ObjectEntriesSample.
#[local] Open Scope string_scope.

Lemma object_entries_witness :
  let m1 := plain_member "a" (chars "1") (JNumber (ldexp_Z 1 0)) [] in
  let m2 := plain_member "b" (chars "2") (JNumber (ldexp_Z 2 0)) [] in
  members_texts [m1; m2] /\ [m1; m2] <> [] /\ all_space [] /\ all_space [newline]
  /\ exists o,
       parse_text ("{" +:+ quoted "a" +:+ ":1," +:+ quoted "b" +:+ ":2}" +:+
                   String newline EmptyString)
         = Returned (JObject o)
       /\ base.size o <= 2
       /\ (NoDup (map m_key [m1; m2]) ->
           base.size o = 2 /\
           forall m, m ∈ [m1; m2] ->
             o !! string_of_list_ascii (m_key m) = Some (m_val m)).
Proof.
  intros m1 m2.
  assert (members_texts [m1; m2]) as Hms.
  { constructor; [constructor|reflexivity|constructor|constructor|
                  exact value_text_1|constructor|].
    constructor; [constructor|reflexivity|constructor|constructor|
                  exact value_text_2|constructor|constructor]. }
  assert (all_space [newline]) as Hws by (by repeat constructor).
  split; [exact Hms|]. split; [done|]. split; [constructor|]. split; [exact Hws|].
  exact (object_entries [m1; m2] [] [newline] Hms ltac:(done)
           (Forall_nil_2 _) Hws).
Defined.
End ObjectEntriesSample.

Lemma take_head (l : list ascii) n c t :
  take (S n) l = c :: t -> exists rest, l = c :: rest.
Proof. destruct l as [|x l]; [done|]. simpl. intros [= -> _]. eauto. Qed.

(** A successful run of [parseValue] saw, after the whitespace, a character
    that opens the production of the value it returns. *)
Lemma parseValue_kind (input : list ascii) fuel pos v p :
  parseValue input fuel pos = Ok v p ->
  let q := scan input isspace (size input - pos) pos in
  exists c rest, drop q input = c :: rest /\ kind_opened_by c = Some (kind_of v).
Proof.
  intros Hv q. destruct fuel as [|fuel]; [done|]. cbn [parseValue] in Hv.
  assert (skipWhitespace input pos = Ok tt q) as E by reflexivity.
  rewrite (bind_Ok _ _ _ _ _ E) in Hv. clearbody q. clear E.
  rewrite (bind_Ok _ _ _ _ _ (peek_drop input q)) in Hv.
  unfold kind_opened_by.
  destruct (drop q input) as [|c rest] eqn:Hd.
  - (* the end of the input: no production *)
    replace (eqc NUL dquote) with false in Hv by reflexivity.
    replace (eqc NUL "{") with false in Hv by reflexivity.
    replace (eqc NUL "[") with false in Hv by reflexivity.
    replace (isdigit NUL || eqc NUL "-") with false in Hv by reflexivity.
    assert (forall len lit, lit <> EmptyString -> len <> 0 ->
              compare input len lit q = Ok false q
              \/ exists e, compare input len lit q = Throw e q) as Hcmp.
    { intros len lit Hlit Hlen. unfold compare. rewrite Hd.
      destruct (size input <? q)%nat; [right; eauto|left].
      rewrite bool_decide_eq_false_2; [done|].
      destruct len; [done|]. destruct lit; [done|]. simpl. done. }
    destruct (Hcmp 4 "true"%string ltac:(done) ltac:(done)) as [Ht|[e Ht]];
      [rewrite (bind_Ok _ _ _ _ _ Ht) in Hv|by rewrite (bind_Throw _ _ _ _ _ Ht) in Hv].
    destruct (Hcmp 5 "false"%string ltac:(done) ltac:(done)) as [Hf|[e Hf]];
      [rewrite (bind_Ok _ _ _ _ _ Hf) in Hv|by rewrite (bind_Throw _ _ _ _ _ Hf) in Hv].
    destruct (Hcmp 4 "null"%string ltac:(done) ltac:(done)) as [Hn|[e Hn]];
      [rewrite (bind_Ok _ _ _ _ _ Hn) in Hv|by rewrite (bind_Throw _ _ _ _ _ Hn) in Hv].
    done.
  - exists c, rest. split; [done|].
    destruct (eqc c dquote).
    { apply bind_inv_Ok in Hv as (s & p' & _ & [= <- _]). done. }
    destruct (eqc c "{").
    { apply bind_inv_Ok in Hv as (s & p' & _ & [= <- _]). done. }
    destruct (eqc c "[").
    { apply bind_inv_Ok in Hv as (s & p' & _ & [= <- _]). done. }
    destruct (isdigit c || eqc c "-").
    { apply bind_inv_Ok in Hv as (s & p' & _ & [= <- _]). done. }
    apply bind_inv_Ok in Hv as (t & p3 & Ht & Hv). unfold compare in Ht.
    destruct (size input <? q)%nat eqn:Eq; [done|]. injection Ht as <- <-.
    rewrite Hd in Hv.
    match type of Hv with context [bool_decide ?P] =>
      destruct (bool_decide P) eqn:Et end.
    { unfold bind, advance, ret in Hv. apply bool_decide_eq_true in Et.
      injection Hv as <- _. by injection Et as ->. }
    apply bind_inv_Ok in Hv as (f & p4 & Hf & Hv). unfold compare in Hf.
    rewrite Eq, Hd in Hf. injection Hf as <- <-.
    match type of Hv with context [bool_decide ?P] =>
      destruct (bool_decide P) eqn:Ef end.
    { unfold bind, advance, ret in Hv. apply bool_decide_eq_true in Ef.
      injection Hv as <- _. by injection Ef as ->. }
    apply bind_inv_Ok in Hv as (n & p5 & Hn & Hv). unfold compare in Hn.
    rewrite Eq, Hd in Hn. injection Hn as <- <-.
    match type of Hv with context [bool_decide ?P] =>
      destruct (bool_decide P) eqn:En end; [|done].
    unfold bind, advance, ret in Hv. apply bool_decide_eq_true in En.
    injection Hv as <- _. by injection En as ->.
Qed.

(** X19. The first character after the leading whitespace decides the kind
    of value [parse] can return: a [String] for a quote, an [Object] for a
    brace, an [Array] for a bracket, a [Number] for a digit or a minus sign,
    a [Bool] for [t] or [f], [Null] for [n]; a document that begins
    otherwise returns no value. *)
Theorem result_kind_by_first_character (text : string) (v : JSONValue) :
  parse_text text = Returned v ->
  exists ws c rest,
    chars text = ws ++ c :: rest /\ all_space ws /\ isspace c = false /\
    kind_opened_by c = Some (kind_of v).
Proof.
  unfold parse_text. set (input := chars text). intros Hret.
  destruct (JSONParser.parse input) as [v' pend| |] eqn:Hparse; try done.
  injection Hret as ->. unfold JSONParser.parse in Hparse.
  set (q := scan input isspace (size input - 0) 0).
  assert (skipWhitespace input 0 = Ok tt q) as E by reflexivity.
  rewrite (bind_Ok _ _ _ _ _ E) in Hparse.
  apply bind_inv_Ok in Hparse as (v' & p1 & Hv & Hrest).
  assert (v' = v) as ->.
  { apply bind_inv_Ok in Hrest as ([] & p2 & _ & Hrest).
    unfold bind, getpos in Hrest. destruct (negb _); [done|]. by injection Hrest. }
  pose proof (parseValue_kind input _ q v p1 Hv) as Hkind. cbv zeta in Hkind.
  pose proof (scan_idem input isspace 0) as Hidem. cbv zeta in Hidem.
  fold q in Hidem. rewrite Hidem in Hkind.
  destruct Hkind as (c & rest & Hd & Hc).
  exists (take q input), c, rest. split; [|split; [|split; [|done]]].
  - by rewrite <- Hd, take_drop.
  - pose proof (scan_segment input isspace 0 ltac:(lia)) as Hseg.
    cbv zeta in Hseg. fold q in Hseg.
    by rewrite Nat.sub_0_r, drop_0 in Hseg.
  - destruct (scan_exit input isspace 0 ltac:(lia)) as [_ Hend]. fold q in Hend.
    destruct (drop_cons_lookup _ _ _ _ Hd) as [Hq _].
    destruct Hend as [Hend|(c' & Hc' & Hsp)]; [|congruence].
    apply lookup_lt_Some in Hq. unfold size in Hend. lia.
Qed.

Lemma result_kind_by_first_character_witness :
  parse_text "  [1]" = Returned (JArray [JNumber (ldexp_Z 1 0)])
  /\ exists ws c rest,
       chars "  [1]" = ws ++ c :: rest /\ all_space ws /\ isspace c = false /\
       kind_opened_by c = Some KArray.
Proof.
  split; [reflexivity|].
  exact (result_kind_by_first_character "  [1]" (JArray [JNumber (ldexp_Z 1 0)])
           eq_refl).
Defined.

Section Inversion.
Variable input : list ascii.

Lemma drop_lookup_cons pos c :
  input !! pos = Some c -> drop pos input = c :: drop (S pos) input.
Proof. intros H. by apply drop_S. Qed.

Lemma get_char pos c p :
  get input pos = Ok c p -> c <> NUL -> drop pos input = c :: drop p input.
Proof.
  intros Hget Hc. destruct (get_inv _ _ _ _ Hget Hc) as [-> Hl].
  by apply drop_lookup_cons.
Qed.

Lemma peek_char pos c p :
  peek input pos = Ok c p -> c <> NUL ->
  p = pos /\ drop pos input = c :: drop (S pos) input.
Proof.
  intros Hpeek Hc. destruct (peek_inv _ _ _ _ Hpeek) as [-> Hl].
  split; [done|]. by apply drop_lookup_cons, Hl.
Qed.

(** What [skipWhitespace] passes is whitespace. *)
Lemma skipWhitespace_split pos :
  exists q ws,
    skipWhitespace input pos = Ok tt q /\ drop pos input = ws ++ drop q input /\
    all_space ws /\ stops isspace (drop q input).
Proof.
  set (q := scan input isspace (size input - pos) pos).
  exists q, (take (q - pos) (drop pos input)).
  split; [reflexivity|].
  pose proof (scan_le input isspace (size input - pos) pos) as Hle. fold q in Hle.
  split; [|split].
  - rewrite <- (take_drop (q - pos) (drop pos input)) at 1. f_equal.
    rewrite drop_drop. f_equal. lia.
  - destruct (decide (pos <= size input)) as [Hpos|Hpos].
    + apply (scan_segment input isspace pos Hpos).
    + replace (q - pos) with 0; [constructor|].
      subst q. replace (size input - pos) with 0 by lia. simpl. lia.
  - destruct (decide (pos <= size input)) as [Hpos|Hpos].
    + destruct (scan_exit input isspace pos Hpos) as [_ Hend]. fold q in Hend.
      destruct Hend as [->|(c & Hc & Hsp)]; [by rewrite drop_size|].
      by rewrite (drop_lookup_cons _ _ Hc).
    + rewrite drop_ge; [done|].
      unfold size in *. lia.
Qed.

Lemma parseString_loop_inv n result pos r p :
  parseString_loop input n result pos = Ok r p ->
  exists body s,
    decode_body body = Some s /\ r = result ++ s /\
    (drop pos input = body ++ dquote :: drop p input
     \/ (drop pos input = body /\ drop p input = [])).
Proof.
  revert result pos. induction n as [|n IH]; intros result pos Hrun.
  - simpl in Hrun. destruct (pos <? size input)%nat eqn:E; [done|].
    injection Hrun as <- <-. apply Nat.ltb_ge in E.
    exists [], []. split; [done|]. split; [by rewrite app_nil_r|]. right.
    by rewrite drop_ge.
  - cbn [parseString_loop] in Hrun.
    destruct (pos <? size input)%nat eqn:E.
    2:{ injection Hrun as <- <-. apply Nat.ltb_ge in E.
        exists [], []. split; [done|]. split; [by rewrite app_nil_r|]. right.
        by rewrite drop_ge. }
    apply Nat.ltb_lt in E.
    destruct (lookup_lt_is_Some_2 input pos E) as [c Hc].
    pose proof (drop_lookup_cons _ _ Hc) as Hd.
    unfold bind at 1, get at 1 in Hrun. rewrite Hc in Hrun.
    destruct (eqc c dquote) eqn:E1.
    { apply eqc_true in E1 as ->. injection Hrun as <- <-.
      exists [], []. split; [done|]. split; [by rewrite app_nil_r|]. by left. }
    destruct (eqc c bslash) eqn:E2.
    + apply eqc_true in E2 as ->.
      unfold bind at 1, get at 1 in Hrun.
      destruct (input !! S pos) as [x|] eqn:Hx.
      2:{ by replace (eqc NUL dquote || eqc NUL bslash || eqc NUL "/") with false
            in Hrun by reflexivity. }
      pose proof (drop_lookup_cons _ _ Hx) as Hd'.
      assert (exists y, escape x = Some y /\
                parseString_loop input n (result ++ [y]) (S (S pos)) = Ok r p)
        as (y & Hy & Hrec).
      { rewrite escape_spec. destruct (_ || _); [eauto|].
        destruct (eqc x "n"); [eauto|done]. }
      destruct (IH _ _ Hrec) as (body & s & Hs & -> & Hcase).
      exists (bslash :: x :: body), (y :: s). split; [|split].
      * simpl. replace (eqc bslash dquote) with false by reflexivity.
        replace (eqc bslash bslash) with true by reflexivity.
        by rewrite Hy, Hs.
      * by rewrite <- app_assoc.
      * rewrite Hd, Hd'. destruct Hcase as [->|[-> ->]]; [by left|by right].
    + destruct (IH _ _ Hrun) as (body & s & Hs & -> & Hcase).
      exists (c :: body), (c :: s). split; [|split].
      * simpl. by rewrite E1, E2, Hs.
      * by rewrite <- app_assoc.
      * rewrite Hd. destruct Hcase as [->|[-> ->]]; [by left|by right].
Qed.

Lemma parseString_inv pos s p :
  parseString input pos = Ok s p ->
  exists body s',
    decode_body body = Some s' /\ s = string_of_list_ascii s' /\
    (drop pos input = dquote :: body ++ dquote :: drop p input
     \/ (drop pos input = dquote :: body /\ drop p input = [])).
Proof.
  unfold parseString. intros Hrun.
  apply bind_inv_Ok in Hrun as (c & p1 & Hget & Hrun).
  destruct (eqc c dquote) eqn:E; [|done]. apply eqc_true in E as ->.
  pose proof (get_char _ _ _ Hget ltac:(done)) as Hd.
  cbn [negb] in Hrun.
  apply bind_inv_Ok in Hrun as (r & p2 & Hloop & [= <- <-]).
  destruct (parseString_loop_inv _ _ _ _ _ Hloop) as (body & s' & Hs & -> & Hcase).
  exists body, s'. split; [done|]. split; [done|].
  rewrite Hd. destruct Hcase as [->|[-> ->]]; [by left|by right].
Qed.
End Inversion.

Section NumberInversion.
Variable input : list ascii.

Lemma scan_split p pos :
  let q := scan input p (size input - pos) pos in
  exists seg,
    drop pos input = seg ++ drop q input /\ Forall (fun c => p c = true) seg /\
    stops p (drop q input) /\ pos <= q /\ (pos <= size input -> q <= size input).
Proof.
  intros q. exists (take (q - pos) (drop pos input)).
  pose proof (scan_le input p (size input - pos) pos) as Hle. fold q in Hle.
  split; [|split; [|split; [|split; [done|]]]].
  - rewrite <- (take_drop (q - pos) (drop pos input)) at 1. f_equal.
    rewrite drop_drop. f_equal. lia.
  - destruct (decide (pos <= size input)) as [Hpos|Hpos].
    + apply (scan_segment input p pos Hpos).
    + replace (q - pos) with 0; [constructor|].
      subst q. replace (size input - pos) with 0 by lia. simpl. lia.
  - destruct (decide (pos <= size input)) as [Hpos|Hpos].
    + destruct (scan_exit input p pos Hpos) as [_ Hend]. fold q in Hend.
      destruct Hend as [->|(c & Hc & Hsp)]; [by rewrite drop_size|].
      by rewrite (drop_lookup_cons _ _ _ Hc).
    + rewrite drop_ge; [done|]. unfold size in *. lia.
  - intros Hpos. by apply scan_bound.
Qed.

Lemma peekc_drop pos :
  peekc input pos = match drop pos input with c :: _ => c | [] => NUL end.
Proof.
  unfold peekc. destruct (input !! pos) as [c|] eqn:E.
  - by rewrite (drop_lookup_cons _ _ _ E).
  - apply lookup_ge_None in E. by rewrite drop_ge.
Qed.

Lemma take_token pos p tok :
  drop pos input = tok ++ drop p input -> pos <= p -> p <= size input ->
  take (p - pos) (drop pos input) = tok.
Proof.
  intros Hd Hle Hp. rewrite Hd.
  assert (length tok = p - pos) as <-; [|by rewrite take_app_length].
  apply (f_equal length) in Hd. rewrite length_app, !length_drop in Hd.
  unfold size in *. lia.
Qed.

Lemma parseNumber_inv pos c d p :
  input !! pos = Some c -> isdigit c || eqc c "-" = true ->
  parseNumber input pos = Ok d p ->
  exists t,
    wf_token t /\ stod (token t) = inr d /\
    drop pos input = token t ++ drop p input /\ ends_token t (drop p input).
Proof.
  intros Hc Hhead Hrun. pose proof (lookup_lt_Some _ _ _ Hc) as Hlt.
  pose proof (drop_lookup_cons _ _ _ Hc) as Hd0.
  rewrite parseNumber_run in Hrun. cbv zeta in Hrun.
  assert (peekc input pos = c) as Hpc by (unfold peekc; by rewrite Hc).
  rewrite Hpc in Hrun.
  set (p0 := if eqc c "-" then pos + 1 else pos) in *.
  destruct (scan_split isdigit p0) as (ip & Hip & Hipd & Hip_end & Hle1 & Hb1).
  set (p1 := scan input isdigit (size input - p0) p0) in *.
  assert (pos <= p0 <= size input) as Hp0.
  { subst p0. unfold size. destruct (eqc c "-"); lia. }
  specialize (Hb1 ltac:(lia)).
  assert (drop pos input = (if eqc c "-" then ["-"] else []) ++ ip ++ drop p1 input)
    as Hd1.
  { subst p0. destruct (eqc c "-") eqn:E.
    - apply eqc_true in E as ->. rewrite Hd0.
      replace (S pos) with (pos + 1) by lia. by rewrite Hip.
    - by rewrite Hip. }
  assert (eqc c "-" = true \/ ip <> []) as Hne.
  { destruct (eqc c "-") eqn:E; [by left|right]. intros ->.
    subst p0. simpl in Hip. rewrite <- Hip, Hd0 in Hip_end. simpl in Hip_end.
    rewrite orb_false_r in Hhead. congruence. }
  destruct (Nat.ltb_spec (size input) pos) as [|_]; [lia|].
  destruct (eqc (peekc input p1) ".") eqn:Edot.
  - (* a point and the digits after it *)
    apply eqc_true in Edot.
    pose proof (peekc_neq _ _ _ Edot ltac:(done)) as Hdot.
    pose proof (drop_lookup_cons _ _ _ Hdot) as Hd2.
    pose proof (lookup_lt_Some _ _ _ Hdot) as Hlt1.
    destruct (scan_split isdigit (p1 + 1)) as (fp & Hfp & Hfpd & Hfp_end & Hle2 & Hb2).
    set (p2 := scan input isdigit (size input - (p1 + 1)) (p1 + 1)) in *.
    specialize (Hb2 ltac:(unfold size in *; lia)).
    exists {| nt_neg := eqc c "-"; nt_int := ip; nt_frac := Some fp |}.
    assert (drop pos input
            = token {| nt_neg := eqc c "-"; nt_int := ip; nt_frac := Some fp |} ++
              drop p2 input) as Htok.
    { unfold token. cbn [nt_neg nt_int nt_frac]. rewrite Hd1, Hd2.
      replace (S p1) with (p1 + 1) by lia. rewrite Hfp. by list_norm. }
    rewrite (take_token pos p2 _ Htok ltac:(lia) Hb2) in Hrun.
    destruct (stod _) as [e|d'] eqn:Es; [done|]. injection Hrun as <- <-.
    split; [|split; [done|split; [done|]]].
    + split; [done|]. split; [by intros ? [= <-]|done].
    + split; [done|]. done.
  - (* no point *)
    exists {| nt_neg := eqc c "-"; nt_int := ip; nt_frac := None |}.
    assert (drop pos input
            = token {| nt_neg := eqc c "-"; nt_int := ip; nt_frac := None |} ++
              drop p1 input) as Htok.
    { unfold token. cbn [nt_neg nt_int nt_frac]. rewrite Hd1. by list_norm. }
    rewrite (take_token pos p1 _ Htok ltac:(lia) Hb1) in Hrun.
    destruct (stod _) as [e|d'] eqn:Es; [done|]. injection Hrun as <- <-.
    split; [|split; [done|split; [done|]]].
    + split; [done|]. split; [done|done].
    + split; [done|]. intros _. rewrite peekc_drop in Edot.
      by destruct (drop p1 input).
Qed.
End NumberInversion.

Section ContainerInversion.
Variable input : list ascii.
Variable pv : M JSONValue.
Hypothesis pv_parsed : forall pos v p, pv pos = Ok v p -> parsed input pos p v.

(** A value followed in the input by a character is a text of the grammar:
    the string cut short is followed by nothing. *)
Lemma parsed_followed pos p v ws' c rest :
  parsed input pos p v -> drop p input = ws' ++ c :: rest ->
  exists ws t,
    drop pos input = ws ++ t ++ drop p input /\ all_space ws /\ value_text t v.
Proof.
  intros (ws & t & Hd & Hws & [Hv|[_ Hend]]) Hnext; [eauto|].
  rewrite Hend in Hnext. by destruct ws'.
Qed.

Lemma parseArray_loop_inv n arr pos a p :
  parseArray_loop input pv n arr pos = Ok a p ->
  exists its,
    its <> [] /\ items_texts its /\ a = arr ++ map i_val its /\
    drop pos input = items_text its ++ drop p input.
Proof.
  revert arr pos. induction n as [|n IH]; intros arr pos Hrun; [done|].
  cbn [parseArray_loop] in Hrun.
  apply bind_inv_Ok in Hrun as (v & p1 & Hv & Hrun). apply pv_parsed in Hv.
  destruct (skipWhitespace_split input p1) as (q & ws' & Hskip & Hd1 & Hws' & _).
  rewrite (bind_Ok _ _ _ _ _ Hskip) in Hrun.
  apply bind_inv_Ok in Hrun as (c & p3 & Hpeek & Hrun).
  destruct (eqc c "]") eqn:E.
  - apply eqc_true in E as ->.
    destruct (peek_char _ _ _ _ Hpeek ltac:(done)) as [-> Hdq].
    rewrite (bind_Ok _ _ _ _ _ (get_cons _ _ _ _ Hdq)) in Hrun.
    injection Hrun as <- <-.
    rewrite Hdq in Hd1.
    destruct (parsed_followed _ _ _ _ _ _ Hv Hd1) as (ws & t & Hd & Hws & Ht).
    exists [{| i_lead := ws; i_text := t; i_val := v; i_trail := ws' |}].
    split; [done|]. split; [constructor; [done..|constructor]|]. split; [done|].
    rewrite Hd, Hd1. simpl. by list_norm.
  - apply bind_inv_Ok in Hrun as (c' & p4 & Hget & Hrun).
    destruct (eqc c' ",") eqn:E'; [|done]. apply eqc_true in E' as ->.
    cbn [negb] in Hrun.
    pose proof (get_char _ _ _ _ Hget ltac:(done)) as Hdq.
    assert (p3 = q) as -> by (by apply peek_inv in Hpeek as [-> _]).
    rewrite Hdq in Hd1.
    destruct (parsed_followed _ _ _ _ _ _ Hv Hd1) as (ws & t & Hd & Hws & Ht).
    destruct (IH _ _ Hrun) as (its & Hne & Hits & -> & Hd2).
    exists ({| i_lead := ws; i_text := t; i_val := v; i_trail := ws' |} :: its).
    split; [done|]. split; [by constructor|]. split; [by rewrite <- app_assoc|].
    rewrite items_text_more by done. cbn [i_lead i_text i_trail].
    rewrite Hd, Hd1, Hd2. by list_norm.
Qed.

Lemma items_text_lead ws it its :
  ws ++ items_text (it :: its)
  = items_text ({| i_lead := ws ++ i_lead it; i_text := i_text it;
                   i_val := i_val it; i_trail := i_trail it |} :: its).
Proof. cbn [items_text i_lead i_text i_trail]. by list_norm. Qed.

Lemma parseArray_inv pos a p :
  parseArray input pv pos = Ok a p ->
  exists t, drop pos input = t ++ drop p input /\ value_text t (JArray a).
Proof.
  unfold parseArray. intros Hrun.
  apply bind_inv_Ok in Hrun as (c & p1 & Hget & Hrun).
  destruct (eqc c "[") eqn:E; [|done]. apply eqc_true in E as ->.
  cbn [negb] in Hrun.
  pose proof (get_char _ _ _ _ Hget ltac:(done)) as Hd0.
  destruct (skipWhitespace_split input p1) as (q & ws0 & Hskip & Hd1 & Hws0 & _).
  rewrite (bind_Ok _ _ _ _ _ Hskip) in Hrun.
  apply bind_inv_Ok in Hrun as (c & p3 & Hpeek & Hrun).
  destruct (eqc c "]") eqn:E.
  - apply eqc_true in E as ->.
    destruct (peek_char _ _ _ _ Hpeek ltac:(done)) as [-> Hdq].
    rewrite (bind_Ok _ _ _ _ _ (get_cons _ _ _ _ Hdq)) in Hrun.
    injection Hrun as <- <-.
    exists ("[" :: ws0 ++ ["]"]). split; [|by constructor].
    rewrite Hd0, Hd1, Hdq. by list_norm.
  - assert (p3 = q) as -> by (by apply peek_inv in Hpeek as [-> _]).
    destruct (parseArray_loop_inv _ _ _ _ _ Hrun) as (its & Hne & Hits & -> & Hd2).
    destruct its as [|it its]; [done|].
    inversion Hits as [|? ? Hlead Htrail Hv Hits']; subst.
    exists ("[" :: items_text
                     ({| i_lead := ws0 ++ i_lead it; i_text := i_text it;
                         i_val := i_val it; i_trail := i_trail it |} :: its)).
    split.
    + rewrite Hd0, Hd1, Hd2, <- items_text_lead. by list_norm.
    + apply (value_text_array
               ({| i_lead := ws0 ++ i_lead it; i_text := i_text it;
                   i_val := i_val it; i_trail := i_trail it |} :: its));
        [done|].
      constructor; [by apply Forall_app|done..].
Qed.

Lemma parseObject_loop_inv n obj pos o p :
  parseObject_loop input pv n obj pos = Ok o p ->
  exists ms,
    ms <> [] /\ members_texts ms /\ o = insert_members obj ms /\
    drop pos input = members_text ms ++ drop p input.
Proof.
  revert obj pos. induction n as [|n IH]; intros obj pos Hrun; [done|].
  cbn [parseObject_loop] in Hrun.
  destruct (skipWhitespace_split input pos) as (q0 & lead & Hskip0 & Hd0 & Hlead & _).
  rewrite (bind_Ok _ _ _ _ _ Hskip0) in Hrun.
  apply bind_inv_Ok in Hrun as (key & p1 & Hkey & Hrun).
  destruct (parseString_inv _ _ _ _ Hkey) as (body & s & Hs & -> & Hcase).
  destruct (skipWhitespace_split input p1) as (q1 & gap1 & Hskip1 & Hd1 & Hgap1 & _).
  rewrite (bind_Ok _ _ _ _ _ Hskip1) in Hrun.
  apply bind_inv_Ok in Hrun as (c & p2 & Hget & Hrun).
  destruct (eqc c ":") eqn:E; [|done]. apply eqc_true in E as ->.
  cbn [negb] in Hrun.
  pose proof (get_char _ _ _ _ Hget ltac:(done)) as Hd2.
  rewrite Hd2 in Hd1.
  destruct Hcase as [Hdk|[_ Hend]];
    [|rewrite Hend in Hd1; by destruct gap1].
  destruct (skipWhitespace_split input p2) as (q3 & gap2 & Hskip3 & Hd3 & Hgap2 & Hst3).
  rewrite (bind_Ok _ _ _ _ _ Hskip3) in Hrun.
  apply bind_inv_Ok in Hrun as (v & p4 & Hv & Hrun). apply pv_parsed in Hv.
  destruct (skipWhitespace_split input p4) as (q5 & trail & Hskip5 & Hd5 & Htrail & _).
  rewrite (bind_Ok _ _ _ _ _ Hskip5) in Hrun.
  apply bind_inv_Ok in Hrun as (c1 & p6 & Hpeek & Hrun).
  assert (p6 = q5) as -> by (by apply peek_inv in Hpeek as [-> _]).
  assert (forall c2 rest, drop q5 input = c2 :: rest ->
            exists m, m_val m = v /\ m_key m = s /\
              all_space (m_lead m) /\ decode_body (m_keytext m) = Some (m_key m) /\
              all_space (m_gap1 m) /\ all_space (m_gap2 m) /\
              value_text (m_text m) (m_val m) /\ all_space (m_trail m) /\
              drop pos input = member_text m ++ c2 :: rest) as Hmember.
  { intros c2 rest Hnext. rewrite Hnext in Hd5.
    destruct (parsed_followed _ _ _ _ _ _ Hv Hd5) as (ws & t & Hd4 & Hws & Ht).
    assert (ws = []) as ->.
    { destruct (value_text_head _ _ Ht) as (h & tl & -> & Hh & _).
      rewrite Hd4 in Hst3. destruct ws as [|w ws]; [done|].
      inversion Hws as [|? ? Hw _]; subst. simpl in Hst3. congruence. }
    exists {| m_lead := lead; m_keytext := body; m_key := s; m_gap1 := gap1;
              m_gap2 := gap2; m_text := t; m_val := v; m_trail := trail |}.
    do 8 (split; [done|]).
    unfold member_text. cbn [m_lead m_keytext m_gap1 m_gap2 m_text m_trail].
    rewrite Hd0, Hdk, Hd1, Hd3, Hd4, Hd5. by list_norm. }
  destruct (eqc c1 "}") eqn:E.
  - apply eqc_true in E as ->.
    destruct (peek_char _ _ _ _ Hpeek ltac:(done)) as [_ Hdq].
    rewrite (bind_Ok _ _ _ _ _ (get_cons _ _ _ _ Hdq)) in Hrun.
    injection Hrun as <- <-.
    destruct (Hmember _ _ Hdq)
      as (m & <- & <- & Hl & Hk & Hg1 & Hg2 & Ht & Htr & Hd).
    exists [m]. split; [done|]. split; [constructor; [done..|constructor]|].
    split; [done|].
    rewrite Hd. simpl. by list_norm.
  - apply bind_inv_Ok in Hrun as (c' & p7 & Hget' & Hrun).
    destruct (eqc c' ",") eqn:E'; [|done]. apply eqc_true in E' as ->.
    cbn [negb] in Hrun.
    pose proof (get_char _ _ _ _ Hget' ltac:(done)) as Hdq.
    destruct (Hmember _ _ Hdq)
      as (m & <- & <- & Hl & Hk & Hg1 & Hg2 & Ht & Htr & Hd).
    destruct (IH _ _ Hrun) as (ms & Hne & Hms & -> & Hd').
    exists (m :: ms). split; [done|]. split; [by constructor|]. split; [done|].
    rewrite members_text_more by done. rewrite Hd, Hd'. by list_norm.
Qed.

Lemma members_text_lead ws m ms :
  ws ++ members_text (m :: ms)
  = members_text ({| m_lead := ws ++ m_lead m; m_keytext := m_keytext m;
                     m_key := m_key m; m_gap1 := m_gap1 m; m_gap2 := m_gap2 m;
                     m_text := m_text m; m_val := m_val m;
                     m_trail := m_trail m |} :: ms).
Proof.
  cbn [members_text]. unfold member_text.
  cbn [m_lead m_keytext m_gap1 m_gap2 m_text m_trail]. by list_norm.
Qed.

Lemma parseObject_inv pos o p :
  parseObject input pv pos = Ok o p ->
  exists t, drop pos input = t ++ drop p input /\ value_text t (JObject o).
Proof.
  unfold parseObject. intros Hrun.
  apply bind_inv_Ok in Hrun as (c & p1 & Hget & Hrun).
  destruct (eqc c "{") eqn:E; [|done]. apply eqc_true in E as ->.
  cbn [negb] in Hrun.
  pose proof (get_char _ _ _ _ Hget ltac:(done)) as Hd0.
  destruct (skipWhitespace_split input p1) as (q & ws0 & Hskip & Hd1 & Hws0 & _).
  rewrite (bind_Ok _ _ _ _ _ Hskip) in Hrun.
  apply bind_inv_Ok in Hrun as (c & p3 & Hpeek & Hrun).
  destruct (eqc c "}") eqn:E.
  - apply eqc_true in E as ->.
    destruct (peek_char _ _ _ _ Hpeek ltac:(done)) as [-> Hdq].
    rewrite (bind_Ok _ _ _ _ _ (get_cons _ _ _ _ Hdq)) in Hrun.
    injection Hrun as <- <-.
    exists ("{" :: ws0 ++ ["}"]). split; [|by constructor].
    rewrite Hd0, Hd1, Hdq. by list_norm.
  - assert (p3 = q) as -> by (by apply peek_inv in Hpeek as [-> _]).
    destruct (parseObject_loop_inv _ _ _ _ _ Hrun) as (ms & Hne & Hms & -> & Hd2).
    destruct ms as [|m ms]; [done|].
    inversion Hms as [|? ? Hlead Hkey Hg1 Hg2 Hv Htrail Hms']; subst.
    set (m0 := {| m_lead := ws0 ++ m_lead m; m_keytext := m_keytext m;
                  m_key := m_key m; m_gap1 := m_gap1 m; m_gap2 := m_gap2 m;
                  m_text := m_text m; m_val := m_val m; m_trail := m_trail m |}).
    exists ("{" :: members_text (m0 :: ms)). split.
    + rewrite Hd0, Hd1, Hd2. subst m0. rewrite <- members_text_lead. by list_norm.
    + assert (insert_members ∅ (m :: ms) = insert_members ∅ (m0 :: ms)) as ->
        by reflexivity.
      apply (value_text_object (m0 :: ms)); [done|].
      constructor; [by apply Forall_app|done..].
Qed.
End ContainerInversion.

Lemma parseValue_parsed (input : list ascii) fuel :
  forall pos v p, parseValue input fuel pos = Ok v p -> parsed input pos p v.
Proof.
  induction fuel as [|fuel IH]; intros pos v p Hrun; [done|].
  cbn [parseValue] in Hrun.
  destruct (skipWhitespace_split input pos) as (q & ws & Hskip & Hd & Hws & _).
  rewrite (bind_Ok _ _ _ _ _ Hskip) in Hrun.
  rewrite (bind_Ok _ _ _ _ _ (peek_drop input q)) in Hrun.
  set (c := match drop q input with c :: _ => c | [] => NUL end) in *.
  destruct (eqc c dquote) eqn:E1.
  { apply bind_inv_Ok in Hrun as (s & p1 & Hs & [= <- <-]).
    destruct (parseString_inv _ _ _ _ Hs) as (body & s' & Hs' & -> & [Hc|[Hc Hend]]).
    - exists ws, (dquote :: body ++ [dquote]). split; [|split; [done|left]].
      + rewrite Hd, Hc. by list_norm.
      + by constructor.
    - exists ws, (dquote :: body). split; [|split; [done|right]].
      + by rewrite Hd, Hc, Hend, app_nil_r.
      + split; [|done]. by exists body, s'. }
  destruct (eqc c "{") eqn:E2.
  { apply bind_inv_Ok in Hrun as (o & p1 & Ho & [= <- <-]).
    destruct (parseObject_inv input _ IH _ _ _ Ho) as (t & Hdt & Ht).
    exists ws, t. split; [by rewrite Hd, Hdt|]. split; [done|by left]. }
  destruct (eqc c "[") eqn:E3.
  { apply bind_inv_Ok in Hrun as (a & p1 & Ha & [= <- <-]).
    destruct (parseArray_inv input _ IH _ _ _ Ha) as (t & Hdt & Ht).
    exists ws, t. split; [by rewrite Hd, Hdt|]. split; [done|by left]. }
  destruct (isdigit c || eqc c "-") eqn:E4.
  { apply bind_inv_Ok in Hrun as (d & p1 & Hn & [= <- <-]).
    assert (input !! q = Some c) as Hc.
    { subst c. destruct (drop q input) as [|x rest] eqn:Hdq; [done|].
      by destruct (drop_cons_lookup _ _ _ _ Hdq). }
    destruct (parseNumber_inv input _ _ _ _ Hc E4 Hn) as (t & Hwf & Hst & Hdt & _).
    exists ws, (token t). split; [by rewrite Hd, Hdt|]. split; [done|left].
    by constructor. }
  assert (exists kw, keyword v = Some kw) as [kw Hkw].
  { apply bind_inv_Ok in Hrun as (t & p3 & _ & Hrun). destruct t.
    { unfold bind, advance, ret in Hrun. injection Hrun as <- _. by eexists. }
    apply bind_inv_Ok in Hrun as (f & p4 & _ & Hrun). destruct f.
    { unfold bind, advance, ret in Hrun. injection Hrun as <- _. by eexists. }
    apply bind_inv_Ok in Hrun as (n & p5 & _ & Hrun). destruct n; [|done].
    unfold bind, advance, ret in Hrun. injection Hrun as <- _. by eexists. }
  assert (parseValue input (S fuel) q = Ok v p) as Hrun'.
  { cbn [parseValue].
    destruct (skipWhitespace_split input q) as (q' & ws' & Hskip' & _).
    assert (q' = q) as ->.
    { pose proof (scan_idem input isspace pos) as Hi. cbv zeta in Hi.
      unfold skipWhitespace in Hskip, Hskip'.
      injection Hskip as <-. injection Hskip' as <-. exact Hi. }
    rewrite (bind_Ok _ _ _ _ _ Hskip').
    rewrite (bind_Ok _ _ _ _ _ (peek_drop input q)). fold c.
    by rewrite E1, E2, E3, E4. }
  pose proof (parseValue_keyword_inv input _ q v kw p Hkw Hrun') as Hinv.
  cbv zeta in Hinv.
  assert (scan input isspace (size input - q) q = q) as Hq.
  { pose proof (scan_idem input isspace pos) as Hi. cbv zeta in Hi.
    unfold skipWhitespace in Hskip. injection Hskip as <-. exact Hi. }
  rewrite Hq in Hinv. destruct Hinv as [Htake ->].
  exists ws, kw. split; [|split; [done|left; by constructor]].
  rewrite Hd. f_equal.
  rewrite <- (take_drop (length kw) (drop q input)) at 1.
  by rewrite Htake, drop_drop.
Qed.

Lemma parse_parsed (input : list ascii) v pend :
  JSONParser.parse input = Ok v pend ->
  exists ws1 t rest,
    input = ws1 ++ t ++ rest /\ all_space ws1 /\ all_space rest /\
    (value_text t v \/ (open_string t v /\ rest = [])).
Proof.
  unfold JSONParser.parse. intros Hparse.
  destruct (skipWhitespace_split input 0) as (q & ws1 & Hskip & Hd1 & Hws1 & _).
  rewrite (bind_Ok _ _ _ _ _ Hskip) in Hparse.
  apply bind_inv_Ok in Hparse as (v' & p1 & Hv & Hrest).
  destruct (skipWhitespace_split input p1) as (q2 & ws2 & Hskip2 & Hd2 & Hws2 & _).
  rewrite (bind_Ok _ _ _ _ _ Hskip2) in Hrest.
  unfold bind, getpos in Hrest.
  destruct (q2 =? size input)%nat eqn:Eend; [|done].
  apply Nat.eqb_eq in Eend. cbn [negb] in Hrest. injection Hrest as -> _.
  rewrite Eend, drop_size, app_nil_r in Hd2.
  destruct (parseValue_parsed input _ _ _ _ Hv) as (ws & t & Hd & Hws & Hcase).
  rewrite drop_0 in Hd1.
  exists (ws1 ++ ws), t, (drop p1 input).
  split; [etrans; [exact Hd1|]; rewrite Hd; by list_norm|].
  split; [by apply Forall_app|].
  split; [by rewrite Hd2|]. destruct Hcase as [?|[? ?]]; [by left|by right].
Qed.

Lemma parse_open_string (ws1 body s : list ascii) :
  all_space ws1 -> decode_body body = Some s ->
  observe (JSONParser.parse (ws1 ++ dquote :: body))
    = Returned (JString (string_of_list_ascii s)).
Proof.
  intros Hws1 Hs. rewrite (parse_leading _ _ Hws1), observe_shift.
  set (input := dquote :: body).
  assert (parseValue input (S (size input)) 0
          = Ok (JString (string_of_list_ascii s)) (size input)) as Hv.
  { rewrite (parseValue_string _ _ _ body) by (by rewrite drop_0).
    by rewrite (bind_Ok _ _ _ _ _
      (parseString_open input body s 0 Hs ltac:(by rewrite drop_0))). }
  by rewrite (parse_whole input _ dquote body eq_refl eq_refl Hv).
Qed.

(** X20. [parse] returns a value only for the documents made of a text of the
    grammar [value_text] with whitespace around it, and for the documents
    that end inside a string opened at the top level; the value is then the
    one the grammar gives, or the string gathered so far. *)
Theorem parse_returns_only_grammar (text : string) (v : JSONValue) :
  parse_text text = Returned v ->
  (exists ws1 t ws2,
     chars text = ws1 ++ t ++ ws2 /\ all_space ws1 /\ all_space ws2 /\
     value_text t v)
  \/ (exists ws1 t,
        chars text = ws1 ++ t /\ all_space ws1 /\ open_string t v).
Proof.
  unfold parse_text. intros Hret.
  destruct (JSONParser.parse (chars text)) as [v' pend| |] eqn:Hparse; try done.
  injection Hret as ->.
  destruct (parse_parsed _ _ _ Hparse)
    as (ws1 & t & rest & Hin & Hws1 & Hrest & [Hv|[Hv ->]]).
  - left. by exists ws1, t, rest.
  - right. exists ws1, t. by rewrite app_nil_r in Hin.
Qed.

Lemma parse_returns_only_grammar_witness :
  parse_text "[true] " = Returned (JArray [JBool true])
  /\ ((exists ws1 t ws2,
         chars "[true] " = ws1 ++ t ++ ws2 /\ all_space ws1 /\ all_space ws2 /\
         value_text t (JArray [JBool true]))
      \/ (exists ws1 t,
            chars "[true] " = ws1 ++ t /\ all_space ws1 /\
            open_string t (JArray [JBool true]))).
Proof.
  split; [reflexivity|].
  exact (parse_returns_only_grammar "[true] " (JArray [JBool true]) eq_refl).
Defined.

(** X21. Whitespace added after a document that [parse] reads as a value
    other than a [String] changes nothing: [parse] returns the same value. (A
    top-level string without its closing quote is the exception: the
    added whitespace becomes part of it.) *)
Theorem parse_trailing_whitespace (text : string) (v : JSONValue) (ws : list ascii) :
  parse_text text = Returned v -> kind_of v <> KString -> all_space ws ->
  parse_text (string_of_list_ascii (chars text ++ ws)) = Returned v.
Proof.
  unfold parse_text. intros Hret Hkind Hws.
  destruct (JSONParser.parse (chars text)) as [v' pend| |] eqn:Hparse; try done.
  injection Hret as ->. rewrite chars_of_list.
  destruct (parse_parsed _ _ _ Hparse)
    as (ws1 & t & rest & Hin & Hws1 & Hrest & [Hv|[(body & s & _ & _ & ->) _]]);
    [|done].
  rewrite Hin.
  replace ((ws1 ++ t ++ rest) ++ ws) with (ws1 ++ t ++ (rest ++ ws)) by (by list_norm).
  by rewrite (parse_value_text ws1 t (rest ++ ws) v Hv Hws1 ltac:(by apply Forall_app)).
Qed.

Lemma parse_trailing_whitespace_witness :
  parse_text "[1]" = Returned (JArray [JNumber (ldexp_Z 1 0)])
  /\ kind_of (JArray [JNumber (ldexp_Z 1 0)]) <> KString
  /\ all_space [newline]
  /\ parse_text (string_of_list_ascii (chars "[1]" ++ [newline]))
     = Returned (JArray [JNumber (ldexp_Z 1 0)]).
Proof.
  assert (all_space [newline]) as Hws by (by repeat constructor).
  assert (parse_text "[1]" = Returned (JArray [JNumber (ldexp_Z 1 0)])) as Hv
    by (vm_compute; reflexivity).
  split; [exact Hv|]. split; [done|]. split; [exact Hws|].
  exact (parse_trailing_whitespace "[1]" _ [newline] Hv ltac:(done) Hws).
Defined.

Lemma parse_array_raises (its : list item) (X : list ascii) e :
  items_texts its -> (its = [] -> next_is_not "]" X) ->
  let input := "["%char :: items_comma its ++ X in
  (forall n arr,
     exists p, parseArray_loop input (parseValue input (size input)) (S n) arr
                 (1 + length (items_comma its)) = Throw e p) ->
  observe (JSONParser.parse input) = Raised e.
Proof.
  intros Hits HX input Hround.
  destruct (items_comma_next its X Hits HX) as (ws & rest & Hsplit & Hws & Hrest & Hlen).
  assert (Forall (item_ok input (parseValue input (size input))) its) as Hok.
  { apply items_texts_ok; [done|]. intros it' Hin.
    unfold size, input. cbn [length]. rewrite length_app.
    pose proof (item_text_in_comma _ _ Hin). lia. }
  destruct (Hround (length rest - length its) (map i_val its)) as [p Hp].
  enough (parseValue input (S (size input)) 0 = Throw e p) as Hthrow
    by (by rewrite (parse_raises input _ _ "["%char _ eq_refl eq_refl Hthrow)).
  apply (parseValue_array_raises input _ (items_comma its ++ X)); [done|].
  assert (drop 0 input = "["%char :: ws ++ rest) as Hd0
    by (unfold input; cbn [drop]; by rewrite Hsplit).
  rewrite (parseArray_enter input _ 0 ws rest Hd0 Hws Hrest).
  replace (S (length rest)) with (length its + S (length rest - length its)) by lia.
  rewrite (parseArray_loop_prefix input _ its Hok _ [] 1 X) by (by unfold input).
  exact Hp.
Qed.

Lemma drop_array_prefix (its : list item) (X : list ascii) :
  drop (1 + length (items_comma its)) ("["%char :: items_comma its ++ X) = X.
Proof. simpl. by rewrite drop_app_length. Qed.

Section OpenStrings.
Variable input : list ascii.

(** A string that the end of the input cuts short, as a value. *)
Lemma parseValue_open_string fuel pos lead body s :
  all_space lead -> decode_body body = Some s ->
  drop pos input = lead ++ dquote :: body ->
  exists p, parseValue input (S fuel) pos = Ok (JString (string_of_list_ascii s)) p
            /\ drop p input = [].
Proof.
  intros Hlead Hs Hd.
  rewrite (parseValue_ws input _ pos lead (dquote :: body) Hlead isspace_dquote Hd).
  apply drop_past in Hd.
  rewrite (parseValue_string _ _ _ _ Hd).
  rewrite (bind_Ok _ _ _ _ _ (parseString_open input body s _ Hs Hd)).
  eexists. split; [reflexivity|].
  replace (S (pos + length lead) + length body)
    with (pos + length lead + length (dquote :: body)) by (simpl; lia).
  apply (drop_past _ _ _ []). by rewrite app_nil_r.
Qed.

Lemma get_at_end pos : drop pos input = [] -> get input pos = Ok NUL pos.
Proof. intros H. unfold get. by rewrite (drop_nil_lookup _ _ H). Qed.

Lemma parseArray_loop_at_end pv n arr pos v p1 :
  pv pos = Ok v p1 -> drop p1 input = [] ->
  parseArray_loop input pv (S n) arr pos = Throw (runtime_error msg_comma_array) p1.
Proof.
  intros Hv Hend. cbn [parseArray_loop].
  rewrite (bind_Ok _ _ _ _ _ Hv).
  rewrite (bind_Ok _ _ _ _ _ (skipWhitespace_stay _ _ _ Hend I)).
  rewrite (bind_Ok _ _ _ _ _ (peek_nil _ _ Hend)).
  replace (eqc NUL "]") with false by reflexivity.
  by rewrite (bind_Ok _ _ _ _ _ (get_at_end _ Hend)).
Qed.

Lemma parseObject_loop_key_at_end pv n obj pos lead body s :
  all_space lead -> decode_body body = Some s ->
  drop pos input = lead ++ dquote :: body ->
  exists p, parseObject_loop input pv (S n) obj pos
            = Throw (runtime_error msg_colon) p.
Proof.
  intros Hlead Hs Hd. cbn [parseObject_loop].
  rewrite (bind_Ok _ _ _ _ _ (skipWhitespace_app _ _ _ _ Hd Hlead isspace_dquote)).
  apply drop_past in Hd.
  rewrite (bind_Ok _ _ _ _ _ (parseString_open input body s _ Hs Hd)).
  assert (drop (S (pos + length lead) + length body) input = []) as Hend.
  { replace (S (pos + length lead) + length body)
      with (pos + length lead + length (dquote :: body)) by (simpl; lia).
    apply (drop_past _ _ _ []). by rewrite app_nil_r. }
  rewrite (bind_Ok _ _ _ _ _ (skipWhitespace_stay _ _ _ Hend I)).
  rewrite (bind_Ok _ _ _ _ _ (get_at_end _ Hend)). by eexists.
Qed.

Lemma parseObject_loop_value_at_end fuel n obj pos klead keytext key gap1 lead body s :
  all_space klead -> decode_body keytext = Some key -> all_space gap1 ->
  all_space lead -> decode_body body = Some s ->
  drop pos input
    = klead ++ dquote :: keytext ++ dquote :: gap1 ++ ":" :: lead ++ dquote :: body ->
  exists p, parseObject_loop input (parseValue input (S fuel)) (S n) obj pos
            = Throw (runtime_error msg_comma_object) p.
Proof.
  intros Hklead Hkey Hg1 Hlead Hs Hd.
  rewrite (parseObject_loop_key input _ n obj pos _ _ _ _ _ Hklead Hkey Hg1 Hd).
  set (p := pos + length klead + length keytext + 2 + length gap1 + 1).
  assert (drop p input = lead ++ dquote :: body) as Hd1.
  { subst p.
    replace (pos + length klead + length keytext + 2 + length gap1 + 1)
      with (pos + length (klead ++ dquote :: keytext ++ dquote :: gap1 ++ [":"]))
      by (len_simp; lia).
    apply drop_past. rewrite Hd. by list_norm. }
  clearbody p.
  rewrite (bind_Ok _ _ _ _ _ (skipWhitespace_app _ _ _ _ Hd1 Hlead isspace_dquote)).
  apply drop_past in Hd1.
  destruct (parseValue_open_string fuel _ [] body s ltac:(constructor) Hs Hd1)
    as (p1 & Hv & Hend).
  rewrite (bind_Ok _ _ _ _ _ Hv).
  rewrite (bind_Ok _ _ _ _ _ (skipWhitespace_stay _ _ _ Hend I)).
  rewrite (bind_Ok _ _ _ _ _ (peek_nil _ _ Hend)).
  replace (eqc NUL "}") with false by reflexivity.
  rewrite (bind_Ok _ _ _ _ _ (get_at_end _ Hend)). by eexists.
Qed.
End OpenStrings.

(** X22. A string without its closing quote is returned only at the top
    level. As the last element of an array it is read to the end of the
    input and then the comma is missed; as the value of a member
    likewise; as a key, the colon is missed. *)
Theorem unterminated_string_in_container (lead body s : list ascii) :
  all_space lead -> decode_body body = Some s ->
  (forall its, items_texts its ->
     parse_text (string_of_list_ascii
                   ("[" :: items_comma its ++ lead ++ dquote :: body))
       = Raised (runtime_error msg_comma_array))
  /\ (forall ms, members_texts ms ->
        parse_text (string_of_list_ascii
                      ("{" :: members_comma ms ++ lead ++ dquote :: body))
          = Raised (runtime_error msg_colon))
  /\ (forall ms klead keytext key gap1,
        members_texts ms -> all_space klead ->
        decode_body keytext = Some key -> all_space gap1 ->
        parse_text (string_of_list_ascii
                      ("{" :: members_comma ms ++
                       klead ++ dquote :: keytext ++ dquote :: gap1 ++
                       ":" :: lead ++ dquote :: body))
          = Raised (runtime_error msg_comma_object)).
Proof.
  intros Hlead Hs. split; [|split].
  - intros its Hits. unfold parse_text. rewrite chars_of_list.
    apply parse_array_raises; [done| |].
    + intros _. by exists lead, (dquote :: body).
    + intros n arr.
      match goal with |- context [parseValue ?i (size ?i)] =>
        assert (size i = S (size i - 1)) as -> by (unfold size; simpl; lia);
        destruct (parseValue_open_string i (size i - 1)
                    (1 + length (items_comma its)) lead body s Hlead Hs
                    (drop_array_prefix its _)) as (p & Hv & Hend)
      end.
      eexists. by apply (parseArray_loop_at_end _ _ _ _ _ _ _ Hv).
  - intros ms Hms. unfold parse_text. rewrite chars_of_list.
    apply parse_object_raises; [done|intros _; by apply key_next|].
    intros n obj _.
    apply (parseObject_loop_key_at_end _ _ _ _ _ lead body s Hlead Hs),
      drop_object_prefix.
  - intros ms klead keytext key gap1 Hms Hklead Hkey Hg1.
    unfold parse_text. rewrite chars_of_list.
    apply parse_object_raises; [done|intros _; by apply key_next|].
    intros n obj _.
    match goal with |- context [parseValue ?i (size ?i)] =>
      assert (size i = S (size i - 1)) as -> by (unfold size; simpl; lia) end.
    apply (parseObject_loop_value_at_end _ _ _ _ _ klead keytext key gap1 lead body s);
      [done..|apply drop_object_prefix].
Qed.

Section OpenStringSample.
#[local] Open Scope string_scope.

Lemma unterminated_string_in_container_witness :
  all_space [] /\ decode_body (chars "ab") = Some (chars "ab")
  /\ parse_text (String dquote "ab") = Returned (JString "ab")
  /\ parse_text ("[" +:+ String dquote "ab")
     = Raised (runtime_error msg_comma_array)
  /\ parse_text ("{" +:+ String dquote "ab") = Raised (runtime_error msg_colon).
Proof.
  split; [constructor|]. split; [reflexivity|]. split; [reflexivity|].
  pose proof (unterminated_string_in_container [] (chars "ab") (chars "ab")
                (Forall_nil_2 _) eq_refl) as (Harr & Hkey & _).
  split.
  - exact (Harr [] items_texts_nil).
  - exact (Hkey [] members_texts_nil).
Defined.
End OpenStringSample.

Section Rounding.
#[local] Open Scope Z_scope.

Lemma shr_1_nonneg mrs : 0 <= shr_m mrs -> 0 <= shr_m (shr_1 mrs).
Proof.
  destruct mrs as [m r s]. simpl. destruct m as [|p|p]; [done| |lia].
  intros _. by destruct p.
Qed.

Lemma iter_shr_1_nonneg p mrs :
  0 <= shr_m mrs -> 0 <= shr_m (SpecFloat.iter_pos shr_1 p mrs).
Proof.
  revert mrs. induction p as [p IH|p IH|]; intros mrs H; simpl.
  - apply IH, IH. by apply shr_1_nonneg.
  - by apply IH, IH.
  - by apply shr_1_nonneg.
Qed.

Lemma shr_fexp_nonneg prec emax m e l :
  0 <= m -> 0 <= shr_m (fst (shr_fexp prec emax m e l)).
Proof.
  intros Hm. unfold shr_fexp, shr.
  assert (0 <= shr_m (shr_record_of_loc m l)) as H
    by (destruct l as [|[]]; simpl; done).
  destruct (fexp _ _ _ - e); simpl; [done| |done].
  by apply iter_shr_1_nonneg.
Qed.

Lemma round_nearest_even_nonneg m l : 0 <= m -> 0 <= round_nearest_even m l.
Proof.
  intros Hm. unfold round_nearest_even.
  destruct l as [|[]]; [done| |done|lia]. destruct (IntDef.Z.even m); lia.
Qed.

Lemma binary_round_aux_not_nan prec emax sx mx ex lx :
  0 <= mx -> binary_round_aux prec emax sx mx ex lx <> S754_nan.
Proof.
  intros Hm. unfold binary_round_aux.
  pose proof (shr_fexp_nonneg prec emax mx ex lx Hm) as H1.
  destruct (shr_fexp prec emax mx ex lx) as [mrs' e']. simpl in H1.
  pose proof (shr_fexp_nonneg prec emax
                (round_nearest_even (shr_m mrs') (loc_of_shr_record mrs')) e'
                loc_Exact (round_nearest_even_nonneg _ _ H1)) as H2.
  destruct (shr_fexp prec emax _ e' loc_Exact) as [mrs'' e'']. simpl in H2.
  destruct (shr_m mrs'') as [|m|m]; [done| |lia].
  by destruct (e'' <=? emax - prec).
Qed.

Lemma round_decimal_not_nan emax neg N n :
  0 <= N -> round_decimal emax neg N n <> S754_nan.
Proof.
  intros HN. unfold round_decimal, SFdiv_core_binary.
  set (m' := match _ - _ with 0 => N | Z.pos _ => _ | Z.neg _ => 0 end).
  assert (0 <= m') as Hm'.
  { subst m'. destruct (_ - _); [done| |done]. by apply Z.shiftl_nonneg. }
  assert (0 < 10 ^ n \/ 10 ^ n = 0) as Hden.
  { destruct (Z.le_gt_cases 0 n); [left; by apply Z.pow_pos_nonneg|].
    right. by apply Z.pow_neg_r. }
  destruct (IntDef.Z.div_eucl m' (10 ^ n)) as [q r] eqn:E.
  apply binary_round_aux_not_nan.
  assert (q = m' / 10 ^ n) as -> by (unfold Z.div; by rewrite E).
  destruct Hden as [Hden| ->]; [by apply Z.div_pos|].
  by rewrite Z.div_0_r.
Qed.

Lemma digits_val_nonneg_from ds a :
  0 <= a -> Forall (fun c => isdigit c = true) ds ->
  0 <= fold_left (fun a c => 10 * a + digit_val c) ds a.
Proof.
  revert a. induction ds as [|c ds IH]; intros a Ha Hds; [done|]. simpl.
  inversion Hds as [|? ? Hc Hds']; subst. apply IH; [|done].
  assert (0 <= digit_val c); [|lia].
  unfold digit_val, isdigit in *. apply andb_true_iff in Hc as [Hc _].
  apply Nat.leb_le in Hc. lia.
Qed.

Lemma take_digits_all l : Forall (fun c => isdigit c = true) (take_digits l).
Proof.
  induction l as [|c l IH]; simpl; [constructor|].
  destruct (isdigit c) eqn:E; by constructor.
Qed.

Lemma stod_finite s d : stod s = inr d -> finite d = true.
Proof.
  unfold stod.
  destruct (match s with [] => _ | _ => _ end) as [neg s1].
  set (ip := take_digits s1).
  set (fp := match drop_digits s1 with [] => _ | _ => _ end).
  assert (Forall (fun c => isdigit c = true) (ip ++ fp)) as Hds.
  { apply Forall_app. split; [apply take_digits_all|].
    subst fp. destruct (drop_digits s1) as [|c s3]; [constructor|].
    destruct (eqc c "."); [apply take_digits_all|constructor]. }
  destruct (ip ++ fp) as [|c ds] eqn:E; [done|].
  pose proof (digits_val_nonneg_from (c :: ds) 0 ltac:(done) Hds) as HN.
  fold (digits_val (c :: ds)) in HN.
  unfold decimal_to_double.
  destruct (_ =? 0); [by intros [= <-]|].
  pose proof (round_decimal_not_nan 1024 neg _ (Z.of_nat (length fp)) HN) as Hnan.
  destruct (round_decimal 1024 neg _ _) as [z|z| |z m e]; [|done|done|];
    destruct (_ && _); try done; by intros [= <-].
Qed.
End Rounding.

Lemma insert_members_Forall (P : JSONValue -> Prop) ms obj :
  map_Forall (fun _ x => P x) obj -> Forall (fun m => P (m_val m)) ms ->
  map_Forall (fun _ x => P x) (insert_members obj ms).
Proof.
  revert obj. induction ms as [|m ms IH]; intros obj Hobj Hms; [done|].
  inversion Hms as [|? ? Hm Hms']; subst.
  rewrite insert_members_cons. apply IH; [|done].
  by apply map_Forall_insert_2.
Qed.

Lemma value_text_finite_all :
  (forall text v, value_text text v -> finite_numbers v)
  /\ (forall its, items_texts its -> Forall (fun it => finite_numbers (i_val it)) its)
  /\ (forall ms, members_texts ms -> Forall (fun m => finite_numbers (m_val m)) ms).
Proof.
  apply value_text_mutind.
  - intros v kw Hkw. destruct v as [|b| | | |]; try done; constructor.
  - intros t d _ Hd. constructor. by eapply stod_finite.
  - intros. constructor.
  - intros. by repeat constructor.
  - intros its _ _ IH. constructor. by apply Forall_fmap.
  - intros. constructor. apply map_Forall_empty.
  - intros ms _ _ IH. constructor.
    apply insert_members_Forall; [apply map_Forall_empty|done].
  - constructor.
  - intros it its _ _ _ Hv _ IH. by constructor.
  - constructor.
  - intros m ms _ _ _ _ _ Hv _ _ IH. by constructor.
Qed.

(** X23. Every [Number] in a tree [parse] returns is finite: [parseNumber]
    hands [std::stod] a sign, digits and a point only, and [std::stod]
    throws where the value would not fit, so no infinity and no NaN enters
    a tree. *)
Theorem parsed_numbers_finite (text : string) (v : JSONValue) :
  parse_text text = Returned v -> finite_numbers v.
Proof.
  unfold parse_text. intros Hret.
  destruct (JSONParser.parse (chars text)) as [v' pend| |] eqn:Hparse; try done.
  injection Hret as ->.
  destruct (parse_parsed _ _ _ Hparse)
    as (ws1 & t & rest & _ & _ & _ & [Hv|[(body & s & _ & _ & ->) _]]).
  - by apply (proj1 value_text_finite_all t).
  - constructor.
Qed.

Lemma parsed_numbers_finite_witness :
  parse_text "[1,-12.5]"
    = Returned (JArray [JNumber (ldexp_Z 1 0); JNumber (ldexp_Z (-25) (-1))])
  /\ finite_numbers (JArray [JNumber (ldexp_Z 1 0); JNumber (ldexp_Z (-25) (-1))]).
Proof.
  assert (parse_text "[1,-12.5]"
          = Returned (JArray [JNumber (ldexp_Z 1 0); JNumber (ldexp_Z (-25) (-1))]))
    as Hv by (vm_compute; reflexivity).
  split; [exact Hv|].
  exact (parsed_numbers_finite "[1,-12.5]" _ Hv).
Defined.

Lemma double_eqb_eq a b : double_eqb a b = true -> a = b.
Proof.
  destruct a as [s|s| |s m e], b as [s'|s'| |s' m' e']; simpl; try done.
  - by intros ->%Bool.eqb_prop.
  - by intros ->%Bool.eqb_prop.
  - intros [[->%Bool.eqb_prop ->%Pos.eqb_eq]%andb_true_iff ->%Z.eqb_eq]%andb_true_iff.
    done.
Qed.

Lemma integer_trips_sound n :
  integer_trips n = true ->
  number_trips (ldexp_Z n 0)
  /\ exists ds, ds <> [] /\ all_digits ds /\
       format_double (ldexp_Z n 0) = (if (n <? 0)%Z then ["-"] else []) ++ ds.
Proof.
  unfold integer_trips. cbv zeta.
  intros [[[Hsign Hds]%andb_true_iff Hne]%andb_true_iff Hstod]%andb_true_iff.
  set (s := format_double (ldexp_Z n 0)) in *.
  set (ds := if (n <? 0)%Z then tail s else s) in *.
  assert (s = (if (n <? 0)%Z then ["-"] else []) ++ ds) as Hs.
  { subst ds. destruct (n <? 0)%Z; [|done].
    destruct s as [|c s']; [done|]. by apply eqc_true in Hsign as ->. }
  assert (all_digits ds) as Hall.
  { apply Forall_forall. intros c Hc. rewrite forallb_forall in Hds.
    apply Hds. by apply list_elem_of_In. }
  assert (ds <> []) as Hne'.
  { intros E. rewrite E in Hne. done. }
  split; [|by exists ds].
  exists {| nt_neg := (n <? 0)%Z; nt_int := ds; nt_frac := None |}.
  assert (token {| nt_neg := (n <? 0)%Z; nt_int := ds; nt_frac := None |} = s)
    as Htok by (unfold token; simpl; by rewrite app_nil_r, Hs).
  split; [|split; [by rewrite Htok|]].
  - split; [done|]. split; [done|]. by right.
  - rewrite Htok. destruct (stod s) as [e|d'] eqn:E; [done|].
    by apply double_eqb_eq in Hstod as <-.
Qed.

Lemma holds_below_spec (f : Z -> bool) (N : positive) :
  holds_below f N = true ->
  forall k : Z, (0 <= k < Z.pos N)%Z -> f k = true /\ f (- k)%Z = true.
Proof.
  unfold holds_below.
  set (F := fun '(b, k) => (b && f k && f (- k)%Z, (k + 1)%Z)).
  assert (forall N,
            let r := Pos.iter F (true, 0%Z) N in
            snd r = Z.pos N /\
            (fst r = true ->
             forall k, (0 <= k < Z.pos N)%Z -> f k = true /\ f (- k)%Z = true))
    as Hinv.
  { clear N. induction N as [|N IH] using Pos.peano_ind.
    - simpl. split; [done|]. intros H k Hk. assert (k = 0%Z) as -> by lia.
      simpl in H. apply andb_true_iff in H as [H1 H2]. by split.
    - rewrite Pos.iter_succ. cbv zeta in *.
      destruct (Pos.iter F (true, 0%Z) N) as [b j]. simpl in IH.
      destruct IH as [-> IH]. simpl. split; [lia|].
      intros [[Hb H1]%andb_true_iff H2]%andb_true_iff k Hk.
      destruct (decide (k = Z.pos N)) as [->|Hne]; [by split|].
      apply IH; [done|lia]. }
  intros H. by apply (Hinv N).
Qed.

Lemma integers_checked : holds_below integer_trips 10000 = true.
Proof. vm_compute. reflexivity. Qed.

(** X24. Every integer of up to four digits, kept as a [Number], is printed
    as its sign and digits, with no point and no exponent, and the printed
    text is read back as the same [Number]. *)
Theorem small_integers_round_trip
    (order : gmap string JSONValue -> list string) (n : Z) :
  (- 10000 < n < 10000)%Z ->
  number_trips (ldexp_Z n 0)
  /\ (exists ds, ds <> [] /\ all_digits ds /\
        printJSON order (JNumber (ldexp_Z n 0)) 0
          = (if (n <? 0)%Z then ["-"] else []) ++ ds)
  /\ parse_text (render order (JNumber (ldexp_Z n 0)))
     = Returned (JNumber (ldexp_Z n 0)).
Proof.
  intros Hn.
  assert (integer_trips n = true) as Hcheck.
  { assert (0 <= Z.abs n < Z.pos 10000)%Z as Habs by lia.
    destruct (holds_below_spec _ _ integers_checked (Z.abs n) Habs) as [H1 H2].
    destruct (Z.abs_spec n) as [[_ E]|[_ E]]; rewrite E in H1, H2; [done|].
    by rewrite Z.opp_involutive in H2. }
  destruct (integer_trips_sound n Hcheck) as [Htrips Hdigits].
  split; [done|]. split; [done|].
  destruct Htrips as (t & Hwf & Hfmt & Hstod).
  unfold parse_text, render. rewrite chars_of_list. cbn [printJSON]. rewrite Hfmt.
  destruct (token_head t Hwf) as (c & tl & Htok & _ & Hsp & _).
  assert (parseValue (token t) (S (size (token t))) 0
          = Ok (JNumber (ldexp_Z n 0)) (size (token t))) as Hv.
  { rewrite (parseValue_number _ _ 0 t [] Hwf); [by rewrite Hstod| |].
    - split; [done|]. by intros _.
    - by rewrite drop_0, app_nil_r. }
  by rewrite (parse_whole _ _ _ _ Htok Hsp Hv).
Qed.

Lemma small_integers_round_trip_witness :
  (- 10000 < -42 < 10000)%Z
  /\ parse_text (render keys_of (JNumber (ldexp_Z (-42) 0)))
     = Returned (JNumber (ldexp_Z (-42) 0)).
Proof.
  split; [lia|].
  exact (proj2 (proj2 (small_integers_round_trip keys_of (-42) ltac:(lia)))).
Defined.

(** A body that decodes to as many characters as it has holds no escape:
    it decodes to itself, and holds no quote and no backslash. *)
Lemma decode_body_same_length body s :
  decode_body body = Some s -> length s = length body ->
  s = body /\ Forall (fun c => plain_char c = true) body.
Proof.
  revert body s.
  apply (decode_body_ind (fun body s =>
           length s = length body ->
           s = body /\ Forall (fun c => plain_char c = true) body)).
  - done.
  - intros c rest s H1 H2 _ IH Hlen. simpl in Hlen.
    destruct IH as [-> Hrest]; [lia|]. split; [done|].
    constructor; [|done]. unfold plain_char. by rewrite H1, H2.
  - intros x y rest s _ Hs%decode_body_length _ Hlen. simpl in Hlen. lia.
Qed.

(** With the closing quote taken into the body, a body does not decode to
    itself. *)
Lemma decode_body_snoc_quote body r :
  decode_body body = Some r -> forall b, body = b ++ [dquote] -> r <> b.
Proof.
  revert body r.
  apply (decode_body_ind (fun body r => forall b, body = b ++ [dquote] -> r <> b)).
  - by intros [|? ?].
  - intros c rest s H1 _ _ IH [|c' b'] Hb; simplify_eq/=.
    intros [= E]. by apply (IH b').
  - intros x y rest s Hy Hs _ [|c1 [|c2 b'']] Hb; simplify_eq/=.
    + intros [= E1]. subst. by vm_compute in Hy.
    + intros [= E1 E2]. subst.
      destruct (decode_body_same_length _ _ Hs) as [_ Hplain];
        [rewrite length_app; simpl; lia|].
      apply Forall_app in Hplain as [_ Hq]. by inversion Hq.
Qed.

(** X25. [printJSON] writes a string between quotes as it is, without
    escaping: the printed text is read back as the same [String] exactly
    when the string holds no double quote and no backslash. *)
Theorem printed_string_reads_back_iff
    (order : gmap string JSONValue -> list string) (s : string) :
  parse_text (render order (JString s)) = Returned (JString s) <-> plain s.
Proof.
  unfold parse_text, render. rewrite chars_of_list. cbn [printJSON]. split.
  - intros Hret.
    destruct (JSONParser.parse _) as [v pend| |] eqn:Hparse; try done.
    injection Hret as ->.
    apply parse_parsed in Hparse
      as (ws1 & t & rest & Hin & Hws1 & Hrest & Ht).
    assert (exists body, t = dquote :: body) as [body ->].
    { destruct Ht as [Hv|[(body & s' & -> & _) _]]; [|by eexists].
      inversion Hv as [? ? Hkw| | | | | |]; subst; [done|by eexists]. }
    destruct ws1 as [|w ws1].
    2:{ simpl in Hin. injection Hin as <- _. by inversion Hws1. }
    simpl in Hin. injection Hin as Hin.
    destruct Ht as [Hv|[(body' & s' & [= <-] & Hdec & [= ->]) ->]].
    + inversion Hv as [? ? Hkw| |body' s' Hdec Ht Hs| | | |]; subst; [done|].
      unfold plain. rewrite chars_of_list in Hin |- *.
      assert (rest = [] /\ body' = s') as [-> ->].
      { destruct rest as [|x rest _] using rev_ind.
        - split; [done|]. rewrite app_nil_r in Hin.
          by apply app_inj_tail in Hin as [-> _].
        - rewrite !app_assoc in Hin. apply app_inj_tail in Hin as [_ <-].
          apply Forall_app in Hrest as [_ Hx]. by inversion Hx. }
      by destruct (decode_body_same_length _ _ Hdec).
    + rewrite app_nil_r, chars_of_list in Hin.
      by destruct (decode_body_snoc_quote _ _ Hdec s').
  - intros Hplain.
    pose proof (value_text_string (chars s) (chars s) (decode_plain _ Hplain)) as Hv.
    unfold chars in Hv at 2. rewrite string_of_list_ascii_of_string in Hv.
    pose proof (parse_value_text [] _ [] _ Hv ltac:(constructor) ltac:(constructor)) as Hp.
    simpl in Hp. rewrite app_nil_r in Hp. simpl. by rewrite Hp.
Qed.
